(** * AFQ-Insight: the transform module

    A shallow embedding of [afqinsight/transform.py] and the properties
    of its feature-matrix builder, its label-set group algebra and its
    coefficient unfolding.

    Conventions of the embedding.
    - A float is a [cell]: [Some q] for a number (an exact rational) and
      [None] for NaN.  The arithmetic of the embedding is exact: the
      statements do not depend on how the doubles round, and those that
      need every intermediate result to be a finite double assume values
      of moderate magnitude ([moderate]).
    - A raised Python exception is a [Raise e] result.
    - A numpy array is an [ndarray]: a vector, a row-major matrix that
      carries its column count (so that a matrix without rows still has
      a shape), a scalar, or a tensor of rank three or more kept as its
      shape and its flat row-major data.
    - An array of Python sets is a list of [gset atom]; an [atom] is a
      hashable label, a string or an integer. *)

From Stdlib Require Import PrimFloat QArith Qabs.
From stdpp Require Import base gmap strings list pretty sorting.

Local Open Scope string_scope.
Local Open Scope list_scope.
Local Open Scope nat_scope.

(** ** Exceptions *)

Inductive exn := ValueError | IndexError | KeyError.

Inductive result (A : Type) :=
| Ok (a : A)
| Raise (e : exn).
Arguments Ok {A} a.
Arguments Raise {A} e.

#[global] Instance result_ret : MRet result := fun A a => Ok a.
#[global] Instance result_bind : MBind result := fun A B f r =>
  match r with
  | Ok a => f a
  | Raise e => Raise e
  end.

(** ** Labels and label sets *)

Inductive atom :=
| LStr (s : string)
| LInt (z : Z).

#[global] Instance atom_eq_dec : EqDecision atom.
Proof. solve_decision. Defined.

Definition atom_to_sum (a : atom) : string + Z :=
  match a with LStr s => inl s | LInt z => inr z end.
Definition atom_of_sum (x : string + Z) : atom :=
  match x with inl s => LStr s | inr z => LInt z end.

#[global] Instance atom_countable : Countable atom.
Proof.
  apply (inj_countable' atom_to_sum atom_of_sum).
  intros []; reflexivity.
Defined.

(** ** Arrays *)

Inductive ndarray (A : Type) :=
| Scalar (a : A)
| Vec (v : list A)
| Mat (ncols : nat) (rows : list (list A))
| Tensor (shape : list nat) (data : list A).
Arguments Scalar {A} a.
Arguments Vec {A} v.
Arguments Mat {A} ncols rows.
Arguments Tensor {A} shape data.

(** [len(x.shape)] *)
Definition ndim {A} (x : ndarray A) : nat :=
  match x with
  | Scalar _ => 0
  | Vec _ => 1
  | Mat _ _ => 2
  | Tensor shape _ => length shape
  end.

(** The number of entries of an array of the given shape. *)
Definition product (shape : list nat) : nat := fold_right Nat.mul 1 shape.

(** A matrix is rectangular: every row has [ncols] entries; a tensor has
    three dimensions at least and as many entries as its shape says. *)
Definition ndarray_wf {A} (x : ndarray A) : Prop :=
  match x with
  | Mat n rows => Forall (fun r => length r = n) rows
  | Tensor shape data => 3 <= length shape /\ length data = product shape
  | _ => True
  end.

(** The number of columns of a matrix, of entries of a vector. *)
Definition width {A} (x : ndarray A) : option nat :=
  match x with
  | Vec v => Some (length v)
  | Mat n _ => Some n
  | _ => None
  end.

(** Boolean-mask indexing along one axis, for a mask as long as the axis. *)
Fixpoint compress {A} (mask : list bool) (l : list A) : list A :=
  match mask, l with
  | b :: mask', a :: l' =>
      if b then a :: compress mask' l' else compress mask' l'
  | _, _ => []
  end.

(** [np.where(mask)[0]]: the positions at which the mask holds. *)
Fixpoint where_from (i : nat) (mask : list bool) : list nat :=
  match mask with
  | [] => []
  | b :: mask' => if b then i :: where_from (S i) mask' else where_from (S i) mask'
  end.
Definition np_where (mask : list bool) : list nat := where_from 0 mask.

(** Integer (fancy) indexing of one axis by in-range positions. *)
Definition take {A} (idx : list nat) (l : list A) : list A :=
  omap (fun i => l !! i) idx.

(** [x[mask]] on a vector: the mask must be as long as the vector. *)
Definition getitem_mask {A} (v : list A) (mask : list bool) : result (ndarray A) :=
  if length mask =? length v then Ok (Vec (compress mask v))
  else Raise IndexError.

(** [x[:, mask]] on a matrix: the mask must be as long as a row. *)
Definition getitem_cols_mask {A} (ncols : nat) (rows : list (list A))
    (mask : list bool) : result (ndarray A) :=
  if length mask =? ncols
  then Ok (Mat (length (np_where mask)) (map (compress mask) rows))
  else Raise IndexError.

(** [x[:, idx]] and [x[idx]] with integer positions, used to name the
    columns an operation keeps. *)
Definition take_columns {A} (idx : list nat) (x : ndarray A) : ndarray A :=
  match x with
  | Mat _ rows => Mat (length idx) (map (take idx) rows)
  | Vec v => Vec (take idx v)
  | other => other
  end.

(** ** Group selection by label sets *)

(** A column matches a label when its label set is a superset of the
    set of the label's components: [set(label) <= s]. *)
Definition matches (label : list atom) (s : gset atom) : Prop :=
  list_to_set (C := gset atom) label ⊆ s.

#[global] Instance matches_dec label s : Decision (matches label s).
Proof. unfold matches. apply _. Defined.

(** [set(label) <= label_sets], elementwise over the array of sets. *)
Definition issubset (label : list atom) (label_sets : list (gset atom)) : list bool :=
  map (fun s => bool_decide (matches label s)) label_sets.

Definition logical_not (m : list bool) : list bool := map negb m.
Definition logical_or (m1 m2 : list bool) : list bool := zip_with orb m1 m2.

(** [np.zeros_like(label_sets, dtype=np.bool)] *)
Definition zeros_like {A} (l : list A) : list bool := map (fun _ => false) l.

Definition remove_group {A} (x : ndarray A) (remove_label : list atom)
    (label_sets : list (gset atom)) : result (ndarray A) :=
  let mask := logical_not (issubset remove_label label_sets) in
  match x with
  | Mat n rows => getitem_cols_mask n rows mask
  | Vec v => getitem_mask v mask
  | _ => Raise ValueError
  end.

Definition remove_groups {A} (x : ndarray A) (remove_labels : list (list atom))
    (label_sets : list (gset atom)) : result (ndarray A) :=
  let mask :=
    fold_left (fun mask label =>
                 logical_or mask (logical_not (issubset label label_sets)))
              remove_labels (zeros_like label_sets) in
  match x with
  | Mat n rows => getitem_cols_mask n rows mask
  | Vec v => getitem_mask v mask
  | _ => Raise ValueError
  end.

Definition select_group {A} (x : ndarray A) (select_label : list atom)
    (label_sets : list (gset atom)) : result (ndarray A) :=
  let mask := issubset select_label label_sets in
  match x with
  | Mat n rows => getitem_cols_mask n rows mask
  | Vec v => getitem_mask v mask
  | _ => Raise ValueError
  end.

Definition select_groups {A} (x : ndarray A) (select_labels : list (list atom))
    (label_sets : list (gset atom)) : result (ndarray A) :=
  let mask :=
    fold_left (fun mask label => logical_or mask (issubset label label_sets))
              select_labels (zeros_like label_sets) in
  match x with
  | Mat n rows => getitem_cols_mask n rows mask
  | Vec v => getitem_mask v mask
  | _ => Raise ValueError
  end.

(** ** Shuffling a group

    The global generator of [np.random] is a state that [seed] sets and
    that [shuffle] reads and advances. *)

Class RandomState := {
  rng : Type;
  (** [np.random.seed(s)]: the state the seed sets; none for a seed the
      generator refuses (one outside of the 32-bit range). *)
  rng_seed : Z -> option rng;
  (** [np.random.shuffle(a)]: the permuted array and the advanced state. *)
  rng_shuffle : forall A : Type, list A -> rng -> list A * rng
}.

(** [k] consecutive chunks of [n] entries: [reshape] of a flat array. *)
Fixpoint chunks {A} (k n : nat) (l : list A) : list (list A) :=
  match k with
  | 0 => []
  | S k' => firstn n l :: chunks k' n (skipn n l)
  end.

(** [old[mask] = new]: the masked positions take the entries of [new] in
    order, the others keep theirs. *)
Fixpoint assign_mask {A} (mask : list bool) (old new : list A) : list A :=
  match mask, old with
  | b :: mask', a :: old' =>
      if b then
        match new with
        | c :: new' => c :: assign_mask mask' old' new'
        | [] => a :: assign_mask mask' old' []
        end
      else a :: assign_mask mask' old' new
  | _, _ => old
  end.

Section Shuffle.
Context `{RandomState} {A : Type}.

(** The statements between taking [section] and writing it back: they
    run in the ambient state [g] and leave the state the call ends in.
    A refused seed raises before the state is touched. *)
Definition shuffle_section (random_seed : option Z) (section : list A)
    (g : rng) : result (list A) * rng :=
  match random_seed with
  | Some s =>
      let random_state := g in
      match rng_seed s with
      | Some seeded =>
          let '(section', _) := rng_shuffle A section seeded in
          (Ok section', random_state)
      | None => (Raise ValueError, g)
      end
  | None =>
      let '(section', g') := rng_shuffle A section g in
      (Ok section', g')
  end.

Definition shuffle_group (x : ndarray A) (label : list atom)
    (label_sets : list (gset atom)) (random_seed : option Z) (g : rng)
  : result (ndarray A) * rng :=
  let mask := issubset label label_sets in
  match x with
  | Mat n rows =>
      if length mask =? n then
        let section := map (compress mask) rows in
        let k := length (np_where mask) in
        match shuffle_section random_seed (concat section) g with
        | (Ok flat, g') =>
            (Ok (Mat n (zip_with (assign_mask mask) rows
                                 (chunks (length rows) k flat))), g')
        | (Raise e, g') => (Raise e, g')
        end
      else (Raise IndexError, g)
  | Tensor shape data =>
      match shape with
      | d0 :: d1 :: rest =>
          if length mask =? d1 then
            let p := product rest in
            let blocks := chunks (d0 * d1) p data in
            let bmask := concat (replicate d0 mask) in
            let section := compress bmask blocks in
            match shuffle_section random_seed (concat section) g with
            | (Ok flat, g') =>
                (Ok (Tensor shape
                       (concat (assign_mask bmask blocks
                                  (chunks (length section) p flat)))), g')
            | (Raise e, g') => (Raise e, g')
            end
          else (Raise IndexError, g)
      | _ => (Raise IndexError, g)
      end
  | Vec _ | Scalar _ => (Raise IndexError, g)
  end.
End Shuffle.

(** ** Column keys: the three-level MultiIndex

    The columns of the feature matrix are a [pandas.MultiIndex] whose
    names are [["metric"; "tractID"; "nodeID"]]: three levels of distinct
    values and one tuple per column; the code of a column at a level is
    the position of its value in that level. *)

Abbreviation ColumnKey := (string * string * Z)%type.

Record MultiIndex := {
  levels_metric : list string;
  levels_tract : list string;
  levels_node : list Z;
  tuples : list ColumnKey
}.

(** The position of the first [x] in [l]; [length l] when there is none. *)
Fixpoint index_of `{EqDecision A} (x : A) (l : list A) : nat :=
  match l with
  | [] => 0
  | y :: l' => if decide (y = x) then 0 else S (index_of x l')
  end.

(** [columns.codes[level]] for the level of each name
    ([columns.names.index("metric")] is 0, [columns.names.index("tractID")]
    is 1): per column, the position of its value in the level. *)
Definition codes_metric (columns : MultiIndex) : list nat :=
  map (fun k : ColumnKey => index_of k.1.1 (levels_metric columns)) (tuples columns).
Definition codes_tract (columns : MultiIndex) : list nat :=
  map (fun k : ColumnKey => index_of k.1.2 (levels_tract columns)) (tuples columns).
Definition codes_node (columns : MultiIndex) : list nat :=
  map (fun k : ColumnKey => index_of k.2 (levels_node columns)) (tuples columns).

(** The group code of a column:
    [codes[metric_level] * n_tracts + codes[tract_level]]. *)
Definition group_code (columns : MultiIndex) (k : ColumnKey) : nat :=
  index_of k.1.1 (levels_metric columns) * length (levels_tract columns)
  + index_of k.1.2 (levels_tract columns).

(** [columns.to_numpy()]: the tuple of every column. *)
Definition to_numpy (columns : MultiIndex) : list ColumnKey := tuples columns.

(** [len(columns)] *)
Definition n_columns (columns : MultiIndex) : nat := length (tuples columns).

(** ** [str.replace] *)

Fixpoint replace_from (skip : nat) (old new s : string) : string :=
  match s with
  | EmptyString => EmptyString
  | String c s' =>
      match skip with
      | S k => replace_from k old new s'
      | 0 =>
          if String.prefix old s
          then new +:+ replace_from (String.length old - 1) old new s'
          else String c (replace_from 0 old new s')
      end
  end.

Fixpoint intersperse_with (new s : string) : string :=
  match s with
  | EmptyString => new
  | String c s' => new +:+ String c (intersperse_with new s')
  end.

(** [s.replace(old, new)]: every occurrence, left to right, without overlap. *)
Definition str_replace (s old new : string) : string :=
  match old with
  | EmptyString => intersperse_with new s
  | _ => replace_from 0 old new s
  end.

(** ** Label sets of the columns *)

(** [tract.replace("Left ", "").replace("Right ", "")] *)
Definition symmetrized (tract : string) : string :=
  str_replace (str_replace tract "Left " "") "Right " "".

(** The dictionary [bilateral_symmetry] of [multicol2sets]. *)
Definition bilateral_symmetry (columns : MultiIndex) : gmap string string :=
  list_to_map (map (fun tract => (tract, symmetrized tract)) (levels_tract columns)).

(** [d[k]] on a dictionary *)
Definition dict_getitem {V} (d : gmap string V) (k : string) : result V :=
  match d !! k with
  | Some v => Ok v
  | None => Raise KeyError
  end.

(** [for x in l], a body that may raise: the results in order. *)
Fixpoint mapM {A B} (f : A -> result B) (l : list A) : result (list B) :=
  match l with
  | [] => Ok []
  | a :: l' => b ← f a; bs ← mapM f l'; Ok (b :: bs)
  end.

(** [multicol2sets].  With [tract_symmetry] the tuples, extended by the
    symmetrized tract, go through [np.array]: a rectangular array of
    strings and integers is an array of strings, so the node number is
    its decimal text there; without it the tuples stay Python tuples and
    the node number stays an integer. *)
Definition multicol2sets (columns : MultiIndex) (tract_symmetry : bool)
  : result (list (gset atom)) :=
  let col_vals := to_numpy columns in
  if tract_symmetry then
    let sym := bilateral_symmetry columns in
    col_vals' ← mapM (fun '(metric, tract, node) =>
                        s ← dict_getitem sym tract;
                        Ok [LStr metric; LStr tract; LStr (pretty node); LStr s])
                     col_vals;
    Ok (map (fun c => list_to_set c) col_vals')
  else
    Ok (map (fun '(metric, tract, node) =>
               list_to_set [LStr metric; LStr tract; LInt node]) col_vals).

(** ** Coefficients by groups *)

(** An [OrderedDict]: the items in insertion order, one per key. *)
Abbreviation OrderedDict V := (list (string * V)).

Fixpoint od_get {V} (d : OrderedDict V) (k : string) : option V :=
  match d with
  | [] => None
  | (k', v) :: d' => if decide (k' = k) then Some v else od_get d' k
  end.

(** [d[k] = v]: a present key keeps its place, a new one goes last. *)
Fixpoint od_set {V} (d : OrderedDict V) (k : string) (v : V) : OrderedDict V :=
  match d with
  | [] => [(k, v)]
  | (k', v') :: d' =>
      if decide (k' = k) then (k, v) :: d' else (k', v') :: od_set d' k v
  end.

(** A float: a rational number, or NaN. *)
Abbreviation cell := (option Q).
Definition NaN : cell := None.

(** [c != 0] on a float: NaN differs from every number. *)
Definition cell_nonzero (c : cell) : bool :=
  match c with
  | Some q => negb (Qeq_bool q 0)
  | None => true
  end.

(** [any(a != 0)]: the builtin [any] iterates over the first axis, and a
    row of a matrix has a truth value only when it has one entry (none:
    false). *)
Fixpoint any_rows (rows : list (list bool)) : result bool :=
  match rows with
  | [] => Ok false
  | [] :: rows' => any_rows rows'
  | [b] :: rows' => if b then Ok true else any_rows rows'
  | _ :: _ => Raise ValueError
  end.

Definition any_nonzero (a : ndarray cell) : result bool :=
  match a with
  | Vec v => Ok (existsb cell_nonzero v)
  | Mat _ rows => any_rows (map (map cell_nonzero) rows)
  | Scalar _ => Raise ValueError
  | Tensor _ _ => Raise ValueError
  end.

Definition metric_loop (beta_hat : ndarray cell) (label_sets : list (gset atom))
    (drop_zeros : bool) (tract : string) (metrics : list string)
    (inner : OrderedDict (ndarray cell)) : result (OrderedDict (ndarray cell)) :=
  foldl (fun (acc : result (OrderedDict (ndarray cell))) metric =>
           inner ← acc;
           x ← select_group beta_hat [LStr tract; LStr metric] label_sets;
           (if drop_zeros then any_nonzero x else Ok true) ≫= fun nz : bool =>
           if nz then Ok (od_set inner metric x) else Ok inner)
        (Ok inner) metrics.

Definition beta_hat_by_groups (beta_hat : ndarray cell) (columns : MultiIndex)
    (drop_zeros : bool)
  : result (OrderedDict (OrderedDict (ndarray cell))) :=
  label_sets ← multicol2sets columns false;
  foldl (fun (acc : result (OrderedDict (OrderedDict (ndarray cell)))) tract =>
           betas ← acc;
           all_metrics ← select_group beta_hat [LStr tract] label_sets;
           (if drop_zeros then any_nonzero all_metrics else Ok true) ≫= fun nz : bool =>
           if nz then
             inner ← metric_loop beta_hat label_sets drop_zeros tract
                       (levels_metric columns) [];
             Ok (od_set betas tract inner)
           else Ok betas)
        (Ok ([] : OrderedDict (OrderedDict (ndarray cell))))
        (levels_tract columns).

(** ** The input table

    The data frame has the columns [subjectID], [tractID], [nodeID] and
    one column per metric. *)

Record Row := {
  subjectID : string;
  tractID : string;
  nodeID : Z;
  metric_values : list cell
}.

Record DataFrame := {
  metric_columns : list string;
  df_rows : list Row
}.

(** A record of the long-form table. *)
Record Obs := {
  o_subject : string;
  o_tract : string;
  o_node : Z;
  o_metric : string;
  o_value : cell
}.

(** [df.melt(id_vars=["subjectID", "tractID", "nodeID"], var_name="metric")]:
    the metric columns one after the other, the rows in order within each. *)
Definition melt (df : DataFrame) : list Obs :=
  flat_map (fun jm : nat * string =>
              map (fun r =>
                     {| o_subject := subjectID r; o_tract := tractID r;
                        o_node := nodeID r; o_metric := jm.2;
                        o_value := default NaN (metric_values r !! jm.1) |})
                  (df_rows df))
           (imap pair (metric_columns df)).

(** ** Sorted distinct values *)

Definition lex (c1 c2 : comparison) : comparison :=
  match c1 with Eq => c2 | _ => c1 end.

Definition not_gt (c : comparison) : Prop := c <> Gt.

(** (metric, tractID, subjectID): a column of the table by node. *)
Abbreviation SeriesKey := (string * string * string)%type.

Definition series_le (a b : SeriesKey) : Prop :=
  not_gt (lex (String.compare a.1.1 b.1.1)
              (lex (String.compare a.1.2 b.1.2) (String.compare a.2 b.2))).

Definition column_le (a b : ColumnKey) : Prop :=
  not_gt (lex (String.compare a.1.1 b.1.1)
              (lex (String.compare a.1.2 b.1.2) (Z.compare a.2 b.2))).

#[global] Instance not_gt_dec c : Decision (not_gt c).
Proof. unfold not_gt. apply _. Defined.
#[global] Instance series_le_dec : RelDecision series_le.
Proof. intros a b. unfold series_le. apply _. Defined.
#[global] Instance column_le_dec : RelDecision column_le.
Proof. intros a b. unfold column_le. apply _. Defined.

(** The distinct values of a sequence in ascending order: a factorized
    level, [np.unique], a sorted index. *)
Definition sort_unique `{EqDecision A} (R : relation A) `{!RelDecision R}
    (l : list A) : list A :=
  merge_sort R (remove_dups l).

(** ** The table by node: [pd.pivot_table] *)

(** The series a record belongs to. *)
Definition obs_series (o : Obs) : SeriesKey := (o_metric o, o_tract o, o_subject o).

(** The valid values recorded for one node of one series. *)
Definition group_values (long : list Obs) (n : Z) (c : SeriesKey) : list Q :=
  omap (fun o =>
          if decide (o_node o = n /\ obs_series o = c) then o_value o else None)
       long.

Definition Qsum (l : list Q) : Q := fold_right Qplus 0%Q l.

(** The mean of the valid values of a group: NaN when it has none. *)
Definition mean (l : list Q) : cell :=
  match l with
  | [] => NaN
  | _ => Some (Qsum l / inject_Z (Z.of_nat (length l)))%Q
  end.

(** The aggregated cell of a group. *)
Definition pivot_cell (long : list Obs) (n : Z) (c : SeriesKey) : cell :=
  mean (group_values long n c).

(** The keys of the groups that [dropna] keeps. *)
Definition agged_keys (long : list Obs) : list (Z * SeriesKey) :=
  List.filter (fun k : Z * SeriesKey => bool_decide (is_Some (pivot_cell long k.1 k.2)))
    (remove_dups (map (fun o => (o_node o, obs_series o)) long)).

(** A frame indexed by [nodeID] with one column per series. *)
Record NodeFrame := {
  nf_index : list Z;
  nf_columns : list (SeriesKey * list cell)
}.

(** [pd.pivot_table(..., index="nodeID", columns=["metric", "tractID",
    "subjectID"], values="value")]: the mean of every group; the groups
    without a valid value are dropped, so that every row and every column
    of the table has a valid entry. *)
Definition pivot_table (long : list Obs) : NodeFrame :=
  let keys := agged_keys long in
  let index := sort_unique Z.le (map fst keys) in
  {| nf_index := index;
     nf_columns :=
       map (fun c => (c, map (fun n => pivot_cell long n c) index))
           (sort_unique series_le (map snd keys)) |}.

(** ** Filling along the node axis *)

(** The first valid entry of [l], whose head sits at position [i]. *)
Fixpoint next_valid (i : nat) (l : list cell) : option (nat * Q) :=
  match l with
  | [] => None
  | Some v :: _ => Some (i, v)
  | None :: l' => next_valid (S i) l'
  end.

Definition Qnat (n : nat) : Q := inject_Z (Z.of_nat n).

(** The value given to a missing entry at position [i] between the
    nearest valid entries: on the line through both, or the only one. *)
Definition fill_linear (prev next : option (nat * Q)) (i : nat) : cell :=
  match prev, next with
  | Some (p, a), Some (n, b) =>
      Some ((b - a) / (Qnat n - Qnat p) * (Qnat i - Qnat p) + a)%Q
  | Some (_, a), None => Some a
  | None, Some (_, b) => Some b
  | None, None => NaN
  end.

Fixpoint interpolate_from (prev : option (nat * Q)) (i : nat) (l : list cell)
  : list cell :=
  match l with
  | [] => []
  | Some v :: l' => Some v :: interpolate_from (Some (i, v)) (S i) l'
  | None :: l' =>
      fill_linear prev (next_valid (S i) l') i :: interpolate_from prev (S i) l'
  end.

(** [series.interpolate(method="linear", limit_direction="both")]: the
    entries are taken as equally spaced; only missing ones are written. *)
Definition interpolate_series (l : list cell) : list cell :=
  interpolate_from None 0 l.

Definition interpolate (f : NodeFrame) : NodeFrame :=
  {| nf_index := nf_index f;
     nf_columns := map (fun c => (c.1, interpolate_series c.2)) (nf_columns f) |}.

(** [np.searchsorted(x, v)] on an ascending [x]: the first position whose
    entry is not below [v]. *)
Fixpoint searchsorted (x : list Z) (v : Z) : nat :=
  match x with
  | [] => 0
  | a :: x' => if (a <? v)%Z then S (searchsorted x' v) else 0
  end.

(** [interp1d(x, y, kind="linear", fill_value="extrapolate")(x_new)]: the
    line through the two points around [x_new], the first two or last two
    points outside the range. *)
Definition interp1d_call (pts : list (Z * Q)) (x_new : Z) : cell :=
  let hi := Nat.min (Nat.max (searchsorted (map fst pts) x_new) 1) (length pts - 1) in
  let lo := hi - 1 in
  match pts !! lo, pts !! hi with
  | Some (x_lo, y_lo), Some (x_hi, y_hi) =>
      Some ((y_hi - y_lo) / (inject_Z x_hi - inject_Z x_lo)
            * (inject_Z x_new - inject_Z x_lo) + y_lo)%Q
  | _, _ => NaN
  end.

(** The line of [interp1d] as the code evaluates it, in doubles:
    [slope = (y_hi - y_lo) / (x_hi - x_lo)] and
    [y_new = slope * (x_new - x_lo) + y_lo]. *)
Definition interp1d_line_binary64 (x_lo y_lo x_hi y_hi x_new : float) : float :=
  ((y_hi - y_lo) / (x_hi - x_lo) * (x_new - x_lo) + y_lo)%float.

(** The valid points of a series: [x] and [y] of the interpolant. *)
Definition valid_points (index : list Z) (series : list cell) : list (Z * Q) :=
  omap (fun nc : Z * cell => v ← nc.2; Some (nc.1, v)) (zip index series).

(** What [interp1d] does with a single point: the releases of scipy
    before 1.10 refuse it ("x and y arrays must have at least 2
    entries"), the later ones accept it and evaluate the line through the
    point and itself, whose slope is 0/0: every value is NaN. *)
Inductive interp1d_policy := Interp1dTwoPoints | Interp1dOnePoint.

(** [interp_linear_with_extrap]: the interpolant of the valid points of
    the series, evaluated on the whole index.  [interp1d] refuses no
    point at all, and a single one by the release. *)
Definition interp_linear_with_extrap (scipy : interp1d_policy) (index : list Z)
    (series : list cell) : result (list cell) :=
  let pts := valid_points index series in
  match length pts, scipy with
  | 0, _ => Raise ValueError
  | 1, Interp1dTwoPoints => Raise ValueError
  | 1, Interp1dOnePoint => Ok (map (fun _ => NaN) index)
  | _, _ => Ok (map (interp1d_call pts) index)
  end.

(** [by_node_idx.apply(interp_linear_with_extrap)] *)
Definition apply_extrap (scipy : interp1d_policy) (f : NodeFrame) : result NodeFrame :=
  cols ← mapM (fun c : SeriesKey * list cell =>
                 s ← interp_linear_with_extrap scipy (nf_index f) c.2; Ok (c.1, s))
              (nf_columns f);
  Ok {| nf_index := nf_index f; nf_columns := cols |}.

(** ** From nodes to features: [stack] and [unstack] *)

(** (nodeID, subjectID, tractID, metric): the index of the stacked series. *)
Abbreviation StackKey := (Z * string * string * string)%type.

(** [interpolated.stack(["subjectID", "tractID", "metric"])]: one entry
    per valid cell; missing cells are dropped. *)
Definition stack (f : NodeFrame) : list (StackKey * Q) :=
  flat_map (fun c : SeriesKey * list cell =>
              omap (fun nv : Z * cell =>
                      v ← nv.2; Some ((nv.1, c.1.2, c.1.1.2, c.1.1.1), v))
                   (zip (nf_index f) c.2))
           (nf_columns f).

(** A frame with one row per subject and one column per
    (metric, tractID, nodeID). *)
Record FeatureFrame := {
  ff_index : list string;
  ff_columns : MultiIndex;
  ff_data : list (list cell)
}.

Definition stack_column (k : StackKey) : ColumnKey := (k.2, k.1.2, k.1.1.1).
Definition stack_subject (k : StackKey) : string := k.1.1.2.

(** [.unstack(["metric", "tractID", "nodeID"])]: the rows are the subjects
    of the series, the columns the combinations it holds.  The levels are
    those of the stacked index, which [stack] takes from the frame it
    stacks: the metrics and the tracts that head a column of the table by
    node, and its index. *)
Definition unstack (f : NodeFrame) (stacked : list (StackKey * Q)) : FeatureFrame :=
  let values : gmap StackKey Q := list_to_map stacked in
  let subjects := sort_unique String.le (map (fun kv => stack_subject kv.1) stacked) in
  let keys := sort_unique column_le (map (fun kv => stack_column kv.1) stacked) in
  {| ff_index := subjects;
     ff_columns :=
       {| levels_metric :=
            sort_unique String.le (map (fun c : SeriesKey * list cell => c.1.1.1)
                                       (nf_columns f));
          levels_tract :=
            sort_unique String.le (map (fun c : SeriesKey * list cell => c.1.1.2)
                                       (nf_columns f));
          levels_node := nf_index f;
          tuples := keys |};
     ff_data :=
       map (fun k : ColumnKey =>
              map (fun s => values !! (k.2, s, k.1.2, k.1.1)) subjects)
           keys |}.

(** [pd.MultiIndex.from_product]: each iterable is factorized into its
    level; the tuples are the product, the last component varying fastest. *)
Definition from_product (metrics tracts : list string) (nodes : list Z) : MultiIndex :=
  {| levels_metric := sort_unique String.le metrics;
     levels_tract := sort_unique String.le tracts;
     levels_node := sort_unique Z.le nodes;
     tuples :=
       flat_map (fun m => flat_map (fun t => map (fun n => (m, t, n)) nodes) tracts)
                metrics |}.

(** What [.loc] does with a listed label that the axis does not have: the
    releases of pandas before 1.0 return a missing column for it (with a
    warning), the later ones raise [KeyError]. *)
Inductive loc_policy := LocReindex | LocStrict.

(** The column of a frame under a key. *)
Definition ff_column (f : FeatureFrame) (k : ColumnKey) : option (list cell) :=
  snd <$> List.find (fun kc : ColumnKey * list cell => bool_decide (kc.1 = k))
                    (zip (tuples (ff_columns f)) (ff_data f)).

(** [features.loc[:, new_columns]].  Under both policies labels of which
    none is on the axis are an error. *)
Definition loc_columns (policy : loc_policy) (f : FeatureFrame)
    (new_columns : MultiIndex) : result FeatureFrame :=
  let keys := tuples new_columns in
  let found := map (ff_column f) keys in
  if forallb (fun c : option (list cell) => bool_decide (c = None)) found
     && negb (bool_decide (keys = []))
  then Raise KeyError
  else
    cols ← mapM (fun c : option (list cell) =>
                   match c, policy with
                   | Some col, _ => Ok col
                   | None, LocReindex => Ok (map (fun _ => NaN) (ff_index f))
                   | None, LocStrict => Raise KeyError
                   end)
                found;
    Ok {| ff_index := ff_index f; ff_columns := new_columns; ff_data := cols |}.

(** ** Median fill *)

Definition Qle_b (a b : Q) : Prop := Is_true (Qle_bool a b).
#[global] Instance Qle_b_dec : RelDecision Qle_b.
Proof. intros a b. unfold Qle_b. apply _. Defined.

(** The valid entries of a column. *)
Definition valid_values (col : list cell) : list Q := omap id col.

(** [column.median()]: missing entries are skipped; NaN when all are
    missing. *)
Definition median (col : list cell) : cell :=
  let vs := merge_sort Qle_b (valid_values col) in
  let n := length vs in
  if n =? 0 then NaN
  else if Nat.even n
       then a ← vs !! (n / 2 - 1); b ← vs !! (n / 2); Some ((a + b) / 2)%Q
       else vs !! (n / 2).

(** [features.fillna(features.median(), inplace=True)]: per column, the
    missing entries take the median of the column; a missing median
    fills nothing. *)
Definition fillna_median (f : FeatureFrame) : FeatureFrame :=
  {| ff_index := ff_index f;
     ff_columns := ff_columns f;
     ff_data :=
       map (fun col =>
              let m := median col in
              map (fun c : cell => match c with Some v => Some v | None => m end) col)
           (ff_data f) |}.

(** [features.values]: the rows of the frame. *)
Definition ff_values (f : FeatureFrame) : list (list cell) :=
  imap (fun i _ => map (fun col : list cell => default NaN (col !! i)) (ff_data f))
       (ff_index f).

(** ** The feature transformer *)

(** [np.hstack([a, np.ones((a.shape[0], 1))])] *)
Definition hstack_ones (rows : list (list cell)) : list (list cell) :=
  map (fun r => r ++ [Some 1%Q]) rows.

(** [AFQFeatureTransformer.transform]: the feature matrix, the groups, the
    columns and the index of the bias feature.  A table by node without
    any column (the data frame has no valid value) cannot be stacked:
    [ValueError].  The group codes are products and sums of positions in
    the levels; they are far below the range of a 64-bit integer for
    every frame that fits in memory. *)
Definition transform (policy : loc_policy) (scipy : interp1d_policy) (df : DataFrame)
    (extrapolate add_bias_feature : bool)
  : result (ndarray cell * list (list nat) * MultiIndex * option nat) :=
  let by_node_idx := pivot_table (melt df) in
  interpolated ← (if negb extrapolate then Ok (interpolate by_node_idx)
                  else apply_extrap scipy by_node_idx);
  if bool_decide (nf_columns interpolated = []) then Raise ValueError else
  let features := unstack interpolated (stack interpolated) in
  let new_columns :=
    from_product (levels_metric (ff_columns features))
                 (levels_tract (ff_columns features))
                 (levels_node (ff_columns features)) in
  features ← loc_columns policy features new_columns;
  let features := fillna_median features in
  let n_tracts := length (levels_tract (ff_columns features)) in
  let bundle_group_membership :=
    zip_with (fun cm ct => cm * n_tracts + ct)
             (codes_metric (ff_columns features))
             (codes_tract (ff_columns features)) in
  let groups :=
    map (fun gid => np_where (map (fun g => g =? gid) bundle_group_membership))
        (sort_unique le bundle_group_membership) in
  let values := ff_values features in
  let n := n_columns (ff_columns features) in
  if add_bias_feature then
    Ok (Mat (n + 1) (hstack_ones values), groups, ff_columns features, Some n)
  else
    Ok (Mat n values, groups, ff_columns features, None).

(** ** The removal policy as the specification words it

    "[remove_groups] drops a column if it fails to be a superset for at
    least one of the given labels": the disjunction of the mismatches is
    taken as the mask of the columns to drop. *)
Definition remove_groups_as_specified {A} (x : ndarray A)
    (remove_labels : list (list atom)) (label_sets : list (gset atom))
  : result (ndarray A) :=
  let drop :=
    fold_left (fun mask label =>
                 logical_or mask (logical_not (issubset label label_sets)))
              remove_labels (zeros_like label_sets) in
  let mask := logical_not drop in
  match x with
  | Mat n rows => getitem_cols_mask n rows mask
  | Vec v => getitem_mask v mask
  | _ => Raise ValueError
  end.

(** ** Stages and invariants of the transformer, named for the statements *)

(** The branch of [transform] on [extrapolate]. *)
Definition interpolation_stage (scipy : interp1d_policy) (extrapolate : bool)
    (by_node_idx : NodeFrame) : result NodeFrame :=
  if negb extrapolate then Ok (interpolate by_node_idx)
  else apply_extrap scipy by_node_idx.

(** The keys of the columns of a table by node. *)
Definition nf_keys (f : NodeFrame) : list SeriesKey := map fst (nf_columns f).

(** Every column runs along the whole index and has no missing entry. *)
Definition frame_full (f : NodeFrame) : Prop :=
  Forall (fun c : SeriesKey * list cell =>
            length c.2 = length (nf_index f) /\ Forall is_Some c.2)
         (nf_columns f).

(** No entry of the table is missing. *)
Definition frame_complete (f : NodeFrame) : Prop :=
  Forall (fun c : SeriesKey * list cell => Forall is_Some c.2) (nf_columns f).

(** [frame.loc[n, c]]: the cell of a table by node; NaN where the table
    has no such column or row. *)
Definition nf_cell (f : NodeFrame) (c : SeriesKey) (n : Z) : cell :=
  match List.find (fun kc : SeriesKey * list cell => bool_decide (kc.1 = c))
                  (nf_columns f) with
  | Some kc => default NaN (kc.2 !! index_of n (nf_index f))
  | None => NaN
  end.

(** No two records of the long-form table have the same key. *)
Definition unique_keys (long : list Obs) : Prop :=
  NoDup (map (fun o => (o_node o, obs_series o)) long).

(** The groups [transform] derives from the columns. *)
Definition group_index (columns : MultiIndex) : list (list nat) :=
  let n_tracts := length (levels_tract columns) in
  let bundle_group_membership :=
    zip_with (fun cm ct => cm * n_tracts + ct)
             (codes_metric columns) (codes_tract columns) in
  map (fun gid => np_where (map (fun g => g =? gid) bundle_group_membership))
      (sort_unique le bundle_group_membership).

(** What [transform] returns for the filled frame. *)
Definition assemble (add_bias_feature : bool) (features : FeatureFrame)
  : ndarray cell * list (list nat) * MultiIndex * option nat :=
  let n := n_columns (ff_columns features) in
  if add_bias_feature then
    (Mat (n + 1) (hstack_ones (ff_values features)),
     group_index (ff_columns features), ff_columns features, Some n)
  else
    (Mat n (ff_values features),
     group_index (ff_columns features), ff_columns features, None).

(** The frame of features before the columns are put in order. *)
Definition features_of (interpolated : NodeFrame) : FeatureFrame :=
  unstack interpolated (stack interpolated).

(** The product of the levels of a frame of features. *)
Definition product_columns (features : FeatureFrame) : MultiIndex :=
  from_product (levels_metric (ff_columns features))
               (levels_tract (ff_columns features))
               (levels_node (ff_columns features)).

(** ** Well-formed tables *)

Definition obs_valid (o : Obs) : Prop := is_Some (o_value o).

#[global] Instance obs_valid_dec o : Decision (obs_valid o).
Proof. unfold obs_valid. apply _. Defined.

(** The nodes at which a series has a valid value. *)
Definition valid_nodes (long : list Obs) (c : SeriesKey) : list Z :=
  remove_dups
    (map o_node
         (List.filter (fun o => bool_decide (obs_series o = c /\ obs_valid o)) long)).

(** Every series of the table has a valid value: at one node at least
    for the interior policy, at two for the extrapolation. *)
Definition well_formed (extrapolate : bool) (df : DataFrame) : Prop :=
  Forall (fun o => (if extrapolate then 2 else 1)
                   <= length (valid_nodes (melt df) (obs_series o)))
         (melt df).

#[global] Instance well_formed_dec extrapolate df : Decision (well_formed extrapolate df).
Proof. unfold well_formed. apply _. Defined.

(** The metrics and the tracts of a table that carry a valid value. *)
Definition valid_metrics (df : DataFrame) : list string :=
  remove_dups
    (map o_metric (List.filter (fun o => bool_decide (obs_valid o)) (melt df))).
Definition valid_tracts (df : DataFrame) : list string :=
  remove_dups
    (map o_tract (List.filter (fun o => bool_decide (obs_valid o)) (melt df))).

(** The distinct subjects, metrics and tracts of a table, its distinct
    nodes that carry a valid value, and its distinct column keys. *)
Definition distinct_subjects (df : DataFrame) : list string :=
  remove_dups (map o_subject (melt df)).
Definition distinct_metrics (df : DataFrame) : list string :=
  remove_dups (map o_metric (melt df)).
Definition distinct_tracts (df : DataFrame) : list string :=
  remove_dups (map o_tract (melt df)).
Definition distinct_valid_nodes (df : DataFrame) : list Z :=
  remove_dups
    (map o_node (List.filter (fun o => bool_decide (obs_valid o)) (melt df))).


(** The valid values of the table are doubles of moderate magnitude, at
    most 2^900: no sum, difference, product or quotient that the
    transformer forms of them (over fewer than 2^100 rows and node
    numbers of 64 bits) leaves the range of the doubles, so that none is
    infinite or NaN. *)
Definition cell_moderate (c : cell) : Prop :=
  match c with
  | Some v => Qle_b (Qabs v) (inject_Z (2 ^ 900))
  | None => True
  end.

#[global] Instance cell_moderate_dec c : Decision (cell_moderate c).
Proof. destruct c; simpl; apply _. Defined.

Definition moderate (df : DataFrame) : Prop :=
  Forall (fun o => cell_moderate (o_value o)) (melt df).

#[global] Instance moderate_dec df : Decision (moderate df).
Proof. unfold moderate. apply _. Defined.

(** Every series that has a valid value has enough of them for the
    policy: one for the interior policy (which always holds), two for
    the extrapolation. *)
Definition series_interpolable (extrapolate : bool) (df : DataFrame) : Prop :=
  Forall (fun o => obs_valid o ->
                   (if extrapolate then 2 else 1)
                   <= length (valid_nodes (melt df) (obs_series o)))
         (melt df).

#[global] Instance series_interpolable_dec extrapolate df :
  Decision (series_interpolable extrapolate df).
Proof. unfold series_interpolable. apply _. Defined.

(** ** A small generator to run [shuffle_group]

    A linear congruential state and the Fisher-Yates shuffle drawn from
    it: a stand-in for the Mersenne Twister of [np.random], which the
    statements about [shuffle_group] do not depend on. *)

Definition lcg_next (g : Z) : Z := ((1103515245 * g + 12345) mod 2147483648)%Z.

Fixpoint fisher_yates {A} (i : nat) (l : list A) (g : Z) : list A * Z :=
  match i with
  | 0 => (l, g)
  | S i' =>
      let g' := lcg_next g in
      let j := Z.to_nat (g' mod Z.of_nat (S i)) in
      match l !! i, l !! j with
      | Some a, Some b => fisher_yates i' (<[i := b]> (<[j := a]> l)) g'
      | _, _ => fisher_yates i' l g'
      end
  end.

Definition lcg_random : RandomState :=
  {| rng := Z;
     rng_seed := fun s =>
       if decide (0 <= s < 4294967296)%Z then Some (s mod 2147483648)%Z else None;
     rng_shuffle := fun A l g => fisher_yates (length l - 1) l g |}.

(** ** Notions the statements are written with *)

(** The label sets [beta_hat_by_groups] matches against. *)
Definition plain_sets (columns : MultiIndex) : list (gset atom) :=
  map (fun k : ColumnKey => {[ LStr k.1.1; LStr k.1.2; LInt k.2 ]}) (tuples columns).

(** The coefficients of the columns that match a label. *)
Definition coefficients_of (beta : list cell) (columns : MultiIndex)
    (label : list atom) : list cell :=
  compress (issubset label (plain_sets columns)) beta.

(** Every coefficient is exactly zero. *)
Definition all_zero (v : list cell) : Prop := Forall (fun c => cell_nonzero c = false) v.

(** One round of the loop of [beta_hat_by_groups] over the metrics, and
    of its loop over the tracts, when zeros are dropped and nothing
    raises. *)
Definition metric_step (beta : list cell) (columns : MultiIndex) (tract : string)
    (inner : OrderedDict (ndarray cell)) (metric : string)
  : OrderedDict (ndarray cell) :=
  let x := coefficients_of beta columns [LStr tract; LStr metric] in
  if existsb cell_nonzero x then od_set inner metric (Vec x) else inner.

Definition inner_dict (beta : list cell) (columns : MultiIndex) (tract : string)
  : OrderedDict (ndarray cell) :=
  foldl (metric_step beta columns tract) [] (levels_metric columns).

Definition tract_step (beta : list cell) (columns : MultiIndex)
    (betas : OrderedDict (OrderedDict (ndarray cell))) (tract : string)
  : OrderedDict (OrderedDict (ndarray cell)) :=
  if existsb cell_nonzero (coefficients_of beta columns [LStr tract])
  then od_set betas tract (inner_dict beta columns tract) else betas.

(** [g0, ..., g0, g0 + 1, ...]: [count] codes from [g0] on, each [n] times. *)
Definition blocks (n g0 count : nat) : list nat :=
  flat_map (fun g => replicate n g) (seq g0 count).

(** The column [unstack] gives a key. *)
Definition unstacked_column (f : NodeFrame) (k : ColumnKey) : list cell :=
  map (fun s => (list_to_map (stack f) : gmap StackKey Q) !! (k.2, s, k.1.2, k.1.1))
      (ff_index (features_of f)).

(** The column [.loc] returns for a key when it reindexes. *)
Definition reindexed_column (F : FeatureFrame) (k : ColumnKey) : list cell :=
  match ff_column F k with
  | Some col => col
  | None => map (fun _ => NaN) (ff_index F)
  end.

(** ** Data to run the definitions on *)

Definition x_demo : ndarray nat := Mat 3 [[10; 20; 30]; [11; 21; 31]].

Definition sets_demo : list (gset atom) :=
  [ {[LStr "FA"; LStr "Left Cingulum"; LInt 0]};
    {[LStr "FA"; LStr "Right Cingulum"; LInt 0]};
    {[LStr "MD"; LStr "Left Cingulum"; LInt 0]} ].

Definition columns_demo : MultiIndex :=
  {| levels_metric := ["FA"; "MD"];
     levels_tract := ["Left Cingulum"; "Right Cingulum"];
     levels_node := [5%Z];
     tuples := [("FA", "Left Cingulum", 5%Z); ("FA", "Right Cingulum", 5%Z);
                ("MD", "Left Cingulum", 5%Z); ("MD", "Right Cingulum", 5%Z)] |}.

Definition columns_cst : MultiIndex :=
  {| levels_metric := ["FA"; "MD"];
     levels_tract := ["CST_L"; "CST_R"];
     levels_node := [0%Z; 1%Z];
     tuples := [("FA", "CST_L", 0%Z); ("FA", "CST_L", 1%Z);
                ("FA", "CST_R", 0%Z); ("FA", "CST_R", 1%Z);
                ("MD", "CST_L", 0%Z); ("MD", "CST_L", 1%Z);
                ("MD", "CST_R", 0%Z); ("MD", "CST_R", 1%Z)] |}.

Definition beta_cst : list cell :=
  [Some 0%Q; Some 0%Q; Some (3 # 2)%Q; Some 0%Q;
   Some 0%Q; Some 0%Q; Some 0%Q; Some 0%Q].

Definition num (z : Z) : cell := Some (inject_Z z).

Definition row2 (s t : string) (n : Z) (fa md : cell) : Row :=
  {| subjectID := s; tractID := t; nodeID := n; metric_values := [fa; md] |}.

Definition row1 (s t : string) (n : Z) (fa : cell) : Row :=
  {| subjectID := s; tractID := t; nodeID := n; metric_values := [fa] |}.

(** Two subjects, two tracts, three nodes, two metrics, nothing missing. *)
Definition df_round_trip : DataFrame :=
  {| metric_columns := ["FA"; "MD"];
     df_rows :=
       [ row2 "s1" "A" 0 (num 1) (num 2); row2 "s1" "A" 1 (num 3) (num 4);
         row2 "s1" "A" 2 (num 5) (num 6);
         row2 "s1" "B" 0 (num 7) (num 8); row2 "s1" "B" 1 (num 9) (num 10);
         row2 "s1" "B" 2 (num 11) (num 12);
         row2 "s2" "A" 0 (num 13) (num 14); row2 "s2" "A" 1 (num 15) (num 16);
         row2 "s2" "A" 2 (num 17) (num 18);
         row2 "s2" "B" 0 (num 19) (num 20); row2 "s2" "B" 1 (num 21) (num 22);
         row2 "s2" "B" 2 (num 23) (num 24) ] |}.


(** Node 1 of tract A has no valid value for any subject. *)
Definition df_gap : DataFrame :=
  {| metric_columns := ["FA"];
     df_rows :=
       [ row1 "s1" "A" 0 (num 1); row1 "s1" "A" 1 NaN; row1 "s1" "A" 2 (num 5);
         row1 "s1" "B" 0 (num 2); row1 "s1" "B" 1 (num 3); row1 "s1" "B" 2 (num 4) ] |}.



(** One node only. *)
Definition df_single : DataFrame :=
  {| metric_columns := ["FA"]; df_rows := [ row1 "s1" "A" 0 (num 1) ] |}.

(** The seeds [shuffle_group] can be called with: none, or one the
    generator takes. *)
Definition seed_accepted `{RandomState} (random_seed : option Z) : Prop :=
  match random_seed with
  | Some s => is_Some (rng_seed s)
  | None => True
  end.

(** ** The extractors *)

(** A parameter that is one integer or a sequence of integers. *)
Inductive int_or_seq :=
| OneInt (z : Z)
| IntSeq (l : list Z).

(** [isiterable]: [iter(obj)] raises [TypeError] on an integer. *)
Definition isiterable (obj : int_or_seq) : bool :=
  match obj with
  | OneInt _ => false
  | IntSeq _ => true
  end.

(** [np.array(obj)] of a sequence and [np.array([obj])] of one integer,
    as [GroupExtractor.transform] chooses between them by [isiterable]. *)
Definition np_array (obj : int_or_seq) : list Z :=
  match obj with
  | IntSeq l => l
  | OneInt z => [z]
  end.

(** [np.isin(element, test_elements)], and the comprehension
    [[item in extract for item in groups]] that stands in for it. *)
Definition np_isin (element test_elements : list Z) : list bool :=
  map (fun item => bool_decide (item ∈ test_elements)) element.

(** [x[:, mask]] on an array of any rank: the second axis is indexed; an
    array of rank below two has too many indices. *)
Definition getitem_axis1_mask {A} (x : ndarray A) (mask : list bool)
  : result (ndarray A) :=
  match x with
  | Mat n rows => getitem_cols_mask n rows mask
  | Tensor (d0 :: d1 :: rest) data =>
      if length mask =? d1 then
        Ok (Tensor (d0 :: length (np_where mask) :: rest)
              (concat (compress (concat (replicate d0 mask))
                                (chunks (d0 * d1) (product rest) data))))
      else Raise IndexError
  | _ => Raise IndexError
  end.

Module GroupExtractor.

Record t := {
  extract : option int_or_seq;
  groups : option int_or_seq
}.

Definition transform {A} (self : t) (x : ndarray A) : result (ndarray A) :=
  match groups self, extract self with
  | Some gs, Some ex =>
      let extract := np_array ex in
      let groups := np_array gs in
      let mask := np_isin groups extract in
      getitem_axis1_mask x mask
  | _, _ => Ok x
  end.

Definition fit (self : t) : t := self.

End GroupExtractor.

(** [l[:n]]: the first [n] entries; for a negative [n], all but the last
    [-n]. *)
Definition slice_to {A} (n : Z) (l : list A) : list A :=
  if (0 <=? n)%Z then firstn (Z.to_nat n) l
  else firstn (length l - Z.to_nat (- n)) l.

Module TopNGroupsExtractor.

Record t := {
  top_n : Z;
  labels_by_importance : option (list (list atom));
  all_labels : option (list (gset atom))
}.

Definition transform {A} (self : t) (x : ndarray A) : result (ndarray A) :=
  match labels_by_importance self, all_labels self with
  | Some labels, Some label_sets =>
      select_groups x (slice_to (top_n self) labels) label_sets
  | _, _ => Ok x
  end.

Definition fit (self : t) : t := self.

End TopNGroupsExtractor.

(** ** Dictionaries of the columns *)

(** [columns.names] *)
Definition names (columns : MultiIndex) : list string :=
  ["metric"; "tractID"; "nodeID"].

(** [dict(items)]: a later item replaces an earlier one of its key. *)
Definition dict {V} (items : list (string * V)) : gmap string V :=
  foldl (fun d kv => <[kv.1 := kv.2]> d) ∅ items.

(** [multicol2dicts].  As in [multicol2sets], the extended tuples go
    through [np.array] and come out as strings. *)
Definition multicol2dicts (columns : MultiIndex) (tract_symmetry : bool)
  : result (list (gmap string atom)) :=
  let col_vals := to_numpy columns in
  let col_names := names columns in
  if tract_symmetry then
    let sym := bilateral_symmetry columns in
    col_vals' ← mapM (fun '(metric, tract, node) =>
                        s ← dict_getitem sym tract;
                        Ok [LStr metric; LStr tract; LStr (pretty node); LStr s])
                     col_vals;
    let col_names := col_names ++ ["symmetrized_tractID"] in
    Ok (map (fun vals => dict (zip col_names vals)) col_vals')
  else
    Ok (map (fun '(metric, tract, node) =>
               dict (zip col_names [LStr metric; LStr tract; LInt node]))
            col_vals).

(** ** Features by importance *)

(** What [sort_features] needs of its scores: [np.abs] on a score, and
    the order of the keys it returns, which is total on numbers. *)
Class Score (T : Type) := {
  np_abs : T -> T;
  key_le : T -> T -> bool;
  key_le_total (a b : T) : key_le a b = true \/ key_le b a = true;
  key_le_trans (a b c : T) : key_le a b = true -> key_le b c = true -> key_le a c = true
}.

(** Scores that are floats (numbers: with a NaN the keys are not
    ordered): [np.abs] is the magnitude. *)
#[global] Instance float_score : Score Q.
Proof.
  refine {| np_abs := Qabs; key_le := Qle_bool |}.
  - intros a b. destruct (Qlt_le_dec a b) as [Hlt|Hle].
    + left. by apply Qle_bool_iff, Qlt_le_weak.
    + right. by apply Qle_bool_iff.
  - intros a b c. rewrite !Qle_bool_iff. apply Qle_trans.
Defined.

(** A 64-bit integer of numpy: an integer from -2^63 to 2^63 - 1. *)
Definition int64 : Type := { z : Z | bool_decide (- 2 ^ 63 <= z < 2 ^ 63)%Z }.

(** The 64-bit integer that the low 64 bits of an integer stand for, in
    two's complement. *)
Definition wrap64 (z : Z) : Z := ((z + 2 ^ 63) mod 2 ^ 64 - 2 ^ 63)%Z.

Definition to_int64 (z : Z) : int64.
Proof.
  refine (wrap64 z ↾ _). apply bool_decide_pack. unfold wrap64.
  pose proof (Z.mod_pos_bound (z + 2 ^ 63) (2 ^ 64)). lia.
Defined.

(** Scores that are 64-bit integers (Python integers in that range
    become such): [np.abs] negates a negative score in 64 bits, which
    gives the magnitude but for the least integer, -2^63, whose negation
    wraps around to itself. *)
#[global] Instance int64_score : Score int64.
Proof.
  refine {| np_abs := fun z => to_int64 (Z.abs (`z));
            key_le := fun a b => (`a <=? `b)%Z |}.
  - intros a b. rewrite !Z.leb_le. lia.
  - intros a b c. rewrite !Z.leb_le. lia.
Defined.

(** The place of an item among items already in order: before the first
    one whose key is not larger. *)
Fixpoint insert_by_score {T} `{!Score T} {F} (x : F * T) (l : list (F * T))
  : list (F * T) :=
  match l with
  | [] => [x]
  | y :: l' =>
      if key_le (np_abs y.2) (np_abs x.2) then x :: l
      else y :: insert_by_score x l'
  end.

(** [sorted(items, key=lambda s: np.abs(s[1]), reverse=True)]: the items
    by decreasing key, those of equal keys in the order they came in
    (the sort is stable, also when reversed). *)
Definition sorted_by_score {T} `{!Score T} {F} (items : list (F * T)) : list (F * T) :=
  foldr insert_by_score [] items.

Definition sort_features {T} `{!Score T} {F} (features : list F) (scores : list T)
  : list (F * T) :=
  sorted_by_score (zip features scores).

(** ** Coefficients unfolded by metric *)

(** [d[k]] on an ordered dictionary. *)
Definition od_getitem {V} (d : OrderedDict V) (k : string) : result V :=
  match od_get d k with
  | Some v => Ok v
  | None => Raise KeyError
  end.

(** Two arrays joined along the first axis: they have the same rank, one
    at least, and agree on the other axes. *)
Definition concatenate2 {A} (a b : ndarray A) : result (ndarray A) :=
  match a, b with
  | Vec v, Vec w => Ok (Vec (v ++ w))
  | Mat n r, Mat m s => if n =? m then Ok (Mat n (r ++ s)) else Raise ValueError
  | Tensor (d :: sh) x, Tensor (e :: sh') y =>
      if bool_decide (sh = sh') then Ok (Tensor (d + e :: sh) (x ++ y))
      else Raise ValueError
  | _, _ => Raise ValueError
  end.

(** [np.concatenate(arrays)]: at least one array is needed. *)
Definition np_concatenate {A} (arrays : list (ndarray A)) : result (ndarray A) :=
  match arrays with
  | [] => Raise ValueError
  | Scalar _ :: _ => Raise ValueError
  | a :: rest =>
      foldl (fun (acc : result (ndarray A)) b => a' ← acc; concatenate2 a' b)
            (Ok a) rest
  end.

(** [unfold_beta_hat_by_metrics].  The tract names default to
    [utils.canonical_tract_names], a list of the module that the
    function is given here.  The list [betas[metric]] the loop appends
    to sits where the joined array then goes. *)
Definition unfold_beta_hat_by_metrics (canonical_tract_names : list string)
    (beta_hat : ndarray cell) (columns : MultiIndex)
    (tract_names : option (list string))
  : result (OrderedDict (ndarray cell)) :=
  betas_by_groups ← beta_hat_by_groups beta_hat columns false;
  let tracts :=
    match tract_names with
    | Some given => given
    | None => canonical_tract_names
    end in
  foldl (fun (acc : result (OrderedDict (ndarray cell))) metric =>
           betas ← acc;
           parts ← mapM (fun tract =>
                           by_metric ← od_getitem betas_by_groups tract;
                           od_getitem by_metric metric)
                        tracts;
           unfolded ← np_concatenate parts;
           Ok (od_set betas metric unfolded))
        (Ok ([] : OrderedDict (ndarray cell)))
        (levels_metric columns).

(** * Properties *)


(** ** Masks and positions *)

Section Masks.
Context {A : Type}.
Implicit Types (mask : list bool) (l : list A).

Lemma where_from_elem mask i j :
  j ∈ where_from i mask <-> i <= j /\ mask !! (j - i) = Some true.
Proof.
  revert i. induction mask as [|b mask IH]; intros i; simpl.
  - rewrite elem_of_nil. split; [done|]. intros [_ Hm]. by rewrite lookup_nil in Hm.
  - destruct b; rewrite ?elem_of_cons, IH.
    + split.
      * intros [-> | [Hle Hm]].
        { split; [lia|]. by replace (i - i) with 0 by lia. }
        split; [lia|]. replace (j - i) with (S (j - S i)) by lia. done.
      * intros [Hle Hm]. destruct (decide (j = i)) as [->|]; [by left|right].
        split; [lia|]. replace (j - i) with (S (j - S i)) in Hm by lia. done.
    + split.
      * intros [Hle Hm]. split; [lia|].
        replace (j - i) with (S (j - S i)) by lia. done.
      * intros [Hle Hm]. destruct (decide (j = i)) as [->|].
        { replace (i - i) with 0 in Hm by lia. done. }
        split; [lia|]. replace (j - i) with (S (j - S i)) in Hm by lia. done.
Qed.

Lemma np_where_elem mask j : j ∈ np_where mask <-> mask !! j = Some true.
Proof.
  unfold np_where. rewrite where_from_elem, Nat.sub_0_r. split; [by intros [_ ?]|]. split; [lia|done].
Qed.

Lemma where_from_sorted mask i : StronglySorted lt (where_from i mask).
Proof.
  revert i. induction mask as [|b mask IH]; intros i; simpl; [constructor|].
  destruct b; [|apply IH]. constructor; [apply IH|].
  apply Forall_forall. intros j Hj. apply where_from_elem in Hj. lia.
Qed.

Lemma np_where_sorted mask : StronglySorted lt (np_where mask).
Proof. apply where_from_sorted. Qed.

Lemma where_from_complement mask i :
  where_from i mask ++ where_from i (logical_not mask) ≡ₚ seq i (length mask).
Proof.
  revert i. induction mask as [|b mask IH]; intros i; simpl; [done|].
  destruct b; simpl.
  - by rewrite IH.
  - rewrite <-Permutation_middle. by rewrite IH.
Qed.

Lemma compress_take_from pre mask l :
  length mask = length l ->
  compress mask l = take (where_from (length pre) mask) (pre ++ l).
Proof.
  revert pre l. induction mask as [|b mask IH]; intros pre [|a l] Hlen;
    simplify_eq/=; [done|].
  specialize (IH (pre ++ [a]) l ltac:(lia)).
  rewrite length_app, Nat.add_1_r, <-(assoc_L (++)) in IH. simpl in IH.
  destruct b; unfold take in *; simpl; [|done].
  rewrite lookup_app_r, Nat.sub_diag by lia. simpl. by f_equal.
Qed.

Lemma compress_take mask l :
  length mask = length l -> compress mask l = take (np_where mask) l.
Proof. intros Hlen. apply (compress_take_from [] mask l Hlen). Qed.

Lemma compress_zeros {B} (ls : list B) l : compress (zeros_like ls) l = [].
Proof.
  revert l. induction ls as [|s ls IH]; intros [|a l]; simpl; auto.
Qed.
End Masks.

Lemma np_where_zeros {B} (ls : list B) : np_where (zeros_like ls) = [].
Proof.
  unfold np_where. generalize 0. induction ls as [|s ls IH]; intros i; simpl; auto.
Qed.

Lemma length_issubset label label_sets : length (issubset label label_sets) = length label_sets.
Proof. unfold issubset. by rewrite length_map. Qed.

Lemma length_logical_not m : length (logical_not m) = length m.
Proof. unfold logical_not. by rewrite length_map. Qed.

(** Indexing by a mask as long as the array keeps the columns at its positions. *)
Lemma getitem_by_mask {A} (x : ndarray A) (mask : list bool) :
  ndarray_wf x -> width x = Some (length mask) ->
  match x with
  | Mat n rows => getitem_cols_mask n rows mask
  | Vec v => getitem_mask v mask
  | _ => Raise ValueError
  end = Ok (take_columns (np_where mask) x).
Proof.
  intros Hwf Hw. destruct x as [a|v|n rows|shape data]; simpl in *; try done.
  - injection Hw as Hw. unfold getitem_mask. rewrite Hw, Nat.eqb_refl.
    by rewrite compress_take.
  - injection Hw as ->. unfold getitem_cols_mask. rewrite Nat.eqb_refl.
    do 2 f_equal. apply map_ext_in. intros r Hr.
    apply compress_take. rewrite Forall_forall in Hwf.
    symmetry. apply Hwf. by apply list_elem_of_In.
Qed.

(** ** Selecting and removing groups *)


(** The mask [remove_groups] builds holds where some label is not matched. *)
Lemma remove_groups_fold (Ls : list (list atom)) (label_sets : list (gset atom))
    (f : gset atom -> bool) :
  fold_left (fun mask label =>
               logical_or mask (logical_not (issubset label label_sets)))
            Ls (map f label_sets)
  = map (fun s => f s || existsb (fun L => negb (bool_decide (matches L s))) Ls)
        label_sets.
Proof.
  revert f. induction Ls as [|L Ls IH]; intros f; simpl.
  - apply map_ext. intros s. by rewrite orb_false_r.
  - unfold logical_or, logical_not, issubset at 2.
    rewrite map_map.
    rewrite zip_with_fmap_l, zip_with_fmap_r, zip_with_diag.
    change (fold_left _ Ls ?m) with
      (fold_left (fun mask label =>
         logical_or mask (logical_not (issubset label label_sets))) Ls m).
    rewrite (IH (fun s => f s || negb (bool_decide (matches L s)))).
    apply map_ext. intros s. by rewrite orb_assoc.
Qed.

Lemma remove_groups_mask (Ls : list (list atom)) (label_sets : list (gset atom)) :
  fold_left (fun mask label =>
               logical_or mask (logical_not (issubset label label_sets)))
            Ls (zeros_like label_sets)
  = map (fun s => existsb (fun L => negb (bool_decide (matches L s))) Ls) label_sets.
Proof. unfold zeros_like. by rewrite remove_groups_fold. Qed.

(** Claim C7.  For every array [x] of rank one or two, every label and
    every parallel array of label sets, [select_group] and [remove_group]
    split the columns of [x]: each returns the columns of [x] at a list
    of positions, no position is in both lists, and the two lists
    together are the positions of all the columns, each once. *)
Theorem select_remove_complement {A} (x : ndarray A) (L : list atom)
    (label_sets : list (gset atom)) :
  ndarray_wf x ->
  width x = Some (length label_sets) ->
  exists selected removed : list nat,
    select_group x L label_sets = Ok (take_columns selected x) /\
    remove_group x L label_sets = Ok (take_columns removed x) /\
    (forall i, i ∈ selected -> i ∉ removed) /\
    selected ++ removed ≡ₚ seq 0 (length label_sets).
Proof.
  intros Hwf Hw.
  exists (np_where (issubset L label_sets)),
         (np_where (logical_not (issubset L label_sets))).
  split; [|split; [|split]].
  - unfold select_group. apply getitem_by_mask; [done|].
    by rewrite length_issubset.
  - unfold remove_group. apply getitem_by_mask; [done|].
    by rewrite length_logical_not, length_issubset.
  - intros i Hs Hr. apply np_where_elem in Hs. apply np_where_elem in Hr.
    unfold logical_not in Hr. rewrite list_lookup_fmap, Hs in Hr. done.
  - unfold np_where. rewrite where_from_complement. by rewrite length_issubset.
Qed.

Lemma select_remove_complement_witness :
  exists selected removed : list nat,
    select_group x_demo [LStr "FA"] sets_demo = Ok (take_columns selected x_demo) /\
    remove_group x_demo [LStr "FA"] sets_demo = Ok (take_columns removed x_demo) /\
    (forall i, i ∈ selected -> i ∉ removed) /\
    selected ++ removed ≡ₚ seq 0 (length sets_demo).
Proof.
  apply (select_remove_complement x_demo [LStr "FA"] sets_demo).
  - simpl. repeat constructor.
  - reflexivity.
Defined.

(** The columns [remove_groups] keeps are those that miss at least one of
    the labels. *)
Lemma remove_groups_kept {A} (x : ndarray A) (Ls : list (list atom))
    (label_sets : list (gset atom)) :
  ndarray_wf x ->
  width x = Some (length label_sets) ->
  remove_groups x Ls label_sets
  = Ok (take_columns
          (np_where (map (fun s => existsb (fun L => negb (bool_decide (matches L s))) Ls)
                         label_sets)) x).
Proof.
  intros Hwf Hw. unfold remove_groups. rewrite remove_groups_mask.
  apply getitem_by_mask; [done|]. by rewrite length_map.
Qed.

(** Claim C1, as amended.  The mask [remove_groups] builds is the mask of
    the columns it keeps.  For every array [x] of rank one or two, every
    non-empty list of labels and every parallel array of label sets,
    [remove_groups] returns the columns of [x] at an ascending list of
    positions (the original order); a column whose label set is a
    superset of every label of the list is dropped, a column whose label
    set is a superset of none of them is kept; with a single label the
    result is that of [remove_group]. *)
Theorem remove_groups_keeps_unmatched {A} (x : ndarray A) (Ls : list (list atom))
    (label_sets : list (gset atom)) :
  ndarray_wf x ->
  width x = Some (length label_sets) ->
  Ls <> [] ->
  exists kept : list nat,
    remove_groups x Ls label_sets = Ok (take_columns kept x) /\
    StronglySorted lt kept /\
    (forall i, i ∈ kept -> i < length label_sets) /\
    (forall i s, label_sets !! i = Some s ->
                 Forall (fun L => matches L s) Ls -> i ∉ kept) /\
    (forall i s, label_sets !! i = Some s ->
                 Forall (fun L => ~ matches L s) Ls -> i ∈ kept) /\
    (forall L, Ls = [L] ->
               remove_groups x Ls label_sets = remove_group x L label_sets).
Proof.
  intros Hwf Hw Hne.
  set (mask := map (fun s => existsb (fun L => negb (bool_decide (matches L s))) Ls)
                   label_sets).
  exists (np_where mask). repeat split.
  - by apply remove_groups_kept.
  - apply np_where_sorted.
  - intros i Hi. apply np_where_elem in Hi. apply lookup_lt_Some in Hi.
    unfold mask in Hi. by rewrite length_map in Hi.
  - intros i s Hs Hall Hi. apply np_where_elem in Hi.
    unfold mask in Hi. rewrite list_lookup_fmap, Hs in Hi. simpl in Hi.
    injection Hi as Hi. apply existsb_exists in Hi as (L & HL & Hm).
    rewrite Forall_forall in Hall. apply list_elem_of_In, Hall in HL.
    apply negb_true_iff, bool_decide_eq_false in Hm. done.
  - intros i s Hs Hnone. apply np_where_elem.
    unfold mask. rewrite list_lookup_fmap, Hs. simpl. f_equal.
    destruct Ls as [|L Ls']; [done|].
    apply Forall_cons in Hnone as [HL _]. simpl.
    apply orb_true_iff. left. apply negb_true_iff. by apply bool_decide_eq_false.
  - intros L ->. unfold remove_groups, remove_group. simpl.
    unfold zeros_like, logical_or, logical_not, issubset.
    rewrite map_map.
    change (zip_with orb ((fun _ => false) <$> label_sets)
              ((fun s => negb (bool_decide (matches L s))) <$> label_sets)) with
      (zip_with orb ((fun _ : gset atom => false) <$> label_sets)
              ((fun s => negb (bool_decide (matches L s))) <$> label_sets)).
    by rewrite zip_with_fmap_l, zip_with_fmap_r, zip_with_diag.
Qed.

Lemma remove_groups_keeps_unmatched_witness :
  exists kept : list nat,
    remove_groups x_demo [[LStr "FA"]; [LStr "Left Cingulum"]] sets_demo
      = Ok (take_columns kept x_demo) /\
    StronglySorted lt kept /\
    (forall i, i ∈ kept -> i < length sets_demo) /\
    (forall i s, sets_demo !! i = Some s ->
                 Forall (fun L => matches L s) [[LStr "FA"]; [LStr "Left Cingulum"]] ->
                 i ∉ kept) /\
    (forall i s, sets_demo !! i = Some s ->
                 Forall (fun L => ~ matches L s) [[LStr "FA"]; [LStr "Left Cingulum"]] ->
                 i ∈ kept) /\
    (forall L, [[LStr "FA"]; [LStr "Left Cingulum"]] = [L] ->
               remove_groups x_demo [[LStr "FA"]; [LStr "Left Cingulum"]] sets_demo
               = remove_group x_demo L sets_demo).
Proof.
  apply (remove_groups_keeps_unmatched x_demo
           [[LStr "FA"]; [LStr "Left Cingulum"]] sets_demo).
  - simpl. repeat constructor.
  - reflexivity.
  - discriminate.
Defined.

(** C1, the claim as worded fails: with the single label FA the code
    removes the two FA columns and keeps the MD column, where the worded
    policy drops the MD column and keeps the FA columns. *)
Lemma remove_groups_not_as_specified :
  remove_groups x_demo [[LStr "FA"]] sets_demo = Ok (Mat 1 [[30]; [31]]) /\
  remove_groups_as_specified x_demo [[LStr "FA"]] sets_demo
    = Ok (Mat 2 [[10; 20]; [11; 21]]) /\
  remove_groups x_demo [[LStr "FA"]] sets_demo
    <> remove_groups_as_specified x_demo [[LStr "FA"]] sets_demo.
Proof. vm_compute. repeat split; discriminate. Qed.

(** Claim C10.  For every array [x] of rank one or two and every parallel
    array of label sets, [remove_groups] with an empty list of labels
    returns the array without any column (the columns at no position);
    when [x] has a column the result is not [x]. *)
Theorem remove_groups_no_labels {A} (x : ndarray A) (label_sets : list (gset atom)) :
  width x = Some (length label_sets) ->
  remove_groups x [] label_sets = Ok (take_columns [] x) /\
  width (take_columns [] x) = Some 0 /\
  (0 < length label_sets -> remove_groups x [] label_sets <> Ok x).
Proof.
  intros Hw. unfold remove_groups. simpl.
  destruct x as [a|v|n rows|shape data]; simpl in *; try done.
  - injection Hw as Hw. unfold getitem_mask, zeros_like.
    rewrite length_map, Hw, Nat.eqb_refl.
    change (map (fun _ => false) label_sets) with (zeros_like label_sets).
    rewrite compress_zeros. repeat split.
    intros Hpos Heq. injection Heq as <-. simpl in Hw. lia.
  - injection Hw as ->. unfold getitem_cols_mask, zeros_like.
    rewrite length_map, Nat.eqb_refl.
    change (map (fun _ => false) label_sets) with (zeros_like label_sets).
    rewrite np_where_zeros. simpl.
    assert (map (compress (zeros_like label_sets)) rows = map (take []) rows) as ->.
    { apply map_ext. intros r. by rewrite compress_zeros. }
    repeat split. intros Hpos Heq. injection Heq as Heq _. lia.
Qed.

Lemma remove_groups_no_labels_witness :
  remove_groups x_demo [] sets_demo = Ok (take_columns [] x_demo) /\
  width (take_columns [] x_demo) = Some 0 /\
  (0 < length sets_demo -> remove_groups x_demo [] sets_demo <> Ok x_demo).
Proof. apply (remove_groups_no_labels x_demo sets_demo). reflexivity. Defined.

(** With two labels that no column carries together nothing is removed. *)
Example remove_groups_two_groups :
  remove_groups x_demo [[LStr "FA"]; [LStr "MD"]] sets_demo = Ok x_demo.
Proof. vm_compute. reflexivity. Qed.

(** ** Shuffling *)

Section ShuffleProperties.
Context `{RandomState} {A : Type}.

Lemma shuffle_section_seeded_state (seed : Z) (section : list A) (g : rng) :
  (shuffle_section (Some seed) section g).2 = g.
Proof.
  unfold shuffle_section. destruct (rng_seed seed) as [seeded|]; [|done].
  by destruct (rng_shuffle A section seeded).
Qed.

Lemma shuffle_section_seeded_value (seed : Z) (section : list A) (g1 g2 : rng) :
  (shuffle_section (Some seed) section g1).1 = (shuffle_section (Some seed) section g2).1.
Proof.
  unfold shuffle_section. destruct (rng_seed seed) as [seeded|]; [|done].
  by destruct (rng_shuffle A section seeded).
Qed.

Lemma shuffle_group_seeded_state (x : ndarray A) label label_sets seed g :
  (shuffle_group x label label_sets (Some seed) g).2 = g.
Proof.
  unfold shuffle_group.
  destruct x as [a|v|n rows|shape data]; try done.
  - destruct (_ =? _); [|done].
    pose proof (shuffle_section_seeded_state seed
                  (concat (map (compress (issubset label label_sets)) rows)) g) as Hs.
    by destruct (shuffle_section _ _ _) as [[flat|e] g'].
  - destruct shape as [|d0 [|d1 rest]]; try done.
    destruct (_ =? _); [|done].
    match goal with |- context [shuffle_section _ ?s _] =>
      pose proof (shuffle_section_seeded_state seed s g) as Hs end.
    by destruct (shuffle_section _ _ _) as [[flat|e] g'].
Qed.

Lemma shuffle_group_seeded_value (x : ndarray A) label label_sets seed g1 g2 :
  (shuffle_group x label label_sets (Some seed) g1).1
  = (shuffle_group x label label_sets (Some seed) g2).1.
Proof.
  unfold shuffle_group.
  destruct x as [a|v|n rows|shape data]; try done.
  - destruct (_ =? _); [|done].
    pose proof (shuffle_section_seeded_value seed
                  (concat (map (compress (issubset label label_sets)) rows)) g1 g2) as Hs.
    destruct (shuffle_section _ _ g1) as [[flat1|e1] g1'],
             (shuffle_section _ _ g2) as [[flat2|e2] g2']; simpl in *; congruence.
  - destruct shape as [|d0 [|d1 rest]]; try done.
    destruct (_ =? _); [|done].
    match goal with |- context [shuffle_section _ ?s g1] =>
      pose proof (shuffle_section_seeded_value seed s g1 g2) as Hs end.
    destruct (shuffle_section _ _ g1) as [[flat1|e1] g1'],
             (shuffle_section _ _ g2) as [[flat2|e2] g2']; simpl in *; congruence.
Qed.

(** Claim C4.  With an explicit seed, [shuffle_group] returns the same
      array whatever the state of the generator it is called in, it leaves
      that state as it found it, and so any draw made right after it is the
      draw that would have been made without the call. *)
Theorem shuffle_group_seeded (x : ndarray A) (label : list atom)
    (label_sets : list (gset atom)) (seed : Z) :
  (forall g1 g2 : rng,
      (shuffle_group x label label_sets (Some seed) g1).1
      = (shuffle_group x label label_sets (Some seed) g2).1) /\
  (forall g : rng, (shuffle_group x label label_sets (Some seed) g).2 = g) /\
  (forall (B : Type) (draw : rng -> B * rng) (g : rng),
      draw (shuffle_group x label label_sets (Some seed) g).2 = draw g).
Proof.
  split; [|split].
  - intros g1 g2. apply shuffle_group_seeded_value.
  - intros g. apply shuffle_group_seeded_state.
  - intros B draw g. by rewrite shuffle_group_seeded_state.
Qed.
End ShuffleProperties.

(** With the small generator: a seeded call shuffles the values of the two
    FA columns as one pool, across rows and columns, and hands the state
    back; an unseeded call advances the state. *)
Example shuffle_group_seeded_demo :
  shuffle_group (H := lcg_random) x_demo [LStr "FA"] sets_demo (Some 7%Z) 1%Z
  = (Ok (Mat 3 [[20; 11; 30]; [21; 10; 31]]), 1%Z).
Proof. vm_compute. reflexivity. Qed.

Example shuffle_group_unseeded_demo :
  shuffle_group (H := lcg_random) x_demo [LStr "FA"] sets_demo None 1%Z
  = (Ok (Mat 3 [[20; 21; 30]; [10; 11; 31]]), 662824084%Z).
Proof. vm_compute. reflexivity. Qed.

(** A seed outside of the range is refused, and the state is left alone. *)
Example shuffle_group_refused_seed :
  shuffle_group (H := lcg_random) x_demo [LStr "FA"] sets_demo (Some (-1)%Z) 1%Z
  = (Raise ValueError, 1%Z).
Proof. vm_compute. reflexivity. Qed.

(** A vector has no second axis to index. *)
Example shuffle_group_vector :
  shuffle_group (H := lcg_random) (Vec [1; 2; 3]) [LStr "FA"] sets_demo None 1%Z
  = (Raise IndexError, 1%Z).
Proof. reflexivity. Qed.

(** ** Label sets *)

Lemma mapM_Ok {A B} (f : A -> result B) (g : A -> B) (l : list A) :
  (forall a, a ∈ l -> f a = Ok (g a)) -> mapM f l = Ok (map g l).
Proof.
  induction l as [|a l IH]; intros Hf; simpl; [done|].
  rewrite (Hf a) by apply list_elem_of_here. simpl.
  rewrite IH; [done|]. intros b Hb. apply Hf. by apply list_elem_of_further.
Qed.

Lemma bilateral_symmetry_lookup (columns : MultiIndex) (tract : string) :
  tract ∈ levels_tract columns ->
  bilateral_symmetry columns !! tract = Some (symmetrized tract).
Proof.
  unfold bilateral_symmetry. induction (levels_tract columns) as [|t l IH]; intros Hin.
  - by apply elem_of_nil in Hin.
  - simpl. destruct (decide (t = tract)) as [->|Hne].
    + by rewrite lookup_insert_eq.
    + rewrite lookup_insert_ne by done. apply IH.
      apply elem_of_cons in Hin as [?|?]; [congruence|done].
Qed.

(** With symmetry every column gets its metric, its tract, the text of its
    node number and its symmetrized tract. *)
Lemma multicol2sets_symmetry (columns : MultiIndex) :
  Forall (fun k : ColumnKey => k.1.2 ∈ levels_tract columns) (tuples columns) ->
  multicol2sets columns true
  = Ok (map (fun k : ColumnKey =>
               {[ LStr k.1.1; LStr k.1.2; LStr (pretty k.2); LStr (symmetrized k.1.2) ]})
            (tuples columns)).
Proof.
  intros Hwf. unfold multicol2sets, to_numpy.
  rewrite (mapM_Ok _ (fun k : ColumnKey =>
             [LStr k.1.1; LStr k.1.2; LStr (pretty k.2); LStr (symmetrized k.1.2)])).
  - simpl. f_equal. rewrite map_map. apply map_ext. intros [[m t] n]. simpl.
    by rewrite (right_id_L ∅ (∪)), !(assoc_L (∪)).
  - intros [[m t] n] Hk. rewrite Forall_forall in Hwf.
    unfold dict_getitem. rewrite bilateral_symmetry_lookup by exact (Hwf _ Hk).
    reflexivity.
Qed.

Lemma multicol2sets_plain (columns : MultiIndex) :
  multicol2sets columns false
  = Ok (map (fun k : ColumnKey => {[ LStr k.1.1; LStr k.1.2; LInt k.2 ]})
            (tuples columns)).
Proof.
  unfold multicol2sets, to_numpy. f_equal. apply map_ext. intros [[m t] n]. simpl.
  by rewrite (right_id_L ∅ (∪)), !(assoc_L (∪)).
Qed.

(** Claim C5, the code at the claim's input.  For the column key
    ("FA", "Left Cingulum", 5), at any position of a column index whose
    tracts are in its tract level, [multicol2sets] with [tract_symmetry]
    returns at that position a set of four labels: the metric "FA", the
    tract "Left Cingulum", the symmetrized tract "Cingulum" and the text
    "5".  The node number 5 itself is not in the set: the extended tuples
    go through [np.array], which makes strings of them.  Without
    [tract_symmetry] the set at that position holds the node number 5. *)
Theorem multicol2sets_left_cingulum (columns : MultiIndex) (i : nat) :
  Forall (fun k : ColumnKey => k.1.2 ∈ levels_tract columns) (tuples columns) ->
  tuples columns !! i = Some ("FA", "Left Cingulum", 5%Z) ->
  exists (sets plain : list (gset atom)) (s s' : gset atom),
    multicol2sets columns true = Ok sets /\
    length sets = n_columns columns /\
    sets !! i = Some s /\
    s = {[ LStr "FA"; LStr "Left Cingulum"; LStr "5"; LStr "Cingulum" ]} /\
    (LInt 5 ∉ s) /\
    multicol2sets columns false = Ok plain /\
    plain !! i = Some s' /\
    LInt 5 ∈ s'.
Proof.
  intros Hwf Hi. eexists _, _, _, _.
  split; [by apply multicol2sets_symmetry|].
  split; [by rewrite length_map|].
  split; [by rewrite list_lookup_fmap, Hi|].
  split; [reflexivity|].
  split; [cbn [fst snd]; by apply (bool_decide_unpack _)|].
  split; [by apply multicol2sets_plain|].
  split; [by rewrite list_lookup_fmap, Hi|].
  cbn [fst snd]. by apply (bool_decide_unpack _).
Qed.

Lemma multicol2sets_left_cingulum_witness :
  exists (sets plain : list (gset atom)) (s s' : gset atom),
    multicol2sets columns_demo true = Ok sets /\
    length sets = n_columns columns_demo /\
    sets !! 0 = Some s /\
    s = {[ LStr "FA"; LStr "Left Cingulum"; LStr "5"; LStr "Cingulum" ]} /\
    (LInt 5 ∉ s) /\
    multicol2sets columns_demo false = Ok plain /\
    plain !! 0 = Some s' /\
    LInt 5 ∈ s'.
Proof.
  apply (multicol2sets_left_cingulum columns_demo 0).
  - repeat constructor; set_solver.
  - reflexivity.
Defined.

(** Without symmetry the node number stays an integer label. *)
Example multicol2sets_plain_demo :
  multicol2sets columns_demo false
  = Ok [ {[ LStr "FA"; LStr "Left Cingulum"; LInt 5 ]};
         {[ LStr "FA"; LStr "Right Cingulum"; LInt 5 ]};
         {[ LStr "MD"; LStr "Left Cingulum"; LInt 5 ]};
         {[ LStr "MD"; LStr "Right Cingulum"; LInt 5 ]} ].
Proof. vm_compute. reflexivity. Qed.

(** ** Coefficients by groups *)

Section OrderedDictFacts.
Context {V : Type}.
Implicit Types (d : OrderedDict V).

Lemma od_get_set d k v k' :
  od_get (od_set d k v) k' = if decide (k = k') then Some v else od_get d k'.
Proof.
  induction d as [|[k0 v0] d IH]; simpl.
  - destruct (decide (k = k')); reflexivity.
  - destruct (decide (k0 = k)) as [->|Hne]; simpl.
    + destruct (decide (k = k')); reflexivity.
    + destruct (decide (k0 = k')) as [->|Hne'].
      * destruct (decide (k = k')); [congruence|reflexivity].
      * apply IH.
Qed.
End OrderedDictFacts.

Lemma existsb_nonzero_all_zero (v : list cell) :
  all_zero v -> existsb cell_nonzero v = false.
Proof.
  unfold all_zero. induction 1 as [|c v Hc _ IH]; simpl; [done|].
  by rewrite Hc, IH.
Qed.

Lemma existsb_nonzero_not_all_zero (v : list cell) :
  ~ all_zero v -> existsb cell_nonzero v = true.
Proof.
  unfold all_zero. intros Hn. destruct (existsb cell_nonzero v) eqn:He; [done|].
  exfalso. apply Hn. apply Forall_forall. intros c Hc.
  destruct (cell_nonzero c) eqn:Hcz; [|done].
  assert (existsb cell_nonzero v = true) as Ht; [|congruence].
  apply existsb_exists. exists c. split; [by apply list_elem_of_In|done].
Qed.

Section ByGroups.
Variables (beta : list cell) (columns : MultiIndex).
Hypothesis Hlen : length beta = n_columns columns.

Lemma select_group_beta (label : list atom) :
  select_group (Vec beta) label (plain_sets columns)
  = Ok (Vec (coefficients_of beta columns label)).
Proof.
  unfold select_group, getitem_mask, coefficients_of.
  rewrite length_issubset. unfold plain_sets. rewrite length_map.
  unfold n_columns in Hlen. by rewrite Hlen, Nat.eqb_refl.
Qed.

Lemma metric_loop_pure tract metrics inner :
  metric_loop (Vec beta) (plain_sets columns) true tract metrics inner
  = Ok (foldl (metric_step beta columns tract) inner metrics).
Proof.
  unfold metric_loop.
  match goal with |- foldl ?f _ _ = _ => set (step := f) end.
  assert (forall d m, step (Ok d) m = Ok (metric_step beta columns tract d m)) as Hstep.
  { intros d m. unfold step. cbn [mbind result_bind].
    rewrite select_group_beta. cbn [mbind result_bind any_nonzero].
    unfold metric_step. by destruct (existsb cell_nonzero _). }
  clearbody step. revert inner.
  induction metrics as [|m metrics IH]; intros inner; cbn [foldl]; [done|].
  rewrite Hstep. apply IH.
Qed.

Lemma by_groups_pure :
  beta_hat_by_groups (Vec beta) columns true
  = Ok (foldl (tract_step beta columns) [] (levels_tract columns)).
Proof.
  unfold beta_hat_by_groups. rewrite multicol2sets_plain.
  cbn [mbind result_bind]. fold (plain_sets columns).
  match goal with |- foldl ?f _ _ = _ => set (step := f) end.
  assert (forall d t, step (Ok d) t = Ok (tract_step beta columns d t)) as Hstep.
  { intros d t. unfold step. cbn [mbind result_bind].
    rewrite select_group_beta. cbn [mbind result_bind any_nonzero].
    unfold tract_step. destruct (existsb cell_nonzero _); [|done].
    rewrite metric_loop_pure. reflexivity. }
  clearbody step.
  generalize ([] : OrderedDict (OrderedDict (ndarray cell))).
  induction (levels_tract columns) as [|t tracts IH]; intros betas; cbn [foldl]; [done|].
  rewrite Hstep. apply IH.
Qed.

Lemma metric_fold_get tract metrics inner metric :
  od_get (foldl (metric_step beta columns tract) inner metrics) metric
  = if bool_decide (metric ∈ metrics)
       && existsb cell_nonzero (coefficients_of beta columns [LStr tract; LStr metric])
    then Some (Vec (coefficients_of beta columns [LStr tract; LStr metric]))
    else od_get inner metric.
Proof.
  revert inner. induction metrics as [|m metrics IH]; intros inner; simpl; [done|].
  rewrite IH. unfold metric_step.
  destruct (decide (m = metric)) as [->|Hne].
  - rewrite (bool_decide_eq_true_2 (metric ∈ metric :: metrics)) by apply list_elem_of_here.
    simpl. destruct (existsb cell_nonzero _) eqn:He.
    + rewrite andb_true_r. rewrite od_get_set, decide_True by done.
      by destruct (bool_decide _).
    + by rewrite andb_false_r.
  - assert (bool_decide (metric ∈ m :: metrics) = bool_decide (metric ∈ metrics)) as ->.
    { apply bool_decide_ext. rewrite elem_of_cons.
      split; [intros [?|?]; [congruence|done] | by right]. }
    destruct (bool_decide (metric ∈ metrics) && _); [done|].
    destruct (existsb cell_nonzero (coefficients_of beta columns [LStr tract; LStr m]));
      [|done].
    by rewrite od_get_set, decide_False.
Qed.

Lemma tract_fold_get tracts betas tract :
  od_get (foldl (tract_step beta columns) betas tracts) tract
  = if bool_decide (tract ∈ tracts)
       && existsb cell_nonzero (coefficients_of beta columns [LStr tract])
    then Some (inner_dict beta columns tract)
    else od_get betas tract.
Proof.
  revert betas. induction tracts as [|t tracts IH]; intros betas; simpl; [done|].
  rewrite IH. unfold tract_step.
  destruct (decide (t = tract)) as [->|Hne].
  - rewrite (bool_decide_eq_true_2 (tract ∈ tract :: tracts)) by apply list_elem_of_here.
    simpl. destruct (existsb cell_nonzero _) eqn:He.
    + rewrite andb_true_r. rewrite od_get_set, decide_True by done.
      by destruct (bool_decide _).
    + by rewrite andb_false_r.
  - assert (bool_decide (tract ∈ t :: tracts) = bool_decide (tract ∈ tracts)) as ->.
    { apply bool_decide_ext. rewrite elem_of_cons.
      split; [intros [?|?]; [congruence|done] | by right]. }
    destruct (bool_decide (tract ∈ tracts) && _); [done|].
    destruct (existsb cell_nonzero (coefficients_of beta columns [LStr t])); [|done].
    by rewrite od_get_set, decide_False.
Qed.
End ByGroups.

(** Claim C9.  For every coefficient vector with one entry per column,
    [beta_hat_by_groups] with [drop_zeros] returns a dictionary in which
    a tract is absent when every coefficient of the columns matching the
    tract is exactly zero, and in which the entry of a metric under a
    tract is absent when every coefficient of the columns matching both
    is exactly zero; a tract and a metric of the levels with a non-zero
    coefficient are present, with their coefficients. *)
Theorem beta_hat_by_groups_drop_zeros (beta : list cell) (columns : MultiIndex) :
  length beta = n_columns columns ->
  exists betas : OrderedDict (OrderedDict (ndarray cell)),
    beta_hat_by_groups (Vec beta) columns true = Ok betas /\
    (forall tract,
        all_zero (coefficients_of beta columns [LStr tract]) ->
        od_get betas tract = None) /\
    (forall tract metric inner,
        od_get betas tract = Some inner ->
        all_zero (coefficients_of beta columns [LStr tract; LStr metric]) ->
        od_get inner metric = None) /\
    (forall tract metric,
        tract ∈ levels_tract columns -> metric ∈ levels_metric columns ->
        ~ all_zero (coefficients_of beta columns [LStr tract]) ->
        ~ all_zero (coefficients_of beta columns [LStr tract; LStr metric]) ->
        exists inner,
          od_get betas tract = Some inner /\
          od_get inner metric
          = Some (Vec (coefficients_of beta columns [LStr tract; LStr metric]))).
Proof.
  intros Hlen. eexists. split; [by apply by_groups_pure|]. split; [|split].
  - intros tract Hz. rewrite tract_fold_get.
    rewrite existsb_nonzero_all_zero by done. by rewrite andb_false_r.
  - intros tract metric inner Hget Hz. rewrite tract_fold_get in Hget.
    destruct (_ && _); [|done]. injection Hget as <-.
    unfold inner_dict. rewrite metric_fold_get.
    rewrite existsb_nonzero_all_zero by done. by rewrite andb_false_r.
  - intros tract metric Ht Hm Hnz Hnz'. exists (inner_dict beta columns tract).
    rewrite tract_fold_get. rewrite bool_decide_eq_true_2 by done.
    rewrite existsb_nonzero_not_all_zero by done. split; [done|].
    unfold inner_dict. rewrite metric_fold_get.
    rewrite bool_decide_eq_true_2 by done.
    by rewrite existsb_nonzero_not_all_zero.
Qed.

Lemma beta_hat_by_groups_drop_zeros_witness :
  exists betas : OrderedDict (OrderedDict (ndarray cell)),
    beta_hat_by_groups (Vec beta_cst) columns_cst true = Ok betas /\
    (forall tract,
        all_zero (coefficients_of beta_cst columns_cst [LStr tract]) ->
        od_get betas tract = None) /\
    (forall tract metric inner,
        od_get betas tract = Some inner ->
        all_zero (coefficients_of beta_cst columns_cst [LStr tract; LStr metric]) ->
        od_get inner metric = None) /\
    (forall tract metric,
        tract ∈ levels_tract columns_cst -> metric ∈ levels_metric columns_cst ->
        ~ all_zero (coefficients_of beta_cst columns_cst [LStr tract]) ->
        ~ all_zero (coefficients_of beta_cst columns_cst [LStr tract; LStr metric]) ->
        exists inner,
          od_get betas tract = Some inner /\
          od_get inner metric
          = Some (Vec (coefficients_of beta_cst columns_cst [LStr tract; LStr metric]))).
Proof. apply (beta_hat_by_groups_drop_zeros beta_cst columns_cst). reflexivity. Defined.

(** The tract whose coefficients are all zero is left out, and so is the
    all-zero metric of the other tract. *)
Example beta_hat_by_groups_cst :
  beta_hat_by_groups (Vec beta_cst) columns_cst true
  = Ok [("CST_R", [("FA", Vec [Some (3 # 2)%Q; Some 0%Q])])].
Proof. vm_compute. reflexivity. Qed.

Example beta_hat_by_groups_cst_keep :
  beta_hat_by_groups (Vec beta_cst) columns_cst false
  = Ok [("CST_L", [("FA", Vec [Some 0%Q; Some 0%Q]); ("MD", Vec [Some 0%Q; Some 0%Q])]);
        ("CST_R", [("FA", Vec [Some (3 # 2)%Q; Some 0%Q]); ("MD", Vec [Some 0%Q; Some 0%Q])])].
Proof. vm_compute. reflexivity. Qed.

(** A label of one string matches the columns that carry it as metric or
    as tract: the columns of the tract alone when no metric has its name. *)
Lemma matches_tract (tract : string) (k : ColumnKey) :
  matches [LStr tract] {[ LStr k.1.1; LStr k.1.2; LInt k.2 ]}
  <-> tract = k.1.1 \/ tract = k.1.2.
Proof.
  unfold matches. destruct k as [[m t] n]. cbn [fst snd list_to_set]. split.
  - intros Hs. assert (LStr tract ∈ ({[LStr m; LStr t; LInt n]} : gset atom)) as Hin.
    { apply Hs. apply elem_of_union_l. by apply elem_of_singleton. }
    rewrite !elem_of_union, !elem_of_singleton in Hin.
    destruct Hin as [[Hin|Hin]|Hin]; [left|right|done]; by injection Hin.
  - intros Heq x Hx. rewrite elem_of_union, elem_of_singleton in Hx.
    destruct Hx as [->|Hx]; [|by apply elem_of_empty in Hx].
    rewrite !elem_of_union, !elem_of_singleton.
    destruct Heq as [->| ->]; [left; by left|left; by right].
Qed.

Lemma coefficients_of_tract (beta : list cell) (columns : MultiIndex) (tract : string) :
  Forall (fun k : ColumnKey => k.1.1 <> tract) (tuples columns) ->
  coefficients_of beta columns [LStr tract]
  = compress (map (fun k : ColumnKey => bool_decide (k.1.2 = tract)) (tuples columns)) beta.
Proof.
  intros Hne. unfold coefficients_of, issubset, plain_sets. rewrite map_map.
  f_equal. apply map_ext_in. intros k Hk.
  apply bool_decide_ext. rewrite matches_tract.
  rewrite Forall_forall in Hne. apply list_elem_of_In, Hne in Hk.
  split; [intros [?|?]; [congruence|done] | by right].
Qed.

(** ** Sorted distinct values *)

Section SortUnique.
Context `{EqDecision A} (R : relation A) `{!RelDecision R}.
Implicit Types (l : list A).

Lemma sort_unique_Permutation l : sort_unique R l ≡ₚ remove_dups l.
Proof. apply merge_sort_Permutation. Qed.

Lemma elem_of_sort_unique l x : x ∈ sort_unique R l <-> x ∈ l.
Proof. by rewrite sort_unique_Permutation, elem_of_remove_dups. Qed.

Lemma NoDup_sort_unique l : NoDup (sort_unique R l).
Proof. rewrite sort_unique_Permutation. apply NoDup_remove_dups. Qed.

Lemma length_sort_unique l : length (sort_unique R l) = length (remove_dups l).
Proof. by rewrite sort_unique_Permutation. Qed.

Lemma length_sort_unique_ext l1 l2 :
  (forall x, x ∈ l1 <-> x ∈ l2) ->
  length (sort_unique R l1) = length (remove_dups l2).
Proof.
  intros Hext. rewrite length_sort_unique. apply Permutation_length.
  apply NoDup_Permutation; [apply NoDup_remove_dups..|].
  intros x. by rewrite !elem_of_remove_dups.
Qed.

Lemma remove_dups_NoDup l : NoDup l -> remove_dups l = l.
Proof.
  induction 1 as [|x l Hx _ IH]; simpl; [done|].
  destruct (decide_rel elem_of x l); [done|]. by rewrite IH.
Qed.

Lemma sort_unique_sorted `{!Transitive R, !AntiSymm (=) R, !Total R} l :
  Sorted R l -> NoDup l -> sort_unique R l = l.
Proof.
  intros Hs Hn. unfold sort_unique. rewrite remove_dups_NoDup by done.
  apply (Sorted_unique R).
  - by apply Sorted_merge_sort.
  - done.
  - apply merge_sort_Permutation.
Qed.
End SortUnique.

Lemma sort_unique_idemp `{EqDecision A} (R : relation A) `{!RelDecision R}
    `{!Transitive R, !AntiSymm (=) R, !Total R} (l : list A) :
  sort_unique R (sort_unique R l) = sort_unique R l.
Proof.
  apply sort_unique_sorted; [apply _..| |apply NoDup_sort_unique].
  by apply Sorted_merge_sort.
Qed.

(** ** Positions in a level *)

Lemma index_of_lookup `{EqDecision A} (l : list A) (i : nat) (x : A) :
  NoDup l -> l !! i = Some x -> index_of x l = i.
Proof.
  intros Hn. revert i. induction Hn as [|y l Hy _ IH]; intros i Hi; [done|].
  destruct i as [|i]; simpl in *.
  - injection Hi as ->. by rewrite decide_True.
  - rewrite decide_False; [f_equal; by apply IH|].
    intros ->. apply Hy. by eapply list_elem_of_lookup_2.
Qed.

Lemma index_of_inj `{EqDecision A} (l : list A) (x y : A) :
  x ∈ l -> y ∈ l -> index_of x l = index_of y l -> x = y.
Proof.
  induction l as [|z l IH]; intros Hx Hy Heq; [by apply elem_of_nil in Hx|].
  simpl in Heq. destruct (decide (z = x)) as [Hzx|Hzx], (decide (z = y)) as [Hzy|Hzy];
    [congruence|done|done|].
  injection Heq as Heq. apply IH; [| |done].
  - apply elem_of_cons in Hx as [?|?]; [congruence|done].
  - apply elem_of_cons in Hy as [?|?]; [congruence|done].
Qed.

Lemma index_of_lt `{EqDecision A} (l : list A) (x : A) :
  x ∈ l -> index_of x l < length l.
Proof.
  induction l as [|z l IH]; intros Hx; [by apply elem_of_nil in Hx|].
  simpl. destruct (decide (z = x)); [lia|].
  apply elem_of_cons in Hx as [?|Hx]; [congruence|]. apply IH in Hx. lia.
Qed.

(** ** Blocks of columns *)

Lemma where_from_app (i : nat) (m1 m2 : list bool) :
  where_from i (m1 ++ m2) = where_from i m1 ++ where_from (i + length m1) m2.
Proof.
  revert i. induction m1 as [|b m1 IH]; intros i; simpl.
  - by rewrite Nat.add_0_r.
  - rewrite IH. replace (S i + length m1) with (i + S (length m1)) by lia.
    by destruct b.
Qed.

Lemma where_from_replicate_true (i n : nat) :
  where_from i (replicate n true) = seq i n.
Proof. revert i. induction n as [|n IH]; intros i; simpl; [done|]. by rewrite IH. Qed.

Lemma where_from_all_false (i : nat) (m : list bool) :
  Forall (fun b => b = false) m -> where_from i m = [].
Proof.
  intros Hm. revert i. induction Hm as [|b m -> _ IH]; intros i; simpl; [done|]. apply IH.
Qed.

Lemma where_from_blocks (n g0 count g i : nat) :
  g0 <= g < g0 + count ->
  where_from i (map (fun c => c =? g) (blocks n g0 count)) = seq (i + (g - g0) * n) n.
Proof.
  revert g0 i. induction count as [|count IH]; intros g0 i Hg; [lia|].
  unfold blocks. simpl. fold (blocks n (S g0) count).
  rewrite map_app, where_from_app, !length_map, length_replicate.
  destruct (decide (g = g0)) as [->|Hne].
  - rewrite Nat.sub_diag, Nat.mul_0_l, Nat.add_0_r.
    assert (map (fun c => c =? g0) (replicate n g0) = replicate n true) as ->.
    { clear. induction n as [|n IH]; simpl; [done|]. by rewrite Nat.eqb_refl, IH. }
    rewrite where_from_replicate_true.
    rewrite where_from_all_false; [by rewrite app_nil_r|].
    apply Forall_forall. intros b Hb. apply list_elem_of_fmap in Hb as (c & -> & Hc).
    apply Nat.eqb_neq. unfold blocks in Hc.
    apply list_elem_of_In, in_flat_map in Hc as (g' & Hg' & Hc).
    apply in_seq in Hg'. apply list_elem_of_In, elem_of_replicate in Hc as [-> _]. lia.
  - rewrite (where_from_all_false i).
    + rewrite IH by lia. simpl. f_equal.
      replace (g - g0) with (S (g - S g0)) by lia. lia.
    + apply Forall_forall. intros b Hb. apply list_elem_of_fmap in Hb as (c & -> & Hc).
      apply elem_of_replicate in Hc as [-> _]. by apply Nat.eqb_neq.
Qed.

Lemma elem_of_blocks (n g0 count c : nat) :
  c ∈ blocks n g0 count <-> g0 <= c < g0 + count /\ n <> 0.
Proof.
  unfold blocks. rewrite list_elem_of_In, in_flat_map. split.
  - intros (g & Hg & Hc). apply in_seq in Hg.
    apply list_elem_of_In, elem_of_replicate in Hc as [-> ?]. done.
  - intros [Hc Hn]. exists c. split; [by apply in_seq|].
    apply list_elem_of_In, elem_of_replicate. done.
Qed.

Lemma sort_unique_blocks (n count : nat) :
  n <> 0 -> sort_unique le (blocks n 0 count) = seq 0 count.
Proof.
  intros Hn. apply (Sorted_unique le).
  - apply Sorted_merge_sort. apply _.
  - apply Sorted_LocallySorted_iff. generalize 0.
    induction count as [|count IH]; intros i; simpl; [constructor|].
    specialize (IH (S i)). destruct count; simpl in *; constructor; [done|lia].
  - apply NoDup_Permutation; [apply NoDup_sort_unique|apply NoDup_seq|].
    intros c. rewrite elem_of_sort_unique, elem_of_blocks, elem_of_seq. lia.
Qed.

Lemma length_blocks (n g0 count : nat) : length (blocks n g0 count) = count * n.
Proof.
  revert g0. induction count as [|count IH]; intros g0; [done|].
  unfold blocks. simpl. fold (blocks n (S g0) count).
  rewrite length_app, length_replicate, IH. lia.
Qed.

(** The groups of a membership array made of blocks: consecutive runs. *)
Lemma groups_of_blocks (n count : nat) :
  n <> 0 ->
  map (fun gid => np_where (map (fun g => g =? gid) (blocks n 0 count)))
      (sort_unique le (blocks n 0 count))
  = map (fun gid => seq (gid * n) n) (seq 0 count).
Proof.
  intros Hn. rewrite sort_unique_blocks by done.
  apply map_ext_in. intros g Hg. apply in_seq in Hg.
  unfold np_where. rewrite where_from_blocks by lia.
  f_equal. lia.
Qed.

Lemma concat_runs (n count : nat) :
  concat (map (fun gid => seq (gid * n) n) (seq 0 count)) = seq 0 (count * n).
Proof.
  induction count as [|count IH]; [done|].
  replace (S count * n) with (count * n + n) by lia.
  rewrite seq_S, map_app, concat_app, IH. simpl.
  by rewrite app_nil_r, seq_app.
Qed.

(** ** The product of the levels *)

Lemma index_of_app_fresh `{EqDecision A} (pre l : list A) (x : A) :
  x ∉ pre -> index_of x (pre ++ x :: l) = length pre.
Proof.
  induction pre as [|y pre IH]; intros Hx; simpl.
  - by rewrite decide_True.
  - apply not_elem_of_cons in Hx as [Hne Hx].
    rewrite decide_False by done. by rewrite IH.
Qed.

Lemma blocks_app (n g0 a b : nat) :
  blocks n g0 (a + b) = blocks n g0 a ++ blocks n (g0 + a) b.
Proof. unfold blocks. by rewrite seq_app, flat_map_app. Qed.

Section Product.
Variables (ms ts : list string) (ns : list Z).
Hypothesis Hms : NoDup ms.
Hypothesis Hts : NoDup ts.

Let code (k : ColumnKey) : nat :=
  index_of k.1.1 ms * length ts + index_of k.1.2 ts.

Lemma product_codes_tracts (m : string) (pre ts' : list string) :
  ts = pre ++ ts' ->
  map code (flat_map (fun t => map (fun n => (m, t, n)) ns) ts')
  = blocks (length ns) (index_of m ms * length ts + length pre) (length ts').
Proof.
  revert pre. induction ts' as [|t ts' IH]; intros pre Hpre; [done|].
  cbn [flat_map]. rewrite map_app.
  rewrite (IH (pre ++ [t])) by (by rewrite <-(assoc_L (++))).
  rewrite length_app, Nat.add_1_r.
  replace (length (t :: ts')) with (1 + length ts') by done.
  rewrite blocks_app. f_equal.
  - unfold blocks, code. simpl. rewrite app_nil_r.
    assert (index_of t ts = length pre) as Ht.
    { rewrite Hpre. apply index_of_app_fresh.
      rewrite Hpre in Hts. apply NoDup_app in Hts as (_ & Hd & _).
      intros Hin. apply (Hd t Hin). apply list_elem_of_here. }
    rewrite map_map. simpl. rewrite Ht.
    clear. induction ns as [|n l IHl]; simpl; [done|]. by rewrite IHl.
  - f_equal. lia.
Qed.

Lemma product_codes_metrics (pre ms' : list string) :
  ms = pre ++ ms' ->
  map code (flat_map (fun m => flat_map (fun t => map (fun n => (m, t, n)) ns) ts) ms')
  = blocks (length ns) (length pre * length ts) (length ms' * length ts).
Proof.
  revert pre. induction ms' as [|m ms' IH]; intros pre Hpre; [done|].
  simpl. rewrite map_app.
  rewrite (IH (pre ++ [m])) by (by rewrite <-(assoc_L (++))).
  rewrite (product_codes_tracts m [] ts) by done.
  assert (index_of m ms = length pre) as ->.
  { rewrite Hpre. apply index_of_app_fresh.
    rewrite Hpre in Hms. apply NoDup_app in Hms as (_ & Hd & _).
    intros Hin. apply (Hd m Hin). apply list_elem_of_here. }
  replace (length (m :: ms') * length ts) with (length ts + length ms' * length ts)
    by (simpl; lia).
  rewrite blocks_app. simpl. rewrite Nat.add_0_r. f_equal.
  f_equal. rewrite length_app. simpl. lia.
Qed.

Lemma product_codes :
  map code (flat_map (fun m => flat_map (fun t => map (fun n => (m, t, n)) ns) ts) ms)
  = blocks (length ns) 0 (length ms * length ts).
Proof. by rewrite (product_codes_metrics [] ms). Qed.

Lemma length_product :
  length (flat_map (fun m => flat_map (fun t => map (fun n => (m, t, n)) ns) ts) ms)
  = length ms * length ts * length ns.
Proof.
  rewrite <-(length_map code), product_codes, length_blocks. done.
Qed.
End Product.

(** ** The table by node *)

Section Pivot.
Variable long : list Obs.

Lemma mean_is_Some (l : list Q) : is_Some (mean l) <-> l <> [].
Proof.
  destruct l as [|q l]; simpl.
  - split; [by intros [? ?]|done].
  - split; [done|]. intros _. by eexists.
Qed.

Lemma pivot_cell_is_Some (n : Z) (c : SeriesKey) :
  is_Some (pivot_cell long n c)
  <-> exists o, o ∈ long /\ o_node o = n /\ obs_series o = c /\ is_Some (o_value o).
Proof.
  unfold pivot_cell. rewrite mean_is_Some. unfold group_values. split.
  - intros Hne. destruct (omap _ long) as [|q l] eqn:Hq; [done|].
    assert (q ∈ q :: l) as Hin by apply list_elem_of_here.
    rewrite <-Hq in Hin. apply list_elem_of_omap in Hin as (o & Ho & Hv).
    exists o. destruct (decide _) as [[? ?]|]; [|done].
    split; [done|]. split; [done|]. split; [done|]. by exists q.
  - intros (o & Ho & Hn & Hc & [q Hq]) Hnil.
    assert (q ∈ omap (fun o => if decide (o_node o = n /\ obs_series o = c)
                               then o_value o else None) long) as Hin.
    { apply list_elem_of_omap. exists o. split; [done|].
      by rewrite decide_True. }
    rewrite Hnil in Hin. by apply elem_of_nil in Hin.
Qed.

Lemma elem_of_agged_keys (k : Z * SeriesKey) :
  k ∈ agged_keys long
  <-> exists o, o ∈ long /\ o_node o = k.1 /\ obs_series o = k.2 /\ is_Some (o_value o).
Proof.
  unfold agged_keys. rewrite list_elem_of_In, filter_In, <-list_elem_of_In.
  rewrite elem_of_remove_dups, bool_decide_eq_true, pivot_cell_is_Some. split.
  - by intros [_ ?].
  - intros (o & Ho & Hn & Hc & Hv). split; [|by exists o].
    apply list_elem_of_fmap. exists o. split; [|done].
    destruct k as [n c]. simpl in *. by subst.
Qed.

Lemma elem_of_pivot_index (n : Z) :
  n ∈ nf_index (pivot_table long)
  <-> exists o, o ∈ long /\ o_node o = n /\ is_Some (o_value o).
Proof.
  simpl. rewrite elem_of_sort_unique, list_elem_of_fmap. split.
  - intros (k & -> & Hk). apply elem_of_agged_keys in Hk as (o & ? & ? & ? & ?).
    by exists o.
  - intros (o & Ho & Hn & Hv). exists (n, obs_series o). split; [done|].
    apply elem_of_agged_keys. by exists o.
Qed.

Lemma elem_of_pivot_columns (c : SeriesKey) :
  c ∈ map fst (nf_columns (pivot_table long))
  <-> exists o, o ∈ long /\ obs_series o = c /\ is_Some (o_value o).
Proof.
  simpl. rewrite map_map. simpl. rewrite map_id.
  rewrite elem_of_sort_unique, list_elem_of_fmap. split.
  - intros (k & -> & Hk). apply elem_of_agged_keys in Hk as (o & ? & ? & ? & ?).
    by exists o.
  - intros (o & Ho & Hc & Hv). exists (o_node o, c). split; [done|].
    apply elem_of_agged_keys. by exists o.
Qed.

Lemma pivot_column_data (c : SeriesKey) (col : list cell) :
  (c, col) ∈ nf_columns (pivot_table long) ->
  col = map (fun n => pivot_cell long n c) (nf_index (pivot_table long)).
Proof.
  simpl. intros Hin. apply list_elem_of_fmap in Hin as (c' & Heq & _).
  by injection Heq as -> ->.
Qed.

Lemma pivot_columns_NoDup : NoDup (map fst (nf_columns (pivot_table long))).
Proof. simpl. rewrite map_map. simpl. rewrite map_id. apply NoDup_sort_unique. Qed.

Lemma pivot_index_NoDup : NoDup (nf_index (pivot_table long)).
Proof. apply NoDup_sort_unique. Qed.
End Pivot.

(** ** Interpolation between the nodes *)

Lemma length_interpolate_from prev i (l : list cell) :
  length (interpolate_from prev i l) = length l.
Proof.
  revert prev i. induction l as [|[v|] l IH]; intros prev i; simpl; [done|..];
    by rewrite IH.
Qed.

Lemma next_valid_None i (l : list cell) :
  next_valid i l = None -> Forall (fun c => c = None) l.
Proof.
  revert i. induction l as [|[v|] l IH]; intros i Hn; simpl in *; [done|done|].
  constructor; [done|]. by eapply IH.
Qed.

Lemma fill_linear_is_Some prev next i :
  is_Some prev \/ is_Some next -> is_Some (fill_linear prev next i).
Proof.
  destruct prev as [[p a]|], next as [[n b]|]; simpl; intros [[? ?]|[? ?]];
    try done; by eexists.
Qed.

(** Only missing entries are written. *)
Lemma interpolate_from_valid prev i (l : list cell) j v :
  l !! j = Some (Some v) -> interpolate_from prev i l !! j = Some (Some v).
Proof.
  revert prev i j. induction l as [|[w|] l IH]; intros prev i j Hj; [done|..];
    destruct j as [|j]; simpl in *; try done; by apply IH.
Qed.

Lemma interpolate_from_complete prev i (l : list cell) :
  Forall is_Some l -> interpolate_from prev i l = l.
Proof.
  intros Hl. revert prev i. induction Hl as [|c l [v ->] _ IH]; intros prev i; simpl;
    [done|]. by rewrite IH.
Qed.

(** A series with a valid entry has none missing afterwards. *)
Lemma interpolate_from_full prev i (l : list cell) :
  is_Some prev \/ Exists is_Some l -> Forall is_Some (interpolate_from prev i l).
Proof.
  revert prev i. induction l as [|[v|] l IH]; intros prev i Hv; simpl; [done|..].
  - constructor; [by eexists|]. apply IH. left. by eexists.
  - constructor.
    + apply fill_linear_is_Some. destruct Hv as [Hp|He]; [by left|right].
      apply Exists_cons in He as [[? ?]|He]; [done|].
      destruct (next_valid (S i) l) eqn:Hn; [by eexists|].
      apply next_valid_None in Hn. apply Exists_exists in He as (c & Hc & [w ->]).
      rewrite Forall_forall in Hn. by specialize (Hn _ Hc).
    + apply IH. destruct Hv as [Hp|He]; [by left|right].
      by apply Exists_cons in He as [[? ?]|He].
Qed.

Lemma interpolate_series_full (l : list cell) :
  Exists is_Some l -> Forall is_Some (interpolate_series l).
Proof. intros He. apply interpolate_from_full. by right. Qed.

Lemma length_interpolate_series (l : list cell) :
  length (interpolate_series l) = length l.
Proof. apply length_interpolate_from. Qed.

(** ** Extrapolation *)

Lemma mapM_Ok_inv {A B} (f : A -> result B) (l : list A) (r : list B) :
  mapM f l = Ok r -> Forall2 (fun a b => f a = Ok b) l r.
Proof.
  revert r. induction l as [|a l IH]; intros r Hr; simpl in *.
  - injection Hr as <-. constructor.
  - destruct (f a) as [b|e] eqn:Hb; [|done]. simpl in Hr.
    destruct (mapM f l) as [bs|e] eqn:Hbs; [|done]. simpl in Hr.
    injection Hr as <-. constructor; [done|]. by apply IH.
Qed.

Lemma mapM_Ok_intro {A B} (f : A -> result B) (l : list A) :
  Forall (fun a => exists b, f a = Ok b) l -> exists r, mapM f l = Ok r.
Proof.
  induction 1 as [|a l [b Hb] _ [r IH]]; simpl; [by eexists|].
  rewrite Hb, IH. simpl. by eexists.
Qed.

Lemma mapM_Raise {A B} (f : A -> result B) (l : list A) (e : exn) :
  Forall (fun a => (exists b, f a = Ok b) \/ f a = Raise e) l ->
  Exists (fun a => f a = Raise e) l ->
  mapM f l = Raise e.
Proof.
  induction 1 as [|a l Ha Hl IH]; intros He; [by apply Exists_nil in He|].
  simpl. destruct Ha as [[b Hb]|Ha]; [|by rewrite Ha].
  rewrite Hb. simpl. apply Exists_cons in He as [He|He]; [congruence|].
  by rewrite IH.
Qed.

Lemma interp1d_call_is_Some (pts : list (Z * Q)) (x : Z) :
  2 <= length pts -> is_Some (interp1d_call pts x).
Proof.
  intros Hlen. unfold interp1d_call. cbv zeta.
  set (hi := Nat.min (Nat.max (searchsorted (map fst pts) x) 1) (length pts - 1)).
  assert (1 <= hi < length pts) as Hhi by (unfold hi; lia).
  destruct (lookup_lt_is_Some_2 pts (hi - 1)) as [[x0 y0] ->]; [lia|].
  destruct (lookup_lt_is_Some_2 pts hi) as [[x1 y1] ->]; [lia|].
  by eexists.
Qed.

Lemma interp_linear_with_extrap_two (scipy : interp1d_policy) (index : list Z)
    (series : list cell) :
  2 <= length (valid_points index series) ->
  interp_linear_with_extrap scipy index series
  = Ok (map (interp1d_call (valid_points index series)) index).
Proof.
  intros Hlen. unfold interp_linear_with_extrap. cbv zeta.
  destruct (length (valid_points index series)) as [|[|n]]; [lia|lia|].
  by destruct scipy.
Qed.

Lemma interp_linear_with_extrap_Ok (scipy : interp1d_policy) (index : list Z)
    (series : list cell) :
  2 <= length (valid_points index series) ->
  exists s, interp_linear_with_extrap scipy index series = Ok s /\
            length s = length index /\ Forall is_Some s.
Proof.
  intros Hlen. rewrite interp_linear_with_extrap_two by done.
  eexists. split; [done|]. split; [by rewrite length_map|].
  apply Forall_forall. intros c Hc. apply list_elem_of_fmap in Hc as (x & -> & _).
  by apply interp1d_call_is_Some.
Qed.

Lemma interp_linear_with_extrap_Raise (index : list Z) (series : list cell) :
  length (valid_points index series) < 2 ->
  interp_linear_with_extrap Interp1dTwoPoints index series = Raise ValueError.
Proof.
  intros Hlen. unfold interp_linear_with_extrap. cbv zeta.
  by destruct (length (valid_points index series)) as [|[|n]]; [..|lia].
Qed.

(** With a release of scipy that accepts a single point, a series with a
    valid entry is never refused. *)
Lemma interp_linear_with_extrap_one (index : list Z) (series : list cell) :
  1 <= length (valid_points index series) ->
  exists s, interp_linear_with_extrap Interp1dOnePoint index series = Ok s /\
            length s = length index.
Proof.
  intros Hlen. unfold interp_linear_with_extrap. cbv zeta.
  destruct (length (valid_points index series)) as [|[|n]]; [lia|..];
    eexists; (split; [done|]); by rewrite length_map.
Qed.

(** ** The interpolation stage on the table by node *)

Lemma pivot_column_has_valid (long : list Obs) (c : SeriesKey) (col : list cell) :
  (c, col) ∈ nf_columns (pivot_table long) ->
  length col = length (nf_index (pivot_table long)) /\ Exists is_Some col.
Proof.
  intros Hin. pose proof (pivot_column_data long c col Hin) as ->.
  split; [by rewrite length_map|].
  assert (c ∈ map fst (nf_columns (pivot_table long))) as Hc.
  { apply list_elem_of_fmap. by exists (c, map (fun n => pivot_cell long n c)
                                             (nf_index (pivot_table long))). }
  apply elem_of_pivot_columns in Hc as (o & Ho & Hs & Hv).
  apply Exists_exists. exists (pivot_cell long (o_node o) c). split.
  - apply list_elem_of_fmap. exists (o_node o). split; [done|].
    apply elem_of_pivot_index. by exists o.
  - apply pivot_cell_is_Some. by exists o.
Qed.

Lemma interpolate_pivot_full (long : list Obs) :
  frame_full (interpolate (pivot_table long)).
Proof.
  unfold frame_full. cbn [interpolate nf_columns nf_index].
  apply Forall_forall. intros [c col'] Hin.
  apply list_elem_of_fmap in Hin as ([c0 col] & Heq & Hin). injection Heq as -> ->.
  cbn [fst snd]. apply pivot_column_has_valid in Hin as [Hlen Hex].
  split; [by rewrite length_interpolate_series|by apply interpolate_series_full].
Qed.

(** The extrapolation succeeds when every column has two valid points,
    and fills every column. *)
Lemma apply_extrap_Ok (scipy : interp1d_policy) (f : NodeFrame) :
  Forall (fun c : SeriesKey * list cell =>
            2 <= length (valid_points (nf_index f) c.2)) (nf_columns f) ->
  exists f', apply_extrap scipy f = Ok f' /\
             nf_index f' = nf_index f /\
             nf_keys f' = nf_keys f /\
             frame_full f'.
Proof.
  intros Hcols. unfold apply_extrap.
  set (g := fun c : SeriesKey * list cell =>
              s ← interp_linear_with_extrap scipy (nf_index f) c.2; Ok (c.1, s)).
  destruct (mapM_Ok_intro g (nf_columns f)) as [cols Hcols'].
  { eapply Forall_impl; [exact Hcols|]. intros c Hc. unfold g.
    destruct (interp_linear_with_extrap_Ok scipy _ _ Hc) as (s & -> & _). by eexists. }
  fold g. rewrite Hcols'. cbn [mbind result_bind]. eexists. split; [done|].
  cbn [nf_index]. repeat split.
  - unfold nf_keys. cbn [nf_columns]. apply mapM_Ok_inv in Hcols'.
    clear Hcols. induction Hcols' as [|c c' l l' Hc _ IH]; [done|].
    simpl. rewrite IH. f_equal. unfold g in Hc.
    destruct (interp_linear_with_extrap _ _); [|done]. by injection Hc as <-.
  - unfold frame_full. cbn [nf_columns nf_index]. apply mapM_Ok_inv in Hcols'.
    revert Hcols. induction Hcols' as [|c c' l l' Hc _ IH]; intros Hcols; [done|].
    apply Forall_cons in Hcols as [Hc2 Hcols]. constructor; [|by apply IH].
    unfold g in Hc.
    destruct (interp_linear_with_extrap_Ok scipy _ _ Hc2) as (s & Hs & Hl & Hv).
    rewrite Hs in Hc. by injection Hc as <-.
Qed.

Lemma apply_extrap_Raise (f : NodeFrame) :
  Exists (fun c : SeriesKey * list cell =>
            length (valid_points (nf_index f) c.2) < 2) (nf_columns f) ->
  apply_extrap Interp1dTwoPoints f = Raise ValueError.
Proof.
  intros Hex. unfold apply_extrap.
  rewrite (mapM_Raise _ _ ValueError); [done| |].
  - apply Forall_forall. intros c _.
    destruct (decide (length (valid_points (nf_index f) c.2) < 2)) as [Hlt|Hge].
    + right. by rewrite interp_linear_with_extrap_Raise.
    + left.
      destruct (interp_linear_with_extrap_Ok Interp1dTwoPoints (nf_index f) c.2)
        as (s & -> & _); [lia|]. by eexists.
  - eapply Exists_impl; [exact Hex|]. intros c Hc. simpl in *.
    by rewrite interp_linear_with_extrap_Raise.
Qed.

(** ** Stacking and unstacking *)

Section Stack.
Variable f : NodeFrame.
Hypothesis Hfull : frame_full f.

Lemma elem_of_stack (k : StackKey) (v : Q) :
  (k, v) ∈ stack f ->
  (k.2, k.1.2, k.1.1.2) ∈ nf_keys f /\ k.1.1.1 ∈ nf_index f.
Proof.
  unfold stack. rewrite list_elem_of_In, in_flat_map.
  intros ([c col] & Hc & Hk). apply list_elem_of_In in Hc, Hk.
  apply list_elem_of_omap in Hk as ([n cl] & Hz & Hv). simpl in Hv.
  destruct cl as [w|]; [|done]. simpl in Hv. injection Hv as Hk Hw. subst k v.
  destruct c as [[m t] s]. simpl in *. split.
  - apply list_elem_of_fmap. by exists (m, t, s, col).
  - apply list_elem_of_lookup in Hz as [i Hi].
    apply lookup_zip_with_Some in Hi as (n' & c' & Heq & Hn & _).
    injection Heq as Hn' _. subst n'. by eapply list_elem_of_lookup_2.
Qed.

Lemma stack_has (c : SeriesKey) (n : Z) :
  c ∈ nf_keys f -> n ∈ nf_index f ->
  exists v, ((n, c.2, c.1.2, c.1.1), v) ∈ stack f.
Proof.
  intros Hc Hn. apply list_elem_of_fmap in Hc as ([c' col] & -> & Hcol).
  pose proof Hfull as Hf. unfold frame_full in Hf. rewrite Forall_forall in Hf.
  destruct (Hf _ Hcol) as [Hlen Hval]. simpl in *.
  apply list_elem_of_lookup in Hn as [i Hi].
  destruct (lookup_lt_is_Some_2 col i) as [cl Hcl].
  { rewrite Hlen. by eapply lookup_lt_Some. }
  rewrite Forall_forall in Hval.
  destruct (Hval cl) as [v ->]; [by eapply list_elem_of_lookup_2|].
  exists v. unfold stack. apply list_elem_of_In, in_flat_map.
  exists (c', col). split; [by apply list_elem_of_In|].
  apply list_elem_of_In, list_elem_of_omap. exists (n, Some v). split; [|done].
  apply list_elem_of_lookup. exists i. apply lookup_zip_with_Some.
  by exists n, (Some v).
Qed.

Lemma elem_of_unstack_index (s : string) :
  s ∈ ff_index (unstack f (stack f))
  <-> (exists c, c ∈ nf_keys f /\ c.2 = s) /\ nf_index f <> [].
Proof.
  cbn [unstack ff_index]. rewrite elem_of_sort_unique, list_elem_of_fmap. split.
  - intros ([k v] & -> & Hk). apply elem_of_stack in Hk as [Hc Hn]. split.
    + eexists. split; [exact Hc|done].
    + intros Hnil. rewrite Hnil in Hn. by apply elem_of_nil in Hn.
  - intros [(c & Hc & <-) Hne]. destruct (nf_index f) as [|n idx] eqn:Hidx; [done|].
    destruct (stack_has c n Hc) as [v Hv]; [rewrite Hidx; apply list_elem_of_here|].
    by exists ((n, c.2, c.1.2, c.1.1), v).
Qed.

Lemma elem_of_unstack_tuples (k : ColumnKey) :
  k ∈ tuples (ff_columns (unstack f (stack f)))
  <-> (exists s, (k.1.1, k.1.2, s) ∈ nf_keys f) /\ k.2 ∈ nf_index f.
Proof.
  cbn [unstack ff_columns tuples]. rewrite elem_of_sort_unique, list_elem_of_fmap. split.
  - intros ([k' v] & -> & Hk). apply elem_of_stack in Hk as [Hc Hn].
    destruct k' as [[[n s] t] m]. simpl in *. split; [by exists s|done].
  - intros [[s Hs] Hn]. destruct (stack_has _ _ Hs Hn) as [v Hv].
    destruct k as [[m t] n]. simpl in *. by exists ((n, s, t, m), v).
Qed.
End Stack.

(** ** Putting the columns in order: [.loc] *)

Lemma transform_stages policy scipy df extrapolate add_bias_feature :
  transform policy scipy df extrapolate add_bias_feature
  = (interpolated ← interpolation_stage scipy extrapolate (pivot_table (melt df));
     if bool_decide (nf_columns interpolated = []) then Raise ValueError else
     features ← loc_columns policy (features_of interpolated)
                  (product_columns (features_of interpolated));
     Ok (assemble add_bias_feature (fillna_median features))).
Proof.
  unfold transform, interpolation_stage, assemble, group_index, features_of,
    product_columns.
  destruct (negb extrapolate); cbn [mbind result_bind].
  - destruct (bool_decide _); [done|].
    destruct (loc_columns _ _ _); cbn [mbind result_bind]; [|done].
    by destruct add_bias_feature.
  - destruct (apply_extrap _ _); cbn [mbind result_bind]; [|done].
    destruct (bool_decide _); [done|].
    destruct (loc_columns _ _ _); cbn [mbind result_bind]; [|done].
    by destruct add_bias_feature.
Qed.

Lemma find_zip_map {B} (keys : list ColumnKey) (g : ColumnKey -> B) (k : ColumnKey) :
  List.find (fun kc : ColumnKey * B => bool_decide (kc.1 = k)) (zip keys (map g keys))
  = if decide (k ∈ keys) then Some (k, g k) else None.
Proof.
  induction keys as [|k0 keys IH]; cbn [map zip zip_with List.find fst].
  - destruct (decide (k ∈ [])) as [Hin|]; [by apply elem_of_nil in Hin|done].
  - destruct (decide (k0 = k)) as [->|Hne].
    + rewrite bool_decide_eq_true_2 by done.
      rewrite decide_True; [done|]. apply list_elem_of_here.
    + rewrite bool_decide_eq_false_2 by done. rewrite IH.
      destruct (decide (k ∈ keys)) as [Hin|Hout].
      * rewrite decide_True; [done|]. by apply list_elem_of_further.
      * rewrite decide_False; [done|]. intros Hin.
        apply elem_of_cons in Hin as [?|?]; [congruence|done].
Qed.

Lemma ff_column_unstack (f : NodeFrame) (k : ColumnKey) :
  ff_column (features_of f) k
  = if decide (k ∈ tuples (ff_columns (features_of f)))
    then Some (unstacked_column f k) else None.
Proof.
  unfold ff_column, features_of, unstacked_column.
  cbn [unstack ff_columns ff_data tuples ff_index].
  rewrite find_zip_map. by destruct (decide _).
Qed.

Section Loc.
Variables (F : FeatureFrame) (new_columns : MultiIndex).

Lemma loc_guard_false :
  (tuples new_columns = [] \/
   exists k, k ∈ tuples new_columns /\ is_Some (ff_column F k)) ->
  forallb (fun c : option (list cell) => bool_decide (c = None))
          (map (ff_column F) (tuples new_columns))
  && negb (bool_decide (tuples new_columns = [])) = false.
Proof.
  intros [Hnil|(k & Hk & [col Hcol])].
  - rewrite (bool_decide_eq_true_2 _ Hnil). simpl. by rewrite andb_false_r.
  - apply andb_false_iff. left. apply not_true_iff_false. intros Hall.
    rewrite forallb_forall in Hall.
    specialize (Hall (ff_column F k)). rewrite Hcol in Hall.
    assert (bool_decide (Some col = None) = true) as Hb.
    { apply Hall. rewrite <-Hcol. apply in_map. by apply list_elem_of_In. }
    by apply bool_decide_eq_true in Hb.
Qed.


Lemma loc_columns_found (policy : loc_policy) :
  Forall (fun k => is_Some (ff_column F k)) (tuples new_columns) ->
  loc_columns policy F new_columns
  = Ok {| ff_index := ff_index F; ff_columns := new_columns;
          ff_data := map (reindexed_column F) (tuples new_columns) |}.
Proof.
  intros Hall. unfold loc_columns. cbv zeta. rewrite loc_guard_false.
  - rewrite (mapM_Ok _ (fun c : option (list cell) =>
               match c with Some col => col | None => map (fun _ => NaN) (ff_index F) end)).
    + cbn [mbind result_bind]. by rewrite map_map.
    + intros c Hc. apply list_elem_of_fmap in Hc as (k & -> & Hk).
      rewrite Forall_forall in Hall. destruct (Hall k Hk) as [col ->]. done.
  - destruct (tuples new_columns) as [|k l]; [by left|right].
    exists k. split; [apply list_elem_of_here|]. by apply Forall_cons in Hall as [? _].
Qed.

End Loc.

(** ** The median fill and the values *)

Lemma merge_sort_nil_inv {A} (R : relation A) `{!RelDecision R} (l : list A) :
  merge_sort R l = [] -> l = [].
Proof.
  intros Hnil. apply Permutation_nil_r. rewrite <-Hnil.
  symmetry. apply merge_sort_Permutation.
Qed.

Lemma median_all_missing (col : list cell) :
  Forall (fun c => c = NaN) col -> median col = NaN.
Proof.
  intros Hall. unfold median.
  assert (valid_values col = []) as ->.
  { unfold valid_values. induction Hall as [|c col -> _ IH]; [done|]. simpl. apply IH. }
  reflexivity.
Qed.

Lemma fillna_all_missing (col : list cell) :
  Forall (fun c => c = NaN) col ->
  map (fun c : cell => match c with Some v => Some v | None => median col end) col = col.
Proof.
  intros Hall. rewrite (median_all_missing col Hall).
  induction Hall as [|c col -> _ IH]; [done|]. simpl. by rewrite IH.
Qed.


Lemma ff_values_row_length (F : FeatureFrame) :
  Forall (fun r => length r = length (ff_data F)) (ff_values F).
Proof.
  unfold ff_values. apply Forall_forall. intros r Hr.
  apply list_elem_of_lookup in Hr as [i Hi].
  rewrite list_lookup_imap in Hi.
  destruct (ff_index F !! i); [|done]. simpl in Hi. injection Hi as <-.
  by rewrite length_map.
Qed.


(** ** The long-form table *)

Lemma elem_of_melt (df : DataFrame) (o : Obs) :
  o ∈ melt df
  <-> exists j m r,
      metric_columns df !! j = Some m /\ r ∈ df_rows df /\
      o = {| o_subject := subjectID r; o_tract := tractID r; o_node := nodeID r;
             o_metric := m; o_value := default NaN (metric_values r !! j) |}.
Proof.
  unfold melt. rewrite list_elem_of_In, in_flat_map. split.
  - intros ([j m] & Hjm & Ho). apply list_elem_of_In in Hjm, Ho.
    apply list_elem_of_lookup in Hjm as [i Hi]. rewrite list_lookup_imap in Hi.
    destruct (metric_columns df !! i) as [m'|] eqn:Hm; [|done].
    simpl in Hi. injection Hi as <- <-.
    apply list_elem_of_fmap in Ho as (r & -> & Hr). by exists i, m', r.
  - intros (j & m & r & Hm & Hr & ->). exists (j, m). split.
    + apply list_elem_of_In, list_elem_of_lookup. exists j.
      by rewrite list_lookup_imap, Hm.
    + apply list_elem_of_In, list_elem_of_fmap. by exists r.
Qed.

(** The table is a wide one: every row has every metric. *)
Lemma melt_cross (df : DataFrame) (o1 o2 : Obs) :
  o1 ∈ melt df -> o2 ∈ melt df ->
  exists o, o ∈ melt df /\ o_metric o = o_metric o1 /\ o_tract o = o_tract o2 /\
            o_subject o = o_subject o2.
Proof.
  intros (j1 & m1 & r1 & Hm1 & Hr1 & ->)%elem_of_melt
         (j2 & m2 & r2 & Hm2 & Hr2 & ->)%elem_of_melt.
  eexists. split; [apply elem_of_melt; by exists j1, m1, r2|]. done.
Qed.

Lemma elem_of_valid_nodes (long : list Obs) (c : SeriesKey) (n : Z) :
  n ∈ valid_nodes long c
  <-> exists o, o ∈ long /\ o_node o = n /\ obs_series o = c /\ is_Some (o_value o).
Proof.
  unfold valid_nodes. rewrite elem_of_remove_dups, list_elem_of_fmap. split.
  - intros (o & -> & Ho). apply list_elem_of_In, filter_In in Ho as [Ho Hb].
    apply bool_decide_eq_true in Hb as [Hc Hv]. exists o.
    split; [by apply list_elem_of_In|done].
  - intros (o & Ho & Hn & Hc & Hv). exists o. split; [done|].
    apply list_elem_of_In, filter_In. split; [by apply list_elem_of_In|].
    by apply bool_decide_eq_true.
Qed.

Lemma well_formed_valid (extrapolate : bool) (df : DataFrame) (o : Obs) :
  well_formed extrapolate df -> o ∈ melt df ->
  exists o', o' ∈ melt df /\ obs_series o' = obs_series o /\ is_Some (o_value o').
Proof.
  intros Hwf Ho. unfold well_formed in Hwf. rewrite Forall_forall in Hwf.
  specialize (Hwf o Ho).
  destruct (valid_nodes (melt df) (obs_series o)) as [|n l] eqn:Hv.
  { simpl in Hwf. destruct extrapolate; lia. }
  assert (n ∈ valid_nodes (melt df) (obs_series o)) as Hn.
  { rewrite Hv. apply list_elem_of_here. }
  apply elem_of_valid_nodes in Hn as (o' & ? & ? & ? & ?). by exists o'.
Qed.

(** The valid points of a column of the table by node are the valid
    nodes of its series. *)
Lemma valid_points_pivot (long : list Obs) (c : SeriesKey) :
  length (valid_points (nf_index (pivot_table long))
            (map (fun n => pivot_cell long n c) (nf_index (pivot_table long))))
  = length (valid_nodes long c).
Proof.
  pose proof (pivot_index_NoDup long) as Hnd.
  assert (forall n, n ∈ nf_index (pivot_table long) ->
                    is_Some (pivot_cell long n c) -> n ∈ valid_nodes long c) as H1.
  { intros n _ Hs. apply elem_of_valid_nodes. by apply pivot_cell_is_Some. }
  assert (forall n, n ∈ valid_nodes long c ->
                    n ∈ nf_index (pivot_table long) /\ is_Some (pivot_cell long n c)) as H2.
  { intros n (o & Ho & Hn & Hc & Hv)%elem_of_valid_nodes. split.
    - apply elem_of_pivot_index. by exists o.
    - apply pivot_cell_is_Some. by exists o. }
  unfold valid_points. generalize dependent (nf_index (pivot_table long)).
  intros idx Hnd H1 H2.
  transitivity (length (List.filter (fun n => bool_decide (is_Some (pivot_cell long n c))) idx)).
  - clear. induction idx as [|n idx IH]; [done|].
    cbn [map zip zip_with omap list_omap List.filter fst snd].
    destruct (pivot_cell long n c) as [v|]; cbn [mbind option_bind]; simpl;
      [f_equal|]; exact IH.
  - apply Permutation_length, NoDup_Permutation.
    + by apply NoDup_ListNoDup, List.NoDup_filter, NoDup_ListNoDup.
    + apply NoDup_remove_dups.
    + intros n. rewrite list_elem_of_In, filter_In, <-list_elem_of_In, bool_decide_eq_true.
      split; [intros [? ?]; by apply H1|apply H2].
Qed.

(** ** The interpolation stage succeeds on a well-formed table *)

Lemma well_formed_interpolable (extrapolate : bool) (df : DataFrame) :
  well_formed extrapolate df -> series_interpolable extrapolate df.
Proof.
  unfold well_formed, series_interpolable. intros Hwf.
  eapply Forall_impl; [exact Hwf|]. by intros o Ho _.
Qed.

Lemma interior_interpolable (df : DataFrame) : series_interpolable false df.
Proof.
  unfold series_interpolable. apply Forall_forall. intros o Ho Hv.
  assert (o_node o ∈ valid_nodes (melt df) (obs_series o)) as Hn.
  { apply elem_of_valid_nodes. by exists o. }
  destruct (valid_nodes (melt df) (obs_series o)); [by apply elem_of_nil in Hn|].
  simpl. lia.
Qed.

Lemma interpolation_stage_interpolable (scipy : interp1d_policy) (extrapolate : bool)
    (df : DataFrame) :
  series_interpolable extrapolate df ->
  exists f, interpolation_stage scipy extrapolate (pivot_table (melt df)) = Ok f /\
            nf_index f = nf_index (pivot_table (melt df)) /\
            nf_keys f = nf_keys (pivot_table (melt df)) /\
            frame_full f.
Proof.
  intros Hwf. unfold interpolation_stage. destruct extrapolate; cbn [negb].
  - apply apply_extrap_Ok. apply Forall_forall. intros [c col] Hc.
    pose proof (pivot_column_data _ _ _ Hc) as ->. cbn [snd].
    rewrite valid_points_pivot.
    assert (c ∈ map fst (nf_columns (pivot_table (melt df)))) as Hk.
    { apply list_elem_of_fmap. by eexists (c, _). }
    apply elem_of_pivot_columns in Hk as (o & Ho & <- & Hv).
    unfold series_interpolable in Hwf. rewrite Forall_forall in Hwf.
    exact (Hwf o Ho Hv).
  - eexists. split; [done|]. repeat split.
    + unfold nf_keys. cbn [interpolate nf_columns]. by rewrite map_map.
    + apply interpolate_pivot_full.
Qed.

Lemma interpolation_stage_ok (scipy : interp1d_policy) (extrapolate : bool)
    (df : DataFrame) :
  well_formed extrapolate df ->
  exists f, interpolation_stage scipy extrapolate (pivot_table (melt df)) = Ok f /\
            nf_index f = nf_index (pivot_table (melt df)) /\
            nf_keys f = nf_keys (pivot_table (melt df)) /\
            frame_full f.
Proof.
  intros Hwf. by apply interpolation_stage_interpolable, well_formed_interpolable.
Qed.

(** ** The columns of the product *)

Lemma elem_of_product (ms ts : list string) (ns : list Z) (k : ColumnKey) :
  k ∈ flat_map (fun m => flat_map (fun t => map (fun n => (m, t, n)) ns) ts) ms
  <-> k.1.1 ∈ ms /\ k.1.2 ∈ ts /\ k.2 ∈ ns.
Proof.
  rewrite list_elem_of_In, in_flat_map. split.
  - intros (m & Hm & Hk). apply in_flat_map in Hk as (t & Ht & Hk).
    apply in_map_iff in Hk as (n & <- & Hn). simpl.
    by rewrite !list_elem_of_In.
  - intros (Hm & Ht & Hn). destruct k as [[m t] n]. simpl in *.
    exists m. split; [by apply list_elem_of_In|].
    apply in_flat_map. exists t. split; [by apply list_elem_of_In|].
    apply in_map. by apply list_elem_of_In.
Qed.


Lemma sort_unique_string_idemp (l : list string) :
  sort_unique String.le (sort_unique String.le l) = sort_unique String.le l.
Proof. apply sort_unique_idemp; apply _. Qed.

Lemma sort_unique_Z_idemp (l : list Z) :
  sort_unique Z.le (sort_unique Z.le l) = sort_unique Z.le l.
Proof. apply sort_unique_idemp; apply _. Qed.

Lemma elem_of_filter_valid (long : list Obs) (o : Obs) :
  o ∈ List.filter (fun o => bool_decide (obs_valid o)) long
  <-> o ∈ long /\ is_Some (o_value o).
Proof.
  by rewrite list_elem_of_In, filter_In, <-list_elem_of_In, bool_decide_eq_true.
Qed.

Lemma elem_of_valid_metrics (df : DataFrame) (m : string) :
  m ∈ valid_metrics df
  <-> exists o, o ∈ melt df /\ o_metric o = m /\ is_Some (o_value o).
Proof.
  unfold valid_metrics. rewrite elem_of_remove_dups, list_elem_of_fmap. split.
  - intros (o & -> & [Ho Hv]%elem_of_filter_valid). by exists o.
  - intros (o & Ho & <- & Hv). exists o. split; [done|]. by apply elem_of_filter_valid.
Qed.

Lemma elem_of_valid_tracts (df : DataFrame) (t : string) :
  t ∈ valid_tracts df
  <-> exists o, o ∈ melt df /\ o_tract o = t /\ is_Some (o_value o).
Proof.
  unfold valid_tracts. rewrite elem_of_remove_dups, list_elem_of_fmap. split.
  - intros (o & -> & [Ho Hv]%elem_of_filter_valid). by exists o.
  - intros (o & Ho & <- & Hv). exists o. split; [done|]. by apply elem_of_filter_valid.
Qed.

(** ** The frame of features *)

Section Features.
Variables (df : DataFrame) (f : NodeFrame).
Hypothesis Hidx : nf_index f = nf_index (pivot_table (melt df)).
Hypothesis Hkeys : nf_keys f = nf_keys (pivot_table (melt df)).
Hypothesis Hfull : frame_full f.

Let F : FeatureFrame := features_of f.

Lemma features_levels :
  levels_metric (ff_columns F)
  = sort_unique String.le (map (fun c : SeriesKey => c.1.1) (nf_keys f)) /\
  levels_tract (ff_columns F)
  = sort_unique String.le (map (fun c : SeriesKey => c.1.2) (nf_keys f)) /\
  levels_node (ff_columns F) = nf_index f.
Proof.
  unfold F, features_of, nf_keys.
  cbn [unstack ff_columns levels_metric levels_tract levels_node].
  by rewrite !map_map.
Qed.

Lemma product_tuples :
  tuples (product_columns F)
  = flat_map (fun m => flat_map (fun t => map (fun n => (m, t, n)) (nf_index f))
                                (levels_tract (ff_columns F)))
             (levels_metric (ff_columns F)).
Proof. reflexivity. Qed.

Lemma product_levels :
  levels_metric (product_columns F) = levels_metric (ff_columns F) /\
  levels_tract (product_columns F) = levels_tract (ff_columns F) /\
  levels_node (product_columns F) = nf_index f.
Proof.
  unfold product_columns, F, features_of.
  cbn [from_product unstack ff_columns levels_metric levels_tract levels_node].
  rewrite Hidx. cbn [pivot_table nf_index].
  by rewrite !sort_unique_string_idemp, sort_unique_Z_idemp.
Qed.

Lemma levels_NoDup :
  NoDup (levels_metric (ff_columns F)) /\ NoDup (levels_tract (ff_columns F))
  /\ NoDup (nf_index f).
Proof.
  unfold F, features_of. cbn [unstack ff_columns levels_metric levels_tract].
  rewrite Hidx. cbn [pivot_table nf_index].
  repeat split; apply NoDup_sort_unique.
Qed.

Lemma elem_of_keys (c : SeriesKey) :
  c ∈ nf_keys f
  <-> exists o, o ∈ melt df /\ obs_series o = c /\ is_Some (o_value o).
Proof. rewrite Hkeys. apply elem_of_pivot_columns. Qed.

Lemma elem_of_level_metric (m : string) :
  m ∈ levels_metric (ff_columns F) <-> m ∈ valid_metrics df.
Proof.
  destruct features_levels as (-> & _ & _).
  rewrite elem_of_sort_unique, list_elem_of_fmap, elem_of_valid_metrics. split.
  - intros (c & -> & Hc). apply elem_of_keys in Hc as (o & Ho & <- & Hv). by exists o.
  - intros (o & Ho & <- & Hv). exists (obs_series o). split; [done|].
    apply elem_of_keys. by exists o.
Qed.

Lemma elem_of_level_tract (t : string) :
  t ∈ levels_tract (ff_columns F) <-> t ∈ valid_tracts df.
Proof.
  destruct features_levels as (_ & -> & _).
  rewrite elem_of_sort_unique, list_elem_of_fmap, elem_of_valid_tracts. split.
  - intros (c & -> & Hc). apply elem_of_keys in Hc as (o & Ho & <- & Hv). by exists o.
  - intros (o & Ho & <- & Hv). exists (obs_series o). split; [done|].
    apply elem_of_keys. by exists o.
Qed.

Lemma elem_of_node_index (n : Z) :
  n ∈ nf_index f <-> n ∈ distinct_valid_nodes df.
Proof.
  rewrite Hidx, elem_of_pivot_index. unfold distinct_valid_nodes.
  rewrite elem_of_remove_dups, list_elem_of_fmap. split.
  - intros (o & Ho & Hn & Hv). exists o. split; [done|]. by apply elem_of_filter_valid.
  - intros (o & -> & [Ho Hv]%elem_of_filter_valid). by exists o.
Qed.

(** The columns of the product: the metrics and the tracts that carry a
    valid value, and the nodes that carry one. *)
Lemma elem_of_product_valid (k : ColumnKey) :
  k ∈ tuples (product_columns F)
  <-> k.1.1 ∈ valid_metrics df /\ k.1.2 ∈ valid_tracts df
      /\ k.2 ∈ distinct_valid_nodes df.
Proof.
  by rewrite product_tuples, elem_of_product, elem_of_node_index,
    elem_of_level_metric, elem_of_level_tract.
Qed.


Lemma found_iff (k : ColumnKey) :
  is_Some (ff_column F k)
  <-> (exists o, o ∈ melt df /\ o_metric o = k.1.1 /\ o_tract o = k.1.2
                 /\ is_Some (o_value o))
      /\ k.2 ∈ nf_index f.
Proof.
  unfold F. rewrite ff_column_unstack.
  destruct (decide (k ∈ tuples (ff_columns (features_of f)))) as [Hin|Hout].
  - split; [intros _|by eexists].
    apply (elem_of_unstack_tuples f Hfull) in Hin as [[s Hs] Hn]. split; [|done].
    apply elem_of_keys in Hs as (o & Ho & Hc & Hv). exists o.
    unfold obs_series in Hc. by injection Hc as ? ? ?.
  - split; [by intros [? ?]|]. intros [(o & Ho & Hm & Ht & Hv) Hn].
    exfalso. apply Hout. apply (elem_of_unstack_tuples f Hfull). split; [|done].
    exists (o_subject o). apply elem_of_keys. exists o.
    unfold obs_series. by rewrite Hm, Ht.
Qed.

Section WellFormed.
Variable extrapolate : bool.
Hypothesis Hwf : well_formed extrapolate df.

(** In a well-formed table every metric and every tract carries a valid
    value. *)
Lemma valid_metrics_wf (m : string) : m ∈ valid_metrics df <-> m ∈ distinct_metrics df.
Proof.
  rewrite elem_of_valid_metrics. unfold distinct_metrics.
  rewrite elem_of_remove_dups, list_elem_of_fmap. split.
  - intros (o & Ho & <- & _). by exists o.
  - intros (o & -> & Ho).
    destruct (well_formed_valid _ _ _ Hwf Ho) as (o' & Ho' & Hs & Hv).
    exists o'. unfold obs_series in Hs. injection Hs as Hs _ _. done.
Qed.

Lemma valid_tracts_wf (t : string) : t ∈ valid_tracts df <-> t ∈ distinct_tracts df.
Proof.
  rewrite elem_of_valid_tracts. unfold distinct_tracts.
  rewrite elem_of_remove_dups, list_elem_of_fmap. split.
  - intros (o & Ho & <- & _). by exists o.
  - intros (o & -> & Ho).
    destruct (well_formed_valid _ _ _ Hwf Ho) as (o' & Ho' & Hs & Hv).
    exists o'. unfold obs_series in Hs. injection Hs as _ Hs _. done.
Qed.



Lemma elem_of_product_tuples (k : ColumnKey) :
  k ∈ tuples (product_columns F)
  <-> k.1.1 ∈ distinct_metrics df /\ k.1.2 ∈ distinct_tracts df
      /\ k.2 ∈ distinct_valid_nodes df.
Proof. by rewrite elem_of_product_valid, valid_metrics_wf, valid_tracts_wf. Qed.

Lemma product_all_found :
  Forall (fun k => is_Some (ff_column F k)) (tuples (product_columns F)).
Proof.
  apply Forall_forall. intros k Hk. apply found_iff.
  pose proof Hk as Hk'. rewrite product_tuples, elem_of_product in Hk'.
  destruct Hk' as (_ & _ & Hn). split; [|done].
  apply elem_of_product_tuples in Hk as (Hm & Ht & _).
  unfold distinct_metrics, distinct_tracts in Hm, Ht.
  rewrite elem_of_remove_dups, list_elem_of_fmap in Hm, Ht.
  destruct Hm as (o1 & Hm & Ho1). destruct Ht as (o2 & Ht & Ho2).
  destruct (melt_cross df o1 o2 Ho1 Ho2) as (o & Ho & Hom & Hot & _).
  destruct (well_formed_valid _ _ _ Hwf Ho) as (o' & Ho' & Hs & Hv).
  exists o'. unfold obs_series in Hs. injection Hs as Hs1 Hs2 _.
  repeat split; [done|congruence|congruence|done].
Qed.

Lemma elem_of_features_index (s : string) :
  s ∈ ff_index F <-> s ∈ distinct_subjects df.
Proof.
  unfold F, features_of. rewrite (elem_of_unstack_index f Hfull).
  unfold distinct_subjects. rewrite elem_of_remove_dups, list_elem_of_fmap. split.
  - intros [(c & Hc & <-) _]. apply elem_of_keys in Hc as (o & Ho & <- & _).
    by exists o.
  - intros (o & -> & Ho).
    destruct (well_formed_valid _ _ _ Hwf Ho) as (o' & Ho' & Hs & Hv). split.
    + exists (obs_series o). split; [|done]. apply elem_of_keys. by exists o'.
    + intros Hnil. assert (o_node o' ∈ nf_index f) as Hn.
      { rewrite Hidx. apply elem_of_pivot_index. by exists o'. }
      rewrite Hnil in Hn. by apply elem_of_nil in Hn.
Qed.

End WellFormed.
End Features.

(** A table with a record whose series has a valid value has a table by
    node with a column. *)
Lemma pivot_has_column (df : DataFrame) (f : NodeFrame) (o : Obs) :
  nf_keys f = nf_keys (pivot_table (melt df)) ->
  o ∈ melt df -> is_Some (o_value o) -> nf_columns f <> [].
Proof.
  intros Hkeys Ho Hv Hnil.
  assert (obs_series o ∈ nf_keys f) as Hc.
  { rewrite Hkeys. apply elem_of_pivot_columns. by exists o. }
  unfold nf_keys in Hc. rewrite Hnil in Hc. by apply elem_of_nil in Hc.
Qed.

(** ** The shape of the feature matrix *)

Lemma length_fillna_data (F : FeatureFrame) :
  length (ff_data (fillna_median F)) = length (ff_data F).
Proof. cbn [fillna_median ff_data]. by rewrite length_map. Qed.

Lemma hstack_ones_rows (rows : list (list cell)) (n : nat) :
  Forall (fun r => length r = n) rows ->
  length (hstack_ones rows) = length rows /\
  Forall (fun r => length r = n + 1) (hstack_ones rows) /\
  Forall (fun r => r !! n = Some (Some 1%Q)) (hstack_ones rows).
Proof.
  intros Hrows. unfold hstack_ones. split; [by rewrite length_map|].
  split; apply Forall_forall; intros r Hr;
    apply list_elem_of_fmap in Hr as (r0 & -> & Hr0);
    rewrite Forall_forall in Hrows; specialize (Hrows r0 Hr0).
  - rewrite length_app. simpl. lia.
  - rewrite lookup_app_r by lia. by rewrite Hrows, Nat.sub_diag.
Qed.

(** What a well-formed table is turned into. *)
Lemma transform_well_formed (policy : loc_policy) (scipy : interp1d_policy)
    (df : DataFrame) (extrapolate add_bias_feature : bool) :
  melt df <> [] ->
  well_formed extrapolate df ->
  exists (f : NodeFrame) (F : FeatureFrame),
    transform policy scipy df extrapolate add_bias_feature
      = Ok (assemble add_bias_feature (fillna_median F)) /\
    ff_index F = ff_index (features_of f) /\
    ff_columns F = product_columns (features_of f) /\
    ff_data F = map (reindexed_column (features_of f))
                    (tuples (product_columns (features_of f))) /\
    nf_index f = nf_index (pivot_table (melt df)) /\
    nf_keys f = nf_keys (pivot_table (melt df)) /\
    frame_full f.
Proof.
  intros Hne Hwf.
  destruct (interpolation_stage_ok scipy extrapolate df Hwf)
    as (f & Hstage & Hidx & Hkeys & Hfull).
  assert (Forall (fun k => is_Some (ff_column (features_of f) k))
                 (tuples (product_columns (features_of f)))) as Hfound
    by (eapply product_all_found; eassumption).
  pose proof (loc_columns_found (features_of f) (product_columns (features_of f))
                policy Hfound) as Hloc.
  assert (nf_columns f <> []) as Hcols.
  { assert (exists o, o ∈ melt df) as [o Ho].
    { destruct (melt df) as [|o long] eqn:Hm; [congruence|].
      exists o. apply list_elem_of_here. }
    destruct (well_formed_valid _ _ _ Hwf Ho) as (o' & Ho' & _ & Hv).
    exact (pivot_has_column df f o' Hkeys Ho' Hv). }
  eexists f, _. split.
  { rewrite transform_stages, Hstage. cbn [mbind result_bind].
    rewrite bool_decide_eq_false_2 by done.
    rewrite Hloc. cbn [mbind result_bind]. reflexivity. }
  by cbn [ff_index ff_columns ff_data].
Qed.


(** ** The groups of the columns *)

Lemma membership_codes (columns : MultiIndex) :
  zip_with (fun cm ct => cm * length (levels_tract columns) + ct)
           (codes_metric columns) (codes_tract columns)
  = map (group_code columns) (tuples columns).
Proof.
  unfold codes_metric, codes_tract, group_code.
  induction (tuples columns) as [|k l IH]; [done|]. simpl. by rewrite IH.
Qed.

Lemma code_inj (T i j i' j' : nat) :
  j < T -> j' < T -> i * T + j = i' * T + j' -> i = i' /\ j = j'.
Proof.
  intros Hj Hj' Heq.
  destruct (Nat.lt_trichotomy i i') as [Hlt|[->|Hgt]].
  - assert ((i + 1) * T <= i' * T) by (apply Nat.mul_le_mono_r; lia). lia.
  - split; [done|lia].
  - assert ((i' + 1) * T <= i * T) by (apply Nat.mul_le_mono_r; lia). lia.
Qed.

Section ProductGroups.
Variable columns : MultiIndex.
Hypothesis Hms : NoDup (levels_metric columns).
Hypothesis Hts : NoDup (levels_tract columns).
Hypothesis Htuples :
  tuples columns
  = flat_map (fun m => flat_map (fun t => map (fun n => (m, t, n)) (levels_node columns))
                                (levels_tract columns))
             (levels_metric columns).

Let N := length (levels_node columns).
Let G := length (levels_metric columns) * length (levels_tract columns).

Lemma membership_blocks :
  map (group_code columns) (tuples columns) = blocks N 0 G.
Proof. rewrite Htuples. unfold group_code. by apply product_codes. Qed.

Lemma n_columns_blocks : n_columns columns = G * N.
Proof.
  unfold n_columns. by rewrite <-(length_map (group_code columns)),
    membership_blocks, length_blocks.
Qed.

Lemma group_index_lookup (g : nat) (idx : list nat) :
  group_index columns !! g = Some idx ->
  N <> 0 /\ g < G /\
  idx = np_where (map (fun c => c =? g) (map (group_code columns) (tuples columns))) /\
  idx = seq (g * N) N.
Proof.
  unfold group_index. cbv zeta. rewrite membership_codes, membership_blocks.
  destruct (decide (N = 0)) as [HN|HN].
  - assert (blocks N 0 G = []) as ->.
    { apply length_zero_iff_nil. rewrite length_blocks. lia. }
    done.
  - rewrite sort_unique_blocks by done. rewrite list_lookup_fmap.
    intros Hg. destruct (seq 0 G !! g) as [g'|] eqn:Hs; [|done].
    apply lookup_seq in Hs as [-> Hlt]. simpl in Hg. injection Hg as <-.
    split; [done|]. split; [done|]. split; [done|].
    unfold np_where. rewrite where_from_blocks by lia. f_equal. lia.
Qed.

Lemma concat_group_index : concat (group_index columns) = seq 0 (n_columns columns).
Proof.
  rewrite n_columns_blocks. unfold group_index. cbv zeta.
  rewrite membership_codes, membership_blocks.
  destruct (decide (N = 0)) as [HN|HN].
  - assert (blocks N 0 G = []) as ->.
    { apply length_zero_iff_nil. rewrite length_blocks. lia. }
    rewrite HN, Nat.mul_0_r. done.
  - rewrite groups_of_blocks by done. apply concat_runs.
Qed.

Lemma length_group_index :
  N <> 0 -> length (group_index columns) = G.
Proof.
  intros HN. unfold group_index. cbv zeta.
  rewrite membership_codes, membership_blocks, groups_of_blocks by done.
  by rewrite length_map, length_seq.
Qed.

Lemma group_code_pair (k k' : ColumnKey) :
  k ∈ tuples columns -> k' ∈ tuples columns ->
  group_code columns k = group_code columns k'
  <-> k.1.1 = k'.1.1 /\ k.1.2 = k'.1.2.
Proof.
  rewrite Htuples, !elem_of_product. intros (Hm & Ht & _) (Hm' & Ht' & _).
  unfold group_code. split; [|by intros [-> ->]].
  intros Heq.
  pose proof (index_of_lt _ _ Ht) as H1. pose proof (index_of_lt _ _ Ht') as H2.
  assert (index_of k.1.1 (levels_metric columns) = index_of k'.1.1 (levels_metric columns)
          /\ index_of k.1.2 (levels_tract columns) = index_of k'.1.2 (levels_tract columns))
    as [Hi Hj] by (by eapply code_inj).
  split; eapply index_of_inj; eassumption.
Qed.
End ProductGroups.

(** Claim C6.  For every well-formed table (it has a record, every
    series has a valid value, two for the extrapolation, and the values
    are of moderate magnitude), [transform] returns a matrix whose
    columns are those of the returned column index, followed by the bias
    when it is asked for, and groups that partition the positions of the
    columns other than the bias: their concatenation is the list of all
    these positions in order, so that every position is in exactly one
    group and the groups are contiguous.  The group at position [g] is
    not empty and holds exactly the columns whose code, metric rank times
    number of tracts plus tract rank, is [g]; two columns have the same
    code exactly when they have the same metric and the same tract. *)
Theorem group_index_partition (policy : loc_policy) (scipy : interp1d_policy)
    (df : DataFrame) (extrapolate add_bias_feature : bool) :
  melt df <> [] ->
  well_formed extrapolate df ->
  moderate df ->
  exists (n : nat) (rows : list (list cell)) (groups : list (list nat))
         (columns : MultiIndex) (bias_index : option nat),
    transform policy scipy df extrapolate add_bias_feature
      = Ok (Mat n rows, groups, columns, bias_index) /\
    n = n_columns columns + (if add_bias_feature then 1 else 0) /\
    Forall (fun r => length r = n) rows /\
    bias_index = (if add_bias_feature then Some (n_columns columns) else None) /\
    concat groups = seq 0 (n_columns columns) /\
    (forall g idx,
        groups !! g = Some idx ->
        idx <> [] /\
        idx = seq (g * length (levels_node columns)) (length (levels_node columns)) /\
        (forall j, j ∈ idx
                   <-> exists k, tuples columns !! j = Some k /\ group_code columns k = g)) /\
    (forall k k' : ColumnKey,
        k ∈ tuples columns -> k' ∈ tuples columns ->
        group_code columns k = group_code columns k'
        <-> k.1.1 = k'.1.1 /\ k.1.2 = k'.1.2).
Proof.
  intros Hne Hwf _.
  destruct (transform_well_formed policy scipy df extrapolate add_bias_feature Hne Hwf)
    as (f & F & Htr & HFi & HFc & HFd & Hidx & Hkeys & Hfull).
  destruct (product_levels df f Hidx) as (HLm & HLt & HLn).
  destruct (levels_NoDup df f Hidx) as (Hnm & Hnt & Hnn).
  set (C := product_columns (features_of f)) in *.
  assert (NoDup (levels_metric C)) as HCm by (by rewrite HLm).
  assert (NoDup (levels_tract C)) as HCt by (by rewrite HLt).
  assert (tuples C
          = flat_map (fun m => flat_map (fun t => map (fun n => (m, t, n)) (levels_node C))
                                        (levels_tract C)) (levels_metric C)) as HCp.
  { rewrite HLm, HLt, HLn. apply product_tuples. }
  assert (Forall (fun r => length r = n_columns C) (ff_values (fillna_median F))) as Hrows.
  { eapply Forall_impl; [apply ff_values_row_length|]. intros r ->.
    by rewrite length_fillna_data, HFd, length_map. }
  assert (ff_columns (fillna_median F) = C) as HC by (by cbn [fillna_median ff_columns]).
  assert (forall g idx,
             group_index C !! g = Some idx ->
             idx <> [] /\
             idx = seq (g * length (levels_node C)) (length (levels_node C)) /\
             (forall j, j ∈ idx
                        <-> exists k, tuples C !! j = Some k /\ group_code C k = g))
    as Hgroups.
  { intros g idx Hg.
    destruct (group_index_lookup C HCm HCt HCp g idx Hg) as (HN & Hlt & Hw & Hs).
    split; [|split; [done|]].
    - rewrite Hs. destruct (length (levels_node C)); [done|]. done.
    - intros j. rewrite Hw, np_where_elem, !list_lookup_fmap.
      destruct (tuples C !! j) as [k|]; simpl.
      + split.
        * intros [= Heq]. exists k. split; [done|]. by apply Nat.eqb_eq.
        * intros (k' & [= <-] & <-). by rewrite Nat.eqb_refl.
      + split; [done|]. by intros (k' & ? & _). }
  rewrite Htr. unfold assemble. rewrite HC.
  destruct add_bias_feature.
  - destruct (hstack_ones_rows _ _ Hrows) as (_ & Hr & _).
    eexists _, _, (group_index C), C, _. split; [reflexivity|].
    split; [done|]. split; [exact Hr|]. split; [done|].
    split; [by apply concat_group_index|]. split; [exact Hgroups|].
    intros k k'. by apply group_code_pair.
  - eexists _, _, (group_index C), C, _. split; [reflexivity|].
    split; [by rewrite Nat.add_0_r|]. split; [exact Hrows|]. split; [done|].
    split; [by apply concat_group_index|]. split; [exact Hgroups|].
    intros k k'. by apply group_code_pair.
Qed.

(** ** A pair of metric and tract without any valid value *)



(** ** Tables without missing values *)

Lemma interpolate_complete (f : NodeFrame) :
  frame_complete f -> interpolate f = f.
Proof.
  intros Hc. destruct f as [idx cols]. unfold interpolate, frame_complete in *.
  cbn [nf_index nf_columns] in *. f_equal.
  induction Hc as [|[c col] cols Hcol _ IH]; [done|].
  cbn [map fst snd] in *. rewrite IH. f_equal. f_equal.
  by apply interpolate_from_complete.
Qed.

(** ** The values of the input are kept *)

Lemma mean_singleton (q : Q) : mean [q] = Some q.
Proof.
  unfold mean, Qsum. simpl. f_equal. destruct q as [n d].
  unfold Qdiv, Qmult, Qplus, Qinv. simpl. f_equal; [lia|].
  by rewrite !Pos.mul_1_r.
Qed.

Lemma group_values_absent (long : list Obs) (n : Z) (c : SeriesKey) :
  (n, c) ∉ map (fun o => (o_node o, obs_series o)) long -> group_values long n c = [].
Proof.
  unfold group_values. induction long as [|o long IH]; intros Hout; [done|].
  simpl in *. apply not_elem_of_cons in Hout as [Hne Hout].
  rewrite decide_False; [by apply IH|]. intros [<- <-]. done.
Qed.

Lemma group_values_unique (long : list Obs) (o : Obs) (q : Q) :
  unique_keys long -> o ∈ long -> o_value o = Some q ->
  group_values long (o_node o) (obs_series o) = [q].
Proof.
  unfold unique_keys. intros Hnd Ho Hq.
  induction long as [|o' long IH]; [by apply elem_of_nil in Ho|].
  simpl in Hnd. apply NoDup_cons in Hnd as [Hout Hnd].
  apply elem_of_cons in Ho as [<-|Ho].
  - unfold group_values. simpl. rewrite decide_True by done. rewrite Hq. simpl.
    f_equal. by apply group_values_absent.
  - unfold group_values. simpl.
    rewrite decide_False.
    + by apply IH.
    + intros [Hn Hc]. apply Hout. rewrite Hn, Hc.
      by apply (list_elem_of_fmap_2 (fun o => (o_node o, obs_series o))).
Qed.

Lemma pivot_cell_unique (long : list Obs) (o : Obs) (q : Q) :
  unique_keys long -> o ∈ long -> o_value o = Some q ->
  pivot_cell long (o_node o) (obs_series o) = Some q.
Proof.
  intros Hnd Ho Hq. unfold pivot_cell.
  rewrite (group_values_unique long o q Hnd Ho Hq). apply mean_singleton.
Qed.

Lemma index_of_elem `{EqDecision A} (l : list A) (x : A) :
  x ∈ l -> l !! index_of x l = Some x.
Proof.
  induction l as [|y l IH]; intros Hx; [by apply elem_of_nil in Hx|].
  simpl. destruct (decide (y = x)) as [->|Hne]; [done|].
  apply elem_of_cons in Hx as [?|Hx]; [congruence|]. by apply IH.
Qed.

Lemma find_key_map {B} (keys : list SeriesKey) (g : SeriesKey -> B) (c : SeriesKey) :
  c ∈ keys ->
  List.find (fun kc : SeriesKey * B => bool_decide (kc.1 = c)) (map (fun k => (k, g k)) keys)
  = Some (c, g c).
Proof.
  induction keys as [|k keys IH]; intros Hc; [by apply elem_of_nil in Hc|].
  simpl. destruct (decide (k = c)) as [->|Hne].
  - by rewrite bool_decide_eq_true_2.
  - rewrite bool_decide_eq_false_2 by done.
    apply elem_of_cons in Hc as [?|Hc]; [congruence|]. by apply IH.
Qed.

(** The interior policy keeps every valid value of the input where the
    input has it. *)
Lemma input_values_kept (df : DataFrame) (o : Obs) (q : Q) :
  unique_keys (melt df) -> o ∈ melt df -> o_value o = Some q ->
  nf_cell (interpolate (pivot_table (melt df))) (obs_series o) (o_node o) = Some q.
Proof.
  intros Hnd Ho Hq. set (long := melt df) in *.
  assert (o_node o ∈ nf_index (pivot_table long)) as Hn.
  { apply elem_of_pivot_index. exists o. split; [done|]. split; [done|]. by eexists. }
  assert (obs_series o ∈ sort_unique series_le (map snd (agged_keys long))) as Hc.
  { apply elem_of_sort_unique, list_elem_of_fmap. exists (o_node o, obs_series o).
    split; [done|]. apply elem_of_agged_keys. exists o.
    split; [done|]. split; [done|]. split; [done|]. by eexists. }
  unfold nf_cell. cbn [interpolate nf_columns nf_index pivot_table]. rewrite map_map.
  cbn [fst snd].
  rewrite (find_key_map _ (fun c => interpolate_series
             (map (fun n => pivot_cell long n c) (sort_unique Z.le (map fst (agged_keys long)))))
             _ Hc).
  cbn [snd]. unfold interpolate_series.
  erewrite interpolate_from_valid; [done|].
  rewrite list_lookup_fmap. change (sort_unique Z.le (map fst (agged_keys long)))
    with (nf_index (pivot_table long)).
  rewrite (index_of_elem _ _ Hn). simpl. f_equal. by apply pivot_cell_unique.
Qed.

(** Claim C8, as amended.  For every table without missing values and
    without two records of one subject, tract, node and metric, the
    interpolation stage under the interior policy returns every value of
    the table unchanged, at its series and its node; and it returns the
    table by node as it is when that has no missing entry (every series
    is sampled at every node). *)
Theorem interpolation_complete_table (scipy : interp1d_policy) (df : DataFrame) :
  unique_keys (melt df) ->
  Forall (fun o => is_Some (o_value o)) (melt df) ->
  exists f : NodeFrame,
    interpolation_stage scipy false (pivot_table (melt df)) = Ok f /\
    (forall o, o ∈ melt df -> nf_cell f (obs_series o) (o_node o) = o_value o) /\
    (frame_complete (pivot_table (melt df)) -> f = pivot_table (melt df)).
Proof.
  intros Huniq Hvalid. exists (interpolate (pivot_table (melt df))).
  split; [done|]. split.
  - intros o Ho. rewrite Forall_forall in Hvalid.
    destruct (Hvalid o Ho) as [q Hq]. rewrite Hq.
    by apply input_values_kept.
  - apply interpolate_complete.
Qed.

(** ** The statements at concrete tables *)


(** The round trip of the specification: two rows, twelve columns and the
    bias, four groups of three columns. *)
Example transform_round_trip :
  exists rows columns,
    transform LocStrict Interp1dTwoPoints df_round_trip false true
    = Ok (Mat 13 rows, [[0; 1; 2]; [3; 4; 5]; [6; 7; 8]; [9; 10; 11]], columns, Some 12)
    /\ length rows = 2
    /\ Forall (fun r => r !! 12 = Some (Some 1%Q)) rows.
Proof.
  eexists _, _. split; [vm_compute; reflexivity|].
  split; [reflexivity|]. repeat constructor.
Qed.


Lemma group_index_partition_witness :
  exists (n : nat) (rows : list (list cell)) (groups : list (list nat))
         (columns : MultiIndex) (bias_index : option nat),
    transform LocStrict Interp1dTwoPoints df_round_trip false true
      = Ok (Mat n rows, groups, columns, bias_index) /\
    n = n_columns columns + 1 /\
    Forall (fun r => length r = n) rows /\
    bias_index = Some (n_columns columns) /\
    concat groups = seq 0 (n_columns columns) /\
    (forall g idx,
        groups !! g = Some idx ->
        idx <> [] /\
        idx = seq (g * length (levels_node columns)) (length (levels_node columns)) /\
        (forall j, j ∈ idx
                   <-> exists k, tuples columns !! j = Some k /\ group_code columns k = g)) /\
    (forall k k' : ColumnKey,
        k ∈ tuples columns -> k' ∈ tuples columns ->
        group_code columns k = group_code columns k'
        <-> k.1.1 = k'.1.1 /\ k.1.2 = k'.1.2).
Proof.
  apply (group_index_partition LocStrict Interp1dTwoPoints df_round_trip false true).
  - vm_compute. discriminate.
  - apply (bool_decide_unpack (well_formed false df_round_trip)). vm_compute. exact I.
  - apply (bool_decide_unpack (moderate df_round_trip)). vm_compute. exact I.
Defined.



Lemma interpolation_complete_table_witness :
  exists f : NodeFrame,
    interpolation_stage Interp1dTwoPoints false (pivot_table (melt df_round_trip))
    = Ok f /\
    (forall o, o ∈ melt df_round_trip ->
               nf_cell f (obs_series o) (o_node o) = o_value o) /\
    (frame_complete (pivot_table (melt df_round_trip)) ->
     f = pivot_table (melt df_round_trip)).
Proof.
  apply (interpolation_complete_table Interp1dTwoPoints df_round_trip).
  - apply (bool_decide_unpack (unique_keys (melt df_round_trip))). vm_compute. exact I.
  - apply (bool_decide_unpack
             (Forall (fun o => is_Some (o_value o)) (melt df_round_trip))).
    vm_compute. exact I.
Defined.

(** C8, the claim as worded fails for the extrapolation policy.  The
    table [df_single] has one node and no missing value: the releases of
    scipy that need two points refuse its series, and with the others
    the series comes back all missing.  And where the extrapolation
    returns a series it has recomputed every value from the line through
    two of its points: in doubles the series 0.03, 0.3 at the nodes 0
    and 1 comes back with 0.30000000000000004 at node 1. *)
Lemma extrapolation_changes_complete_table :
  unique_keys (melt df_single) /\
  Forall (fun o => is_Some (o_value o)) (melt df_single) /\
  frame_complete (pivot_table (melt df_single)) /\
  interpolation_stage Interp1dTwoPoints true (pivot_table (melt df_single))
    = Raise ValueError /\
  interpolation_stage Interp1dOnePoint true (pivot_table (melt df_single))
    = Ok {| nf_index := [0%Z]; nf_columns := [(("FA", "A", "s1"), [NaN])] |} /\
  (forall policy,
      transform policy Interp1dTwoPoints df_single true true = Raise ValueError) /\
  (forall policy,
      transform policy Interp1dOnePoint df_single true true = Raise KeyError) /\
  interp1d_line_binary64 0 (3 / 100) 1 (3 / 10) 1 = 0x1.3333333333334p-2%float /\
  PrimFloat.eqb (interp1d_line_binary64 0 (3 / 100) 1 (3 / 10) 1) (3 / 10) = false.
Proof.
  split; [apply (bool_decide_unpack (unique_keys (melt df_single))); vm_compute; exact I|].
  split; [repeat constructor; by eexists|].
  split; [vm_compute; repeat constructor; by eexists|].
  split; [vm_compute; reflexivity|].
  split; [vm_compute; reflexivity|].
  split; [intros []; vm_compute; reflexivity|].
  split; [intros []; vm_compute; reflexivity|].
  split; vm_compute; reflexivity.
Qed.

(** ** Selecting several groups *)

Lemma select_groups_fold (Ls : list (list atom)) (label_sets : list (gset atom))
    (f : gset atom -> bool) :
  fold_left (fun mask label => logical_or mask (issubset label label_sets))
            Ls (map f label_sets)
  = map (fun s => f s || existsb (fun L => bool_decide (matches L s)) Ls) label_sets.
Proof.
  revert f. induction Ls as [|L Ls IH]; intros f; simpl.
  - apply map_ext. intros s. by rewrite orb_false_r.
  - unfold logical_or, issubset at 2.
    rewrite zip_with_fmap_l, zip_with_fmap_r, zip_with_diag.
    change (fold_left _ Ls ?m) with
      (fold_left (fun mask label => logical_or mask (issubset label label_sets)) Ls m).
    rewrite (IH (fun s => f s || bool_decide (matches L s))).
    apply map_ext. intros s. by rewrite orb_assoc.
Qed.

(** The mask [select_groups] builds holds where some label is matched. *)
Lemma select_groups_mask (Ls : list (list atom)) (label_sets : list (gset atom)) :
  fold_left (fun mask label => logical_or mask (issubset label label_sets))
            Ls (zeros_like label_sets)
  = map (fun s => existsb (fun L => bool_decide (matches L s)) Ls) label_sets.
Proof. unfold zeros_like. by rewrite select_groups_fold. Qed.

Lemma select_groups_kept {A} (x : ndarray A) (Ls : list (list atom))
    (label_sets : list (gset atom)) :
  ndarray_wf x ->
  width x = Some (length label_sets) ->
  select_groups x Ls label_sets
  = Ok (take_columns
          (np_where (map (fun s => existsb (fun L => bool_decide (matches L s)) Ls)
                         label_sets)) x).
Proof.
  intros Hwf Hw. unfold select_groups. rewrite select_groups_mask.
  apply getitem_by_mask; [done|]. by rewrite length_map.
Qed.

Lemma existsb_matches (Ls : list (list atom)) (s : gset atom) :
  existsb (fun L => bool_decide (matches L s)) Ls = true
  <-> exists L, L ∈ Ls /\ matches L s.
Proof.
  rewrite existsb_exists. split.
  - intros (L & HL & Hm). exists L. split; [by apply list_elem_of_In|].
    by apply bool_decide_eq_true in Hm.
  - intros (L & HL & Hm). exists L. split; [by apply list_elem_of_In|].
    by apply bool_decide_eq_true.
Qed.

(** X1.  [select_groups] keeps the columns whose label set is a superset
    of one of the labels at least, and no other: for an array of rank
    one or two with one label set per column, it returns the columns at
    an ascending list of positions (the original order), and a position
    is in the list exactly when some label of the list is matched by the
    label set at the position. *)
Theorem select_groups_keeps_matching {A} (x : ndarray A) (Ls : list (list atom))
    (label_sets : list (gset atom)) :
  ndarray_wf x ->
  width x = Some (length label_sets) ->
  exists kept : list nat,
    select_groups x Ls label_sets = Ok (take_columns kept x) /\
    StronglySorted lt kept /\
    (forall i, i ∈ kept
               <-> exists s L, label_sets !! i = Some s /\ L ∈ Ls /\ matches L s).
Proof.
  intros Hwf Hw. eexists. split; [by apply select_groups_kept|].
  split; [apply np_where_sorted|].
  intros i. rewrite np_where_elem, list_lookup_fmap. split.
  - destruct (label_sets !! i) as [s|] eqn:Hs; [|done]. simpl.
    intros [= He]. apply existsb_matches in He as (L & HL & Hm). by exists s, L.
  - intros (s & L & -> & HL & Hm). simpl. f_equal.
    apply existsb_matches. by exists L.
Qed.

Lemma select_groups_keeps_matching_witness :
  exists kept : list nat,
    select_groups x_demo [[LStr "MD"]; [LStr "Right Cingulum"]] sets_demo
      = Ok (take_columns kept x_demo) /\
    StronglySorted lt kept /\
    (forall i, i ∈ kept
               <-> exists s L, sets_demo !! i = Some s
                               /\ L ∈ [[LStr "MD"]; [LStr "Right Cingulum"]]
                               /\ matches L s).
Proof.
  apply (select_groups_keeps_matching x_demo
           [[LStr "MD"]; [LStr "Right Cingulum"]] sets_demo).
  - simpl. repeat constructor.
  - reflexivity.
Defined.

(** X2.  The result of [select_groups] depends on the labels as a set:
    two lists with the same labels, in any order and with any
    repetition, select the same columns (the same array, or the same
    error). *)
Theorem select_groups_same_labels {A} (x : ndarray A) (Ls Ls' : list (list atom))
    (label_sets : list (gset atom)) :
  (forall L, L ∈ Ls <-> L ∈ Ls') ->
  select_groups x Ls label_sets = select_groups x Ls' label_sets.
Proof.
  intros Hsame. unfold select_groups. rewrite !select_groups_mask.
  assert (map (fun s => existsb (fun L => bool_decide (matches L s)) Ls) label_sets
          = map (fun s => existsb (fun L => bool_decide (matches L s)) Ls') label_sets)
    as ->; [|done].
  apply map_ext. intros s. apply eq_true_iff_eq. rewrite !existsb_matches.
  split; intros (L & HL & Hm); exists L; (split; [by apply Hsame|done]).
Qed.

Lemma select_groups_same_labels_witness :
  select_groups x_demo [[LStr "MD"]; [LStr "Right Cingulum"]] sets_demo
  = select_groups x_demo [[LStr "Right Cingulum"]; [LStr "MD"]; [LStr "MD"]] sets_demo.
Proof.
  apply (select_groups_same_labels x_demo).
  intros L. rewrite !elem_of_cons, !elem_of_nil. tauto.
Defined.

(** ** What the four selections refuse *)

Lemma length_remove_groups_mask (Ls : list (list atom)) (label_sets : list (gset atom)) :
  length (fold_left (fun mask label =>
                       logical_or mask (logical_not (issubset label label_sets)))
                    Ls (zeros_like label_sets))
  = length label_sets.
Proof. by rewrite remove_groups_mask, length_map. Qed.

Lemma length_select_groups_mask (Ls : list (list atom)) (label_sets : list (gset atom)) :
  length (fold_left (fun mask label => logical_or mask (issubset label label_sets))
                    Ls (zeros_like label_sets))
  = length label_sets.
Proof. by rewrite select_groups_mask, length_map. Qed.

(** Indexing by a mask of another length than the axis. *)
Lemma getitem_wrong_mask {A} (x : ndarray A) (mask : list bool) (w : nat) :
  width x = Some w -> w <> length mask ->
  match x with
  | Mat n rows => getitem_cols_mask n rows mask
  | Vec v => getitem_mask v mask
  | _ => Raise ValueError
  end = Raise IndexError.
Proof.
  intros Hw Hne. destruct x as [a|v|n rows|shape data]; simpl in *; try done;
    injection Hw as <-.
  - unfold getitem_mask. by rewrite (proj2 (Nat.eqb_neq _ _)) by done.
  - unfold getitem_cols_mask. by rewrite (proj2 (Nat.eqb_neq _ _)) by done.
Qed.

(** X3.  What [select_group], [remove_group], [select_groups] and
    [remove_groups] refuse.  On an array that is neither a vector nor a
    matrix each of them raises [ValueError]; on a vector or a matrix
    whose number of columns is not the number of label sets each of them
    raises [IndexError] (the mask does not fit the axis); on one with as
    many columns as label sets none of them raises. *)
Theorem group_selection_errors {A} (x : ndarray A) (L : list atom)
    (Ls : list (list atom)) (label_sets : list (gset atom)) :
  let calls := [ select_group x L label_sets; remove_group x L label_sets;
                 select_groups x Ls label_sets; remove_groups x Ls label_sets ] in
  (width x = None -> Forall (fun r => r = Raise ValueError) calls) /\
  (forall w, width x = Some w -> w <> length label_sets ->
             Forall (fun r => r = Raise IndexError) calls) /\
  (width x = Some (length label_sets) ->
   Forall (fun r => exists y : ndarray A, r = Ok y /\ ndim y = ndim x) calls).
Proof.
  intros calls. split; [|split].
  - intros Hw. destruct x as [a|v|n rows|shape data]; try done;
      repeat constructor.
  - intros w Hw Hne. unfold calls, select_group, remove_group, select_groups, remove_groups.
    repeat constructor; apply (getitem_wrong_mask x _ w Hw);
      by rewrite ?length_logical_not, ?length_issubset,
                 ?length_select_groups_mask, ?length_remove_groups_mask.
  - intros Hw. unfold calls, select_group, remove_group, select_groups, remove_groups.
    destruct x as [a|v|n rows|shape data]; try done; injection Hw as Hw;
      unfold getitem_mask, getitem_cols_mask;
      rewrite ?length_logical_not, ?length_issubset,
              ?length_select_groups_mask, ?length_remove_groups_mask, Hw, Nat.eqb_refl;
      repeat constructor; by eexists.
Qed.

(** ** Labels that ask for more *)

Lemma compress_all_true {A} (l : list A) :
  compress (map (fun _ => true) l) l = l.
Proof. induction l as [|a l IH]; simpl; [done|]. by rewrite IH. Qed.

Lemma compress_true_mask {A} (mask : list bool) (l : list A) :
  Forall (fun b => b = true) mask -> length mask = length l -> compress mask l = l.
Proof.
  intros Hm. revert l. induction Hm as [|b mask -> _ IH]; intros [|a l] Hlen;
    simplify_eq/=; [done|]. by rewrite IH.
Qed.

Lemma where_from_true_mask (i : nat) (mask : list bool) :
  Forall (fun b => b = true) mask -> where_from i mask = seq i (length mask).
Proof.
  intros Hm. revert i. induction Hm as [|b mask -> _ IH]; intros i; simpl; [done|].
  by rewrite IH.
Qed.

(** Indexing by a mask that holds everywhere returns the array. *)
Lemma getitem_true_mask {A} (x : ndarray A) (mask : list bool) :
  ndarray_wf x -> width x = Some (length mask) ->
  Forall (fun b => b = true) mask ->
  match x with
  | Mat n rows => getitem_cols_mask n rows mask
  | Vec v => getitem_mask v mask
  | _ => Raise ValueError
  end = Ok x.
Proof.
  intros Hwf Hw Hm. destruct x as [a|v|n rows|shape data]; simpl in *; try done;
    injection Hw as Hw.
  - unfold getitem_mask. rewrite Hw, Nat.eqb_refl. by rewrite compress_true_mask.
  - unfold getitem_cols_mask. rewrite Hw, Nat.eqb_refl.
    unfold np_where. rewrite where_from_true_mask, length_seq by done.
    do 2 f_equal. rewrite <-(map_id rows) at 2. apply map_ext_in. intros r Hr.
    apply compress_true_mask; [done|]. rewrite Forall_forall in Hwf.
    apply list_elem_of_In, Hwf in Hr. lia.
Qed.

(** X4.  A label with more components selects fewer columns, and the
    empty label selects them all: when every component of [L] is a
    component of [L'], every position [select_group] keeps for [L'] it
    keeps for [L]; and [select_group] with the empty label returns the
    array itself, [remove_group] with it the array without any column. *)
Theorem select_group_refines {A} (x : ndarray A) (L L' : list atom)
    (label_sets : list (gset atom)) :
  ndarray_wf x ->
  width x = Some (length label_sets) ->
  (forall a, a ∈ L -> a ∈ L') ->
  exists kept kept' : list nat,
    select_group x L label_sets = Ok (take_columns kept x) /\
    select_group x L' label_sets = Ok (take_columns kept' x) /\
    (forall i, i ∈ kept' -> i ∈ kept) /\
    select_group x [] label_sets = Ok x /\
    remove_group x [] label_sets = Ok (take_columns [] x).
Proof.
  intros Hwf Hw Hsub.
  exists (np_where (issubset L label_sets)), (np_where (issubset L' label_sets)).
  assert (forall s, matches [] s) as Hall.
  { intros s. unfold matches. simpl. apply empty_subseteq. }
  split; [|split; [|split; [|split]]].
  - unfold select_group. apply getitem_by_mask; [done|]. by rewrite length_issubset.
  - unfold select_group. apply getitem_by_mask; [done|]. by rewrite length_issubset.
  - intros i. rewrite !np_where_elem. unfold issubset. rewrite !list_lookup_fmap.
    destruct (label_sets !! i) as [s|]; [|done]. simpl.
    intros [= Hm]. f_equal. apply bool_decide_eq_true in Hm. apply bool_decide_eq_true.
    unfold matches in *. intros a Ha. apply Hm.
    apply elem_of_list_to_set in Ha. apply elem_of_list_to_set. by apply Hsub.
  - unfold select_group. apply getitem_true_mask; [done|by rewrite length_issubset|].
    apply Forall_forall. intros b Hb. unfold issubset in Hb.
    apply list_elem_of_fmap in Hb as (s & -> & _). by apply bool_decide_eq_true.
  - unfold remove_group.
    assert (logical_not (issubset [] label_sets) = zeros_like label_sets) as ->.
    { unfold logical_not, issubset, zeros_like. rewrite map_map. apply map_ext.
      intros s. by rewrite bool_decide_eq_true_2. }
    rewrite (getitem_by_mask x (zeros_like label_sets)); [|done|].
    + by rewrite np_where_zeros.
    + unfold zeros_like. by rewrite length_map.
Qed.

Lemma select_group_refines_witness :
  exists kept kept' : list nat,
    select_group x_demo [LStr "FA"] sets_demo = Ok (take_columns kept x_demo) /\
    select_group x_demo [LStr "FA"; LStr "Left Cingulum"] sets_demo
      = Ok (take_columns kept' x_demo) /\
    (forall i, i ∈ kept' -> i ∈ kept) /\
    select_group x_demo [] sets_demo = Ok x_demo /\
    remove_group x_demo [] sets_demo = Ok (take_columns [] x_demo).
Proof.
  apply (select_group_refines x_demo [LStr "FA"] [LStr "FA"; LStr "Left Cingulum"]
           sets_demo).
  - simpl. repeat constructor.
  - reflexivity.
  - intros a. rewrite !elem_of_cons, !elem_of_nil. tauto.
Defined.

(** ** The group extractor *)

Lemma length_np_isin (element test_elements : list Z) :
  length (np_isin element test_elements) = length element.
Proof. unfold np_isin. by rewrite length_map. Qed.

(** X5.  [GroupExtractor.transform] keeps the columns of the groups to
    extract: on a matrix with one group index per column it returns the
    columns at an ascending list of positions, a position being in the
    list exactly when the group index there is one of those to extract.
    One integer stands for the sequence of that integer alone. *)
Theorem group_extractor_columns {A} (n : nat) (rows : list (list A))
    (extract groups : int_or_seq) :
  ndarray_wf (Mat n rows) ->
  length (np_array groups) = n ->
  exists kept : list nat,
    GroupExtractor.transform
      {| GroupExtractor.extract := Some extract; GroupExtractor.groups := Some groups |}
      (Mat n rows)
    = Ok (take_columns kept (Mat n rows)) /\
    StronglySorted lt kept /\
    (forall i, i ∈ kept
               <-> exists g, np_array groups !! i = Some g /\ g ∈ np_array extract).
Proof.
  intros Hwf Hn. eexists. split; [|split].
  - unfold GroupExtractor.transform. cbn [GroupExtractor.groups GroupExtractor.extract].
    unfold getitem_axis1_mask.
    apply (getitem_by_mask (Mat n rows)); [done|].
    cbn [width]. by rewrite length_np_isin, Hn.
  - apply np_where_sorted.
  - intros i. rewrite np_where_elem. unfold np_isin. rewrite list_lookup_fmap.
    destruct (np_array groups !! i) as [g|]; simpl.
    + split.
      * intros [= Hg]. apply bool_decide_eq_true in Hg. by exists g.
      * intros (g' & [= <-] & Hg). f_equal. by apply bool_decide_eq_true.
    + split; [done|]. by intros (g' & ? & _).
Qed.

Lemma group_extractor_columns_witness :
  exists kept : list nat,
    GroupExtractor.transform
      {| GroupExtractor.extract := Some (OneInt 1);
         GroupExtractor.groups := Some (IntSeq [0; 1; 1]%Z) |}
      x_demo
    = Ok (take_columns kept x_demo) /\
    StronglySorted lt kept /\
    (forall i, i ∈ kept
               <-> exists g, np_array (IntSeq [0; 1; 1]%Z) !! i = Some g
                             /\ g ∈ np_array (OneInt 1)).
Proof.
  apply (group_extractor_columns 3 [[10; 20; 30]; [11; 21; 31]]
           (OneInt 1) (IntSeq [0; 1; 1]%Z)).
  - simpl. repeat constructor.
  - reflexivity.
Defined.

(** X6.  [GroupExtractor.transform] returns its input as it is when a
    parameter is missing, whatever the input; and it returns a matrix as
    it is when every group index of the columns is among those to
    extract. *)
Theorem group_extractor_identity {A} (x : ndarray A) (self : GroupExtractor.t) :
  (GroupExtractor.extract self = None \/ GroupExtractor.groups self = None ->
   GroupExtractor.transform self x = Ok x) /\
  (forall extract groups,
      GroupExtractor.extract self = Some extract ->
      GroupExtractor.groups self = Some groups ->
      ndarray_wf x -> ndim x = 2 ->
      width x = Some (length (np_array groups)) ->
      (forall g, g ∈ np_array groups -> g ∈ np_array extract) ->
      GroupExtractor.transform self x = Ok x).
Proof.
  split.
  - unfold GroupExtractor.transform. intros [-> | ->]; [|done].
    by destruct (GroupExtractor.groups self).
  - intros extract groups He Hg Hwf Hdim Hw Hall.
    unfold GroupExtractor.transform. rewrite He, Hg.
    destruct x as [a|v|n rows|shape data]; try done.
    unfold getitem_axis1_mask.
    apply (getitem_true_mask (Mat n rows)); [done|by rewrite length_np_isin|].
    apply Forall_forall. intros b Hb. unfold np_isin in Hb.
    apply list_elem_of_fmap in Hb as (g & -> & Hin).
    apply bool_decide_eq_true. by apply Hall.
Qed.

(** X7.  What [GroupExtractor.transform] refuses when both parameters
    are given: a vector ([x[:, mask]] has an index too many), and a
    matrix whose number of columns is not the number of group indices;
    both with [IndexError]. *)
Theorem group_extractor_errors {A} (extract groups : int_or_seq) :
  let self := {| GroupExtractor.extract := Some extract;
                 GroupExtractor.groups := Some groups |} in
  (forall v : list A, GroupExtractor.transform self (Vec v) = Raise IndexError) /\
  (forall (n : nat) (rows : list (list A)),
      n <> length (np_array groups) ->
      GroupExtractor.transform self (Mat n rows) = Raise IndexError).
Proof.
  split; [done|]. intros n rows Hn.
  unfold GroupExtractor.transform, getitem_axis1_mask, getitem_cols_mask. simpl.
  rewrite length_np_isin. rewrite (proj2 (Nat.eqb_neq _ _)); [done|]. congruence.
Qed.

(** ** The extractor of the most important groups *)

Lemma slice_to_subseteq {A} (n m : Z) (l : list A) :
  (0 <= n <= m)%Z -> forall a, a ∈ slice_to n l -> a ∈ slice_to m l.
Proof.
  intros Hnm a. unfold slice_to.
  rewrite (proj2 (Z.leb_le 0 n)), (proj2 (Z.leb_le 0 m)) by lia.
  intros Ha. apply list_elem_of_lookup in Ha as [i Hi].
  apply lookup_take_Some in Hi as [Hi Hlt].
  apply list_elem_of_lookup. exists i. apply lookup_take_Some. split; [done|lia].
Qed.

(** X8.  A larger [top_n] never loses a column: for [0 <= n <= m] every
    position [TopNGroupsExtractor.transform] keeps with [top_n = n] it
    keeps with [top_n = m]. *)
Theorem top_n_monotone {A} (x : ndarray A) (labels : list (list atom))
    (label_sets : list (gset atom)) (n m : Z) :
  ndarray_wf x ->
  width x = Some (length label_sets) ->
  (0 <= n <= m)%Z ->
  exists kept_n kept_m : list nat,
    TopNGroupsExtractor.transform
      {| TopNGroupsExtractor.top_n := n;
         TopNGroupsExtractor.labels_by_importance := Some labels;
         TopNGroupsExtractor.all_labels := Some label_sets |} x
    = Ok (take_columns kept_n x) /\
    TopNGroupsExtractor.transform
      {| TopNGroupsExtractor.top_n := m;
         TopNGroupsExtractor.labels_by_importance := Some labels;
         TopNGroupsExtractor.all_labels := Some label_sets |} x
    = Ok (take_columns kept_m x) /\
    (forall i, i ∈ kept_n -> i ∈ kept_m).
Proof.
  intros Hwf Hw Hnm. unfold TopNGroupsExtractor.transform.
  cbn [TopNGroupsExtractor.top_n TopNGroupsExtractor.labels_by_importance
       TopNGroupsExtractor.all_labels].
  eexists _, _. split; [by apply select_groups_kept|].
  split; [by apply select_groups_kept|].
  intros i. rewrite !np_where_elem, !list_lookup_fmap.
  destruct (label_sets !! i) as [s|]; [|done]. simpl.
  intros [= He]. f_equal. apply existsb_matches in He as (L & HL & Hm).
  apply existsb_matches. exists L. split; [|done]. by eapply slice_to_subseteq.
Qed.

Lemma top_n_monotone_witness :
  exists kept_n kept_m : list nat,
    TopNGroupsExtractor.transform
      {| TopNGroupsExtractor.top_n := 1;
         TopNGroupsExtractor.labels_by_importance
           := Some [[LStr "MD"]; [LStr "Right Cingulum"]];
         TopNGroupsExtractor.all_labels := Some sets_demo |} x_demo
    = Ok (take_columns kept_n x_demo) /\
    TopNGroupsExtractor.transform
      {| TopNGroupsExtractor.top_n := 2;
         TopNGroupsExtractor.labels_by_importance
           := Some [[LStr "MD"]; [LStr "Right Cingulum"]];
         TopNGroupsExtractor.all_labels := Some sets_demo |} x_demo
    = Ok (take_columns kept_m x_demo) /\
    (forall i, i ∈ kept_n -> i ∈ kept_m).
Proof.
  apply (top_n_monotone x_demo [[LStr "MD"]; [LStr "Right Cingulum"]] sets_demo 1 2).
  - simpl. repeat constructor.
  - reflexivity.
  - lia.
Defined.

Lemma slice_to_all {A} (n : Z) (l : list A) :
  (Z.of_nat (length l) <= n)%Z -> slice_to n l = l.
Proof.
  intros Hn. unfold slice_to. rewrite (proj2 (Z.leb_le 0 n)) by lia.
  apply firstn_all2. lia.
Qed.

Lemma slice_to_negative {A} (k : nat) (l : list A) :
  0 < k -> slice_to (- Z.of_nat k) l = firstn (length l - k) l.
Proof.
  intros Hk. unfold slice_to. rewrite (proj2 (Z.leb_gt _ _)) by lia.
  by rewrite Z.opp_involutive, Nat2Z.id.
Qed.

(** X9.  The edges of [top_n].  With [top_n] at least the number of
    labels, [TopNGroupsExtractor.transform] selects by all the labels;
    with [top_n = 0] it selects by none and returns the matrix without
    any column; with a negative [top_n = -k] it selects by all the
    labels but the [k] least important ones (the slice counts from the
    end), so that [-1] is not "all of them" nor "none"; without labels or
    label sets it returns its input. *)
Theorem top_n_edges {A} (x : ndarray A) (labels : list (list atom))
    (label_sets : list (gset atom)) :
  let extractor n := {| TopNGroupsExtractor.top_n := n;
                        TopNGroupsExtractor.labels_by_importance := Some labels;
                        TopNGroupsExtractor.all_labels := Some label_sets |} in
  (forall n, (Z.of_nat (length labels) <= n)%Z ->
             TopNGroupsExtractor.transform (extractor n) x
             = select_groups x labels label_sets) /\
  (width x = Some (length label_sets) ->
   TopNGroupsExtractor.transform (extractor 0%Z) x = Ok (take_columns [] x)) /\
  (forall k, 0 < k ->
             TopNGroupsExtractor.transform (extractor (- Z.of_nat k)%Z) x
             = select_groups x (firstn (length labels - k) labels) label_sets) /\
  (forall self, TopNGroupsExtractor.labels_by_importance self = None
                \/ TopNGroupsExtractor.all_labels self = None ->
                TopNGroupsExtractor.transform self x = Ok x).
Proof.
  intros extractor. unfold TopNGroupsExtractor.transform, extractor.
  cbn [TopNGroupsExtractor.top_n TopNGroupsExtractor.labels_by_importance
       TopNGroupsExtractor.all_labels].
  split; [|split; [|split]].
  - intros n Hn. by rewrite slice_to_all.
  - intros Hw. unfold slice_to. simpl. unfold select_groups. simpl.
    destruct x as [a|v|n rows|shape data]; simpl in *; try done; injection Hw as Hw.
    + unfold getitem_mask, zeros_like. rewrite length_map, Hw, Nat.eqb_refl.
      change (map (fun _ => false) label_sets) with (zeros_like label_sets).
      by rewrite compress_zeros.
    + unfold getitem_cols_mask, zeros_like. rewrite length_map, Hw, Nat.eqb_refl.
      change (map (fun _ => false) label_sets) with (zeros_like label_sets).
      rewrite np_where_zeros. simpl. do 2 f_equal.
      apply map_ext. intros r. by rewrite compress_zeros.
  - intros k Hk. by rewrite slice_to_negative.
  - intros self [-> | ->]; [done|]. by destruct (TopNGroupsExtractor.labels_by_importance self).
Qed.

(** ** What a shuffle moves *)

Section AssignMask.
Context {A : Type}.
Implicit Types (mask : list bool) (old new l : list A).

Lemma length_assign_mask mask old new :
  length (assign_mask mask old new) = length old.
Proof.
  revert old new. induction mask as [|b mask IH]; intros [|a old] new; simpl; try done.
  destruct b; [destruct new|]; simpl; by rewrite IH.
Qed.

Lemma compress_not_assign_mask mask old new :
  compress (logical_not mask) (assign_mask mask old new)
  = compress (logical_not mask) old.
Proof.
  revert old new. induction mask as [|b mask IH]; intros [|a old] new; simpl; try done.
  destruct b; [destruct new|]; simpl; by rewrite IH.
Qed.

Lemma length_compress_from mask l i :
  length mask = length l -> length (compress mask l) = length (where_from i mask).
Proof.
  revert l i. induction mask as [|b mask IH]; intros [|a l] i Hlen; simplify_eq/=;
    [done|]. destruct b; simpl; by rewrite (IH l (S i)).
Qed.

Lemma length_compress mask l :
  length mask = length l -> length (compress mask l) = length (np_where mask).
Proof. apply length_compress_from. Qed.

Lemma compress_assign_mask mask old new :
  length mask = length old -> length new = length (np_where mask) ->
  compress mask (assign_mask mask old new) = new.
Proof.
  unfold np_where. generalize 0. intros i. revert old new i.
  induction mask as [|b mask IH]; intros [|a old] new i Hlen Hnew; simplify_eq/=.
  - by destruct new.
  - destruct b; simpl in *.
    + destruct new as [|c new]; simplify_eq/=. f_equal. by apply (IH old new (S i)).
    + by apply (IH old new (S i)).
Qed.

Lemma assign_mask_all_false mask old new :
  Forall (fun b => b = false) mask -> assign_mask mask old new = old.
Proof.
  intros Hm. revert old new. induction Hm as [|b mask -> _ IH]; intros [|a old] new;
    simpl; try done. by rewrite IH.
Qed.

Lemma length_chunks (k n : nat) l : length (chunks k n l) = k.
Proof. revert l. induction k as [|k IH]; intros l; simpl; [done|]. by rewrite IH. Qed.

Lemma concat_chunks (k n : nat) l :
  length l = k * n -> concat (chunks k n l) = l.
Proof.
  revert l. induction k as [|k IH]; intros l Hl; simpl.
  - by destruct l.
  - rewrite IH; [apply firstn_skipn|]. rewrite length_skipn. lia.
Qed.

Lemma chunks_lengths (k n : nat) l :
  length l = k * n -> Forall (fun c => length c = n) (chunks k n l).
Proof.
  revert l. induction k as [|k IH]; intros l Hl; simpl; constructor.
  - rewrite length_firstn. lia.
  - apply IH. rewrite length_skipn. lia.
Qed.

Lemma length_concat_uniform (n : nat) (ls : list (list A)) :
  Forall (fun c => length c = n) ls -> length (concat ls) = length ls * n.
Proof.
  induction 1 as [|c ls Hc _ IH]; simpl; [done|]. rewrite length_app, Hc, IH. lia.
Qed.
End AssignMask.

Lemma map_zip_with_keep {A B C} (f : A -> C) (g : A -> B -> A) (rows : list A)
    (cs : list B) :
  length rows = length cs ->
  (forall r c, f (g r c) = f r) ->
  map f (zip_with g rows cs) = map f rows.
Proof.
  intros Hlen Hf. revert cs Hlen. induction rows as [|r rows IH]; intros [|c cs] Hlen;
    simplify_eq/=; [done|]. by rewrite Hf, IH.
Qed.

Lemma map_zip_with_new {A B} (f : A -> B) (g : A -> B -> A) (rows : list A)
    (cs : list B) (P : A -> Prop) (Q : B -> Prop) :
  length rows = length cs ->
  Forall P rows -> Forall Q cs ->
  (forall r c, P r -> Q c -> f (g r c) = c) ->
  map f (zip_with g rows cs) = cs.
Proof.
  intros Hlen Hrows Hcs Hf. revert cs Hlen Hcs.
  induction Hrows as [|r rows Hr _ IH]; intros [|c cs] Hlen Hcs; simplify_eq/=; [done|].
  apply Forall_cons in Hcs as [Hc Hcs]. by rewrite Hf, IH.
Qed.

Lemma zip_with_keep {A B} (g : A -> B -> A) (rows : list A) (cs : list B) :
  length rows = length cs -> (forall r c, g r c = r) -> zip_with g rows cs = rows.
Proof.
  intros Hlen Hg. revert cs Hlen. induction rows as [|r rows IH]; intros [|c cs] Hlen;
    simplify_eq/=; [done|]. by rewrite Hg, IH.
Qed.

Section ShuffleMoves.
Context `{RandomState} {A : Type}.

Lemma shuffle_section_accepted (random_seed : option Z) (section : list A) (g : rng) :
  seed_accepted random_seed ->
  exists g0 g', shuffle_section random_seed section g
                = (Ok (rng_shuffle A section g0).1, g').
Proof.
  unfold shuffle_section. destruct random_seed as [s|]; simpl.
  - intros [seeded ->]. exists seeded, g. by destruct (rng_shuffle A section seeded).
  - intros _. exists g. destruct (rng_shuffle A section g) as [l g']. by exists g'.
Qed.

(** What [shuffle_group] returns for a matrix: the rows with the entries
    of the group replaced, row by row, by the shuffled pool. *)
Lemma shuffle_group_matrix (n : nat) (rows : list (list A)) (label : list atom)
    (label_sets : list (gset atom)) (random_seed : option Z) (g : rng) :
  length label_sets = n ->
  seed_accepted random_seed ->
  exists g0 g',
    shuffle_group (Mat n rows) label label_sets random_seed g
    = (Ok (Mat n (zip_with (assign_mask (issubset label label_sets)) rows
                    (chunks (length rows)
                       (length (np_where (issubset label label_sets)))
                       (rng_shuffle A
                          (concat (map (compress (issubset label label_sets)) rows))
                          g0).1))),
       g').
Proof.
  intros Hn Hseed. unfold shuffle_group.
  rewrite length_issubset, Hn, Nat.eqb_refl.
  destruct (shuffle_section_accepted random_seed
              (concat (map (compress (issubset label label_sets)) rows)) g Hseed)
    as (g0 & g' & ->).
  by exists g0, g'.
Qed.

(** X10.  [shuffle_group] moves the entries of the group and nothing
    else.  With a generator whose shuffle permutes its argument, for a
    matrix with one label set per column and an accepted seed (or none),
    the call returns a matrix of the same shape; outside of the group it
    is the input ([remove_group] returns the same for both); and the
    entries of the group ([select_group], row after row) are those of
    the input in another order: they are shuffled as one pool, across
    rows and columns. *)
Theorem shuffle_group_permutes (n : nat) (rows : list (list A)) (label : list atom)
    (label_sets : list (gset atom)) (random_seed : option Z) (g : rng) :
  (forall (l : list A) (g0 : rng), (rng_shuffle A l g0).1 ≡ₚ l) ->
  ndarray_wf (Mat n rows) ->
  length label_sets = n ->
  seed_accepted random_seed ->
  exists (rows' : list (list A)) (g' : rng) (k : nat) (sel sel' : list (list A)),
    shuffle_group (Mat n rows) label label_sets random_seed g = (Ok (Mat n rows'), g') /\
    ndarray_wf (Mat n rows') /\
    length rows' = length rows /\
    remove_group (Mat n rows') label label_sets
    = remove_group (Mat n rows) label label_sets /\
    select_group (Mat n rows) label label_sets = Ok (Mat k sel) /\
    select_group (Mat n rows') label label_sets = Ok (Mat k sel') /\
    concat sel' ≡ₚ concat sel.
Proof.
  intros Hperm Hwf Hn Hseed.
  destruct (shuffle_group_matrix n rows label label_sets random_seed g Hn Hseed)
    as (g0 & g' & Hsh).
  set (mask := issubset label label_sets) in *.
  set (k := length (np_where mask)) in *.
  set (section := map (compress mask) rows) in *.
  set (flat := (rng_shuffle A (concat section) g0).1) in *.
  assert (length mask = n) as Hmask by (unfold mask; by rewrite length_issubset).
  simpl in Hwf.
  assert (Forall (fun c => length c = k) section) as Hsec.
  { unfold section. apply Forall_fmap. eapply Forall_impl; [exact Hwf|].
    intros r Hr. cbv beta in Hr. apply length_compress. lia. }
  assert (length flat = length rows * k) as Hflat.
  { unfold flat. rewrite (Permutation_length (Hperm _ _)).
    rewrite (length_concat_uniform k) by done. unfold section. by rewrite length_map. }
  assert (length rows = length (chunks (length rows) k flat)) as Hlen
    by (by rewrite length_chunks).
  exists (zip_with (assign_mask mask) rows (chunks (length rows) k flat)), g', k,
         section, (chunks (length rows) k flat).
  split; [exact Hsh|]. split; [|split; [|split; [|split; [|split]]]].
  - simpl. apply Forall_forall. intros r' Hr'.
    apply elem_of_lookup_zip_with in Hr' as (i & r & c & -> & Hr & Hc).
    rewrite length_assign_mask. rewrite Forall_forall in Hwf.
    apply Hwf. by eapply list_elem_of_lookup_2.
  - rewrite length_zip_with. lia.
  - unfold remove_group, getitem_cols_mask. fold mask.
    rewrite length_logical_not, Hmask, Nat.eqb_refl. do 2 f_equal.
    apply map_zip_with_keep; [done|]. intros r c. apply compress_not_assign_mask.
  - unfold select_group, getitem_cols_mask. fold mask.
    by rewrite Hmask, Nat.eqb_refl.
  - unfold select_group, getitem_cols_mask. fold mask.
    rewrite Hmask, Nat.eqb_refl. do 2 f_equal.
    apply (map_zip_with_new _ _ _ _ (fun r => length r = n) (fun c => length c = k));
      [done|done|by apply chunks_lengths|].
    intros r c Hr Hc. apply compress_assign_mask; [lia|done].
  - rewrite concat_chunks by done. apply Hperm.
Qed.

(** X11.  A label that no column matches leaves the matrix as it is:
    [shuffle_group] then returns its input, for every generator and
    every accepted seed. *)
Theorem shuffle_group_no_match (n : nat) (rows : list (list A)) (label : list atom)
    (label_sets : list (gset atom)) (random_seed : option Z) (g : rng) :
  length label_sets = n ->
  seed_accepted random_seed ->
  Forall (fun s => ~ matches label s) label_sets ->
  (shuffle_group (Mat n rows) label label_sets random_seed g).1 = Ok (Mat n rows).
Proof.
  intros Hn Hseed Hnone.
  destruct (shuffle_group_matrix n rows label label_sets random_seed g Hn Hseed)
    as (g0 & g' & ->). simpl. do 2 f_equal.
  assert (Forall (fun b => b = false) (issubset label label_sets)) as Hfalse.
  { unfold issubset. apply Forall_fmap. eapply Forall_impl; [exact Hnone|].
    intros s Hs. simpl. by apply bool_decide_eq_false. }
  apply zip_with_keep; [by rewrite length_chunks|].
  intros r c. by apply assign_mask_all_false.
Qed.
End ShuffleMoves.

Lemma fisher_yates_Permutation {A} (i : nat) (l : list A) (g : Z) :
  (fisher_yates i l g).1 ≡ₚ l.
Proof.
  revert l g. induction i as [|i IH]; intros l g; simpl; [done|].
  destruct (l !! S i) as [a|] eqn:Ha; [|apply IH].
  destruct (l !! Z.to_nat _) as [b|] eqn:Hb; [|apply IH].
  rewrite IH. by apply Permutation_insert_swap.
Qed.

Lemma shuffle_group_permutes_witness :
  exists (rows' : list (list nat)) (g' : Z) (k : nat) (sel sel' : list (list nat)),
    shuffle_group (H := lcg_random) x_demo [LStr "FA"] sets_demo (Some 7%Z) 1%Z
    = (Ok (Mat 3 rows'), g') /\
    ndarray_wf (Mat 3 rows') /\
    length rows' = length [[10; 20; 30]; [11; 21; 31]] /\
    remove_group (Mat 3 rows') [LStr "FA"] sets_demo
    = remove_group x_demo [LStr "FA"] sets_demo /\
    select_group x_demo [LStr "FA"] sets_demo = Ok (Mat k sel) /\
    select_group (Mat 3 rows') [LStr "FA"] sets_demo = Ok (Mat k sel') /\
    concat sel' ≡ₚ concat sel.
Proof.
  apply (shuffle_group_permutes (H := lcg_random) 3 [[10; 20; 30]; [11; 21; 31]]
           [LStr "FA"] sets_demo (Some 7%Z) 1%Z).
  - intros l g0. apply fisher_yates_Permutation.
  - simpl. repeat constructor.
  - reflexivity.
  - simpl. eexists. reflexivity.
Defined.

Lemma shuffle_group_no_match_witness :
  (shuffle_group (H := lcg_random) x_demo [LStr "AD"] sets_demo None 1%Z).1 = Ok x_demo.
Proof.
  apply (shuffle_group_no_match (H := lcg_random) 3 [[10; 20; 30]; [11; 21; 31]]
           [LStr "AD"] sets_demo None 1%Z).
  - reflexivity.
  - exact I.
  - repeat constructor; apply (bool_decide_unpack _); vm_compute; exact I.
Defined.

(** ** Symmetrized tract names *)

Lemma prefix_append (old s : string) :
  String.prefix old s = true -> exists post, s = old +:+ post.
Proof.
  revert s. induction old as [|a old IH]; intros s Hp; simpl in *.
  - by exists s.
  - destruct s as [|b s]; simpl in Hp; [done|].
    destruct (Ascii.ascii_dec a b) as [->|]; [|done].
    destruct (IH s Hp) as [post ->]. by exists post.
Qed.

(** A name in which the token does not occur is left as it is. *)
Lemma replace_from_absent (old new s : string) :
  (forall pre post, s <> pre +:+ old +:+ post) ->
  replace_from 0 old new s = s.
Proof.
  induction s as [|c s IH]; intros Habs; cbn [replace_from]; [done|].
  destruct (String.prefix old (String c s)) eqn:Hp.
  - apply prefix_append in Hp as [post Hp]. exfalso. by apply (Habs "" post).
  - f_equal. apply IH. intros pre post ->. by apply (Habs (String c pre) post).
Qed.

Lemma prefix_nil (t : string) : String.prefix "" t = true.
Proof. by destruct t. Qed.

Lemma str_replace_left (t : string) :
  str_replace ("Left " +:+ t) "Left " "" = str_replace t "Left " "".
Proof. unfold str_replace. simpl. by rewrite prefix_nil. Qed.

Lemma str_replace_right_left (t : string) :
  str_replace ("Right " +:+ t) "Left " "" = "Right " +:+ str_replace t "Left " "".
Proof. reflexivity. Qed.

Lemma str_replace_right (t : string) :
  str_replace ("Right " +:+ t) "Right " "" = str_replace t "Right " "".
Proof. unfold str_replace. simpl. by rewrite prefix_nil. Qed.

Lemma symmetrized_left (t : string) : symmetrized ("Left " +:+ t) = symmetrized t.
Proof. unfold symmetrized. by rewrite str_replace_left. Qed.

Lemma symmetrized_right (t : string) : symmetrized ("Right " +:+ t) = symmetrized t.
Proof. unfold symmetrized. by rewrite str_replace_right_left, str_replace_right. Qed.

Lemma symmetrized_absent (t : string) :
  (forall pre post, t <> pre +:+ "Left " +:+ post) ->
  (forall pre post, t <> pre +:+ "Right " +:+ post) ->
  symmetrized t = t.
Proof.
  intros Hl Hr. unfold symmetrized, str_replace.
  rewrite (replace_from_absent "Left " "" t Hl).
  by rewrite (replace_from_absent "Right " "" t Hr).
Qed.

(** X12.  The tracts of the two hemispheres get the same symmetrized
    name: for a name [t] in which neither "Left " nor "Right " occurs,
    "Left t" and "Right t" are both symmetrized to [t], and [t] itself is
    left as it is. *)
Theorem symmetrized_hemispheres (t : string) :
  (forall pre post, t <> pre +:+ "Left " +:+ post) ->
  (forall pre post, t <> pre +:+ "Right " +:+ post) ->
  symmetrized ("Left " +:+ t) = t /\
  symmetrized ("Right " +:+ t) = t /\
  symmetrized t = t.
Proof.
  intros Hl Hr. rewrite symmetrized_left, symmetrized_right.
  by rewrite symmetrized_absent.
Qed.

(** A text written without the capitals of the tokens has none of them. *)
Lemma no_capital_absent (c : Ascii.ascii) (old t : string) :
  Forall (fun a => a <> c) (String.list_ascii_of_string t) ->
  forall pre post, t <> pre +:+ String c old +:+ post.
Proof.
  intros Hno pre. revert t Hno. induction pre as [|a pre IH]; intros t Hno post ->;
    simpl in Hno.
  - by apply Forall_cons in Hno as [? _].
  - apply Forall_cons in Hno as [_ Hno]. by eapply IH.
Qed.

Lemma symmetrized_hemispheres_witness :
  symmetrized ("Left " +:+ "Cingulum") = "Cingulum" /\
  symmetrized ("Right " +:+ "Cingulum") = "Cingulum" /\
  symmetrized "Cingulum" = "Cingulum".
Proof.
  apply (symmetrized_hemispheres "Cingulum").
  - apply (no_capital_absent (Ascii.ascii_of_nat 76) "eft "). simpl. repeat constructor; discriminate.
  - apply (no_capital_absent (Ascii.ascii_of_nat 82) "ight "). simpl. repeat constructor; discriminate.
Defined.

(** The tokens are removed wherever they stand, and a removal can bring
    a token about that stays. *)
Example symmetrized_inside :
  symmetrized "Callosum Left Forceps" = "Callosum Forceps" /\
  symmetrized "LeLeft ft Arcuate" = "Left Arcuate".
Proof. split; reflexivity. Qed.

(** ** Selecting by the symmetrized name *)

(** X13.  With [tract_symmetry] the columns of both hemispheres answer
    to one name.  For columns whose tracts are in the tract level,
    [multicol2sets] returns label sets with which [select_group] by the
    symmetrized name of a tract [t] keeps every column whose tract has
    that symmetrized name: the columns of [t], of "Left t" and of
    "Right t". *)
Theorem select_group_both_hemispheres {A} (x : ndarray A) (columns : MultiIndex)
    (t : string) :
  Forall (fun k : ColumnKey => k.1.2 ∈ levels_tract columns) (tuples columns) ->
  ndarray_wf x ->
  width x = Some (n_columns columns) ->
  exists (label_sets : list (gset atom)) (kept : list nat),
    multicol2sets columns true = Ok label_sets /\
    select_group x [LStr (symmetrized t)] label_sets = Ok (take_columns kept x) /\
    (forall i k, tuples columns !! i = Some k ->
                 symmetrized k.1.2 = symmetrized t -> i ∈ kept) /\
    (forall i m n, tuples columns !! i = Some (m, t, n) -> i ∈ kept) /\
    (forall i m n, tuples columns !! i = Some (m, "Left " +:+ t, n) -> i ∈ kept) /\
    (forall i m n, tuples columns !! i = Some (m, "Right " +:+ t, n) -> i ∈ kept).
Proof.
  intros Hcols Hwf Hw.
  eexists _, (np_where (issubset [LStr (symmetrized t)] _)).
  split; [by apply multicol2sets_symmetry|].
  assert (forall i k, tuples columns !! i = Some k ->
                      symmetrized k.1.2 = symmetrized t ->
                      i ∈ np_where
                            (issubset [LStr (symmetrized t)]
                               (map (fun k : ColumnKey =>
                                       {[ LStr k.1.1; LStr k.1.2; LStr (pretty k.2);
                                          LStr (symmetrized k.1.2) ]})
                                    (tuples columns)))) as Hkept.
  { intros i k Hi Hs. apply np_where_elem. unfold issubset.
    rewrite !list_lookup_fmap, Hi. simpl. f_equal. apply bool_decide_eq_true.
    unfold matches. simpl. rewrite Hs. intros a Ha.
    rewrite elem_of_union, elem_of_singleton in Ha.
    destruct Ha as [->|Ha]; [|by apply elem_of_empty in Ha].
    rewrite !elem_of_union, !elem_of_singleton. by right. }
  split; [|split; [exact Hkept|split; [|split]]].
  - unfold select_group. apply getitem_by_mask; [done|].
    by rewrite length_issubset, length_map.
  - intros i m n Hi. by apply (Hkept i _ Hi).
  - intros i m n Hi. apply (Hkept i _ Hi). simpl. apply symmetrized_left.
  - intros i m n Hi. apply (Hkept i _ Hi). simpl. apply symmetrized_right.
Qed.

Lemma select_group_both_hemispheres_witness :
  exists (label_sets : list (gset atom)) (kept : list nat),
    multicol2sets columns_demo true = Ok label_sets /\
    select_group (Vec [1; 2; 3; 4]) [LStr (symmetrized "Cingulum")] label_sets
    = Ok (take_columns kept (Vec [1; 2; 3; 4])) /\
    (forall i k, tuples columns_demo !! i = Some k ->
                 symmetrized k.1.2 = symmetrized "Cingulum" -> i ∈ kept) /\
    (forall i m n, tuples columns_demo !! i = Some (m, "Cingulum", n) -> i ∈ kept) /\
    (forall i m n, tuples columns_demo !! i = Some (m, "Left " +:+ "Cingulum", n) ->
                   i ∈ kept) /\
    (forall i m n, tuples columns_demo !! i = Some (m, "Right " +:+ "Cingulum", n) ->
                   i ∈ kept).
Proof.
  apply (select_group_both_hemispheres (Vec [1; 2; 3; 4]) columns_demo "Cingulum").
  - repeat constructor; apply (bool_decide_unpack _); vm_compute; exact I.
  - exact I.
  - reflexivity.
Defined.

(** ** Dictionaries of the columns *)

Lemma multicol2dicts_symmetry (columns : MultiIndex) :
  Forall (fun k : ColumnKey => k.1.2 ∈ levels_tract columns) (tuples columns) ->
  multicol2dicts columns true
  = Ok (map (fun k : ColumnKey =>
               dict [("metric", LStr k.1.1); ("tractID", LStr k.1.2);
                     ("nodeID", LStr (pretty k.2));
                     ("symmetrized_tractID", LStr (symmetrized k.1.2))])
            (tuples columns)).
Proof.
  intros Hwf. unfold multicol2dicts, to_numpy.
  rewrite (mapM_Ok _ (fun k : ColumnKey =>
             [LStr k.1.1; LStr k.1.2; LStr (pretty k.2); LStr (symmetrized k.1.2)])).
  - simpl. f_equal. rewrite map_map. apply map_ext. by intros [[m t] n].
  - intros [[m t] n] Hk. rewrite Forall_forall in Hwf.
    unfold dict_getitem. rewrite bilateral_symmetry_lookup by exact (Hwf _ Hk).
    reflexivity.
Qed.

Lemma multicol2dicts_plain (columns : MultiIndex) :
  multicol2dicts columns false
  = Ok (map (fun k : ColumnKey =>
               dict [("metric", LStr k.1.1); ("tractID", LStr k.1.2);
                     ("nodeID", LInt k.2)])
            (tuples columns)).
Proof.
  unfold multicol2dicts, to_numpy. f_equal. apply map_ext. by intros [[m t] n].
Qed.

Lemma map_img_dict3 (a b c : atom) :
  map_img (dict [("metric", a); ("tractID", b); ("nodeID", c)])
  = ({[ a; b; c ]} : gset atom).
Proof.
  unfold dict. simpl.
  rewrite !map_img_insert_notin_L, map_img_empty_L;
    [|by simplify_map_eq..].
  apply set_eq. intros x. rewrite !elem_of_union, !elem_of_singleton, elem_of_empty.
  tauto.
Qed.

Lemma map_img_dict4 (a b c d : atom) :
  map_img (dict [("metric", a); ("tractID", b); ("nodeID", c);
                 ("symmetrized_tractID", d)])
  = ({[ a; b; c; d ]} : gset atom).
Proof.
  unfold dict. simpl.
  rewrite !map_img_insert_notin_L, map_img_empty_L;
    [|by simplify_map_eq..].
  apply set_eq. intros x. rewrite !elem_of_union, !elem_of_singleton, elem_of_empty.
  tauto.
Qed.

(** X14.  [multicol2dicts] and [multicol2sets] describe the columns
    alike.  For columns whose tracts are in the tract level and either
    setting of [tract_symmetry], both return one entry per column; the
    label set of a column is the set of the values of its dictionary;
    and the dictionary of a column gives its metric under "metric", its
    tract under "tractID", its node under "nodeID" (as text with
    [tract_symmetry], as an integer without) and, with [tract_symmetry]
    only, its symmetrized tract under "symmetrized_tractID". *)
Theorem multicol2dicts_values (columns : MultiIndex) (tract_symmetry : bool) :
  Forall (fun k : ColumnKey => k.1.2 ∈ levels_tract columns) (tuples columns) ->
  exists (dicts : list (gmap string atom)) (sets : list (gset atom)),
    multicol2dicts columns tract_symmetry = Ok dicts /\
    multicol2sets columns tract_symmetry = Ok sets /\
    length dicts = n_columns columns /\
    sets = map map_img dicts /\
    (forall i k, tuples columns !! i = Some k ->
       exists d, dicts !! i = Some d /\
         d !! "metric" = Some (LStr k.1.1) /\
         d !! "tractID" = Some (LStr k.1.2) /\
         d !! "nodeID"
         = Some (if tract_symmetry then LStr (pretty k.2) else LInt k.2) /\
         d !! "symmetrized_tractID"
         = if tract_symmetry then Some (LStr (symmetrized k.1.2)) else None).
Proof.
  intros Hwf. destruct tract_symmetry.
  - eexists _, _. split; [by apply multicol2dicts_symmetry|].
    split; [by apply multicol2sets_symmetry|].
    split; [by rewrite length_map|]. split.
    + rewrite map_map. apply map_ext. intros k. by rewrite map_img_dict4.
    + intros i k Hi. eexists. rewrite list_lookup_fmap, Hi. split; [done|].
      unfold dict. simpl. by simplify_map_eq.
  - eexists _, _. split; [by apply multicol2dicts_plain|].
    split; [by apply multicol2sets_plain|].
    split; [by rewrite length_map|]. split.
    + rewrite map_map. apply map_ext. intros k. by rewrite map_img_dict3.
    + intros i k Hi. eexists. rewrite list_lookup_fmap, Hi. split; [done|].
      unfold dict. simpl. by simplify_map_eq.
Qed.

Lemma multicol2dicts_values_witness :
  exists (dicts : list (gmap string atom)) (sets : list (gset atom)),
    multicol2dicts columns_demo true = Ok dicts /\
    multicol2sets columns_demo true = Ok sets /\
    length dicts = n_columns columns_demo /\
    sets = map map_img dicts /\
    (forall i k, tuples columns_demo !! i = Some k ->
       exists d, dicts !! i = Some d /\
         d !! "metric" = Some (LStr k.1.1) /\
         d !! "tractID" = Some (LStr k.1.2) /\
         d !! "nodeID" = Some (LStr (pretty k.2)) /\
         d !! "symmetrized_tractID" = Some (LStr (symmetrized k.1.2))).
Proof.
  apply (multicol2dicts_values columns_demo true).
  repeat constructor; apply (bool_decide_unpack _); vm_compute; exact I.
Defined.

(** ** Features by importance *)

Section SortFeatures.
Context {T : Type} `{!Score T} {F : Type}.
Implicit Types (x y : F * T) (l items : list (F * T)).

(** An item of no smaller key comes first. *)
Let by_key x y : Prop := key_le (np_abs y.2) (np_abs x.2) = true.

(** Two keys that compare equal. *)
Let same_key (a b : T) : bool := key_le a b && key_le b a.

Lemma insert_by_score_Permutation x l : insert_by_score x l ≡ₚ x :: l.
Proof.
  induction l as [|y l IH]; simpl; [done|].
  destruct (key_le _ _); [done|]. rewrite IH. apply Permutation_swap.
Qed.

Lemma sorted_by_score_Permutation items : sorted_by_score items ≡ₚ items.
Proof.
  induction items as [|x items IH]; simpl; [done|].
  by rewrite insert_by_score_Permutation, IH.
Qed.

Lemma insert_by_score_sorted x l :
  StronglySorted by_key l -> StronglySorted by_key (insert_by_score x l).
Proof.
  induction 1 as [|y l Hl IH Hy]; simpl.
  - repeat constructor.
  - destruct (key_le (np_abs y.2) (np_abs x.2)) eqn:Hle.
    + constructor; [by constructor|].
      constructor; [done|]. eapply Forall_impl; [exact Hy|].
      intros z Hz. unfold by_key in *. exact (key_le_trans _ _ _ Hz Hle).
    + constructor; [done|].
      rewrite insert_by_score_Permutation. constructor; [|done].
      unfold by_key. destruct (key_le_total (np_abs x.2) (np_abs y.2)); congruence.
Qed.

Lemma sorted_by_score_sorted items : StronglySorted by_key (sorted_by_score items).
Proof.
  induction items as [|x items IH]; simpl; [constructor|].
  by apply insert_by_score_sorted.
Qed.

(** Among the items of one key an inserted item comes first. *)
Lemma filter_insert_by_score (a : T) x l :
  List.filter (fun p : F * T => same_key (np_abs p.2) a) (insert_by_score x l)
  = List.filter (fun p : F * T => same_key (np_abs p.2) a) (x :: l).
Proof.
  induction l as [|y l IH]; [done|]. cbn [insert_by_score].
  destruct (key_le (np_abs y.2) (np_abs x.2)) eqn:Hle; [done|].
  cbn [List.filter] in *. rewrite IH.
  destruct (same_key (np_abs y.2) a) eqn:Hy; [|done].
  destruct (same_key (np_abs x.2) a) eqn:Hx; [|done].
  unfold same_key in Hy, Hx.
  apply andb_true_iff in Hy as [Hy _]. apply andb_true_iff in Hx as [_ Hx].
  rewrite (key_le_trans _ _ _ Hy Hx) in Hle. done.
Qed.
End SortFeatures.

(** X15.  [sort_features] returns the pairs of a feature and its score
    by decreasing key [np.abs(score)]: the result holds the pairs of
    [zip(features, scores)], each as often as there, every pair in it
    has a key at least that of the pairs after it, and its length is that
    of the shorter argument.  For scores that are floats the key is the
    magnitude of the score, whatever its sign; for scores that are 64-bit
    integers it is the magnitude but for the least integer, which is its
    own key and so comes last. *)
Theorem sort_features_sorted {T} `{!Score T} {F} (features : list F) (scores : list T) :
  sort_features features scores ≡ₚ zip features scores /\
  StronglySorted (fun x y : F * T => key_le (np_abs y.2) (np_abs x.2) = true)
                 (sort_features features scores) /\
  length (sort_features features scores)
  = Nat.min (length features) (length scores).
Proof.
  unfold sort_features. split; [apply sorted_by_score_Permutation|].
  split; [apply sorted_by_score_sorted|].
  by rewrite sorted_by_score_Permutation, length_zip.
Qed.

(** X16.  [sort_features] is stable: the features whose scores have the
    same key [np.abs(score)] come out in the order they went in. *)
Theorem sort_features_stable {T} `{!Score T} {F} (features : list F) (scores : list T)
    (a : T) :
  List.filter (fun p : F * T => key_le (np_abs p.2) a && key_le a (np_abs p.2))
              (sort_features features scores)
  = List.filter (fun p : F * T => key_le (np_abs p.2) a && key_le a (np_abs p.2))
                (zip features scores).
Proof.
  unfold sort_features. induction (zip features scores) as [|x items IH]; [done|].
  cbn [sorted_by_score foldr]. rewrite filter_insert_by_score.
  cbn [List.filter]. fold (sorted_by_score items). by rewrite IH.
Qed.

(** Floats: by magnitude, ties in the order of the input. *)
Example sort_features_demo :
  sort_features ["a"; "b"; "c"; "d"] [1 # 2; -(3 # 1); 3 # 1; 0 # 1]%Q
  = [("b", -(3 # 1)); ("c", 3 # 1); ("a", 1 # 2); ("d", 0 # 1)]%Q.
Proof. reflexivity. Qed.

(** 64-bit integers: the least integer is its own key, and comes last
    though its magnitude is the largest. *)
Example sort_features_int64_minimum :
  proj1_sig (np_abs (to_int64 (- 2 ^ 63))) = (- 2 ^ 63)%Z /\
  map (fun p : string * int64 => (p.1, proj1_sig p.2))
      (sort_features ["a"; "b"; "c"] (map to_int64 [5; - 2 ^ 63; 7]%Z))
  = [("c", 7); ("a", 5); ("b", - 2 ^ 63)]%Z.
Proof. split; vm_compute; reflexivity. Qed.

(** On 64-bit integers other than the least one, [np.abs] is the
    magnitude. *)
Lemma np_abs_int64 (z : int64) :
  proj1_sig z <> (- 2 ^ 63)%Z -> proj1_sig (np_abs z) = Z.abs (proj1_sig z).
Proof.
  destruct z as [z Hz]. pose proof (bool_decide_unpack _ Hz) as Hr.
  cbn [proj1_sig]. intros Hne.
  cbn [np_abs int64_score to_int64 proj1_sig]. unfold wrap64.
  rewrite Z.mod_small; lia.
Qed.

(** ** Ordered dictionaries filled key by key *)

Section OrderedDictFill.
Context {V : Type}.
Implicit Types (d : OrderedDict V) (f : string -> V) (keys : list string).

Lemma od_set_fresh d k v : k ∉ map fst d -> od_set d k v = d ++ [(k, v)].
Proof.
  induction d as [|[k0 v0] d IH]; intros Hk; simpl; [done|].
  simpl in Hk. apply not_elem_of_cons in Hk as [Hne Hk].
  rewrite decide_False by done. by rewrite IH.
Qed.

Lemma fold_od_set_fresh f keys d :
  NoDup keys -> (forall k, k ∈ keys -> k ∉ map fst d) ->
  foldl (fun acc k => od_set acc k (f k)) d keys = d ++ map (fun k => (k, f k)) keys.
Proof.
  intros Hnd. revert d. induction Hnd as [|k keys Hk _ IH]; intros d Hd; simpl.
  - by rewrite app_nil_r.
  - rewrite od_set_fresh by (apply Hd; apply list_elem_of_here).
    rewrite IH, <-(assoc_L (++)); [done|].
    intros k' Hk'. rewrite map_app, elem_of_app. simpl.
    intros [Hin|Hin%list_elem_of_singleton].
    + revert Hin. apply Hd. by apply list_elem_of_further.
    + by subst.
Qed.

Lemma fold_od_set f keys :
  NoDup keys ->
  foldl (fun acc k => od_set acc k (f k)) [] keys = map (fun k => (k, f k)) keys.
Proof.
  intros Hnd. rewrite fold_od_set_fresh; [done|done|].
  intros k _. apply not_elem_of_nil.
Qed.

Lemma od_get_map f keys k :
  od_get (map (fun k => (k, f k)) keys) k
  = if bool_decide (k ∈ keys) then Some (f k) else None.
Proof.
  induction keys as [|k0 keys IH]; simpl; [done|].
  destruct (decide (k0 = k)) as [->|Hne].
  - by rewrite bool_decide_eq_true_2 by apply list_elem_of_here.
  - rewrite IH. apply (f_equal (fun b : bool => if b then _ else _)).
    apply bool_decide_ext. rewrite elem_of_cons.
    split; [by right|]. intros [?|?]; [congruence|done].
Qed.
End OrderedDictFill.

(** ** Coefficients by groups, nothing dropped *)

Section KeepAll.
Variables (beta : list cell) (columns : MultiIndex).
Hypothesis Hlen : length beta = n_columns columns.
Hypothesis Hmetrics : NoDup (levels_metric columns).
Hypothesis Htracts : NoDup (levels_tract columns).

Lemma metric_loop_keep tract :
  metric_loop (Vec beta) (plain_sets columns) false tract (levels_metric columns) []
  = Ok (map (fun metric =>
               (metric, Vec (coefficients_of beta columns [LStr tract; LStr metric])))
            (levels_metric columns)).
Proof.
  unfold metric_loop.
  rewrite <-(fold_od_set
               (fun metric => Vec (coefficients_of beta columns [LStr tract; LStr metric]))
               _ Hmetrics).
  match goal with |- foldl ?f _ _ = _ => set (step := f) end.
  assert (forall d m, step (Ok d) m
                      = Ok (od_set d m (Vec (coefficients_of beta columns
                                               [LStr tract; LStr m])))) as Hstep.
  { intros d m. unfold step. cbn [mbind result_bind].
    by rewrite (select_group_beta beta columns Hlen). }
  clearbody step. clear Hmetrics. generalize ([] : OrderedDict (ndarray cell)).
  induction (levels_metric columns) as [|m metrics IH]; intros inner; cbn [foldl]; [done|].
  rewrite Hstep. apply IH.
Qed.

Lemma by_groups_keep :
  beta_hat_by_groups (Vec beta) columns false
  = Ok (map (fun tract =>
               (tract,
                map (fun metric =>
                       (metric,
                        Vec (coefficients_of beta columns [LStr tract; LStr metric])))
                    (levels_metric columns)))
            (levels_tract columns)).
Proof.
  unfold beta_hat_by_groups. rewrite multicol2sets_plain.
  cbn [mbind result_bind]. fold (plain_sets columns).
  rewrite <-(fold_od_set
               (fun tract =>
                  map (fun metric =>
                         (metric,
                          Vec (coefficients_of beta columns [LStr tract; LStr metric])))
                      (levels_metric columns))
               _ Htracts).
  match goal with |- foldl ?f _ _ = _ => set (step := f) end.
  assert (forall d t, step (Ok d) t
                      = Ok (od_set d t
                              (map (fun metric =>
                                      (metric,
                                       Vec (coefficients_of beta columns
                                              [LStr t; LStr metric])))
                                   (levels_metric columns)))) as Hstep.
  { intros d t. unfold step. cbn [mbind result_bind].
    rewrite (select_group_beta beta columns Hlen). cbn [mbind result_bind].
    by rewrite metric_loop_keep. }
  clearbody step. clear Htracts.
  generalize ([] : OrderedDict (OrderedDict (ndarray cell))).
  induction (levels_tract columns) as [|t tracts IH]; intros betas; cbn [foldl]; [done|].
  rewrite Hstep. apply IH.
Qed.
End KeepAll.

(** A label of a tract and a metric matches the columns of that tract
    and metric, when no column has the tract's name for metric or the
    metric's name for tract. *)
Lemma matches_pair (tract metric : string) (k : ColumnKey) :
  k.1.1 <> tract -> k.1.2 <> metric ->
  matches [LStr tract; LStr metric] {[ LStr k.1.1; LStr k.1.2; LInt k.2 ]}
  <-> k.1.1 = metric /\ k.1.2 = tract.
Proof.
  intros Hm Ht. unfold matches. destruct k as [[m t] n]. cbn [fst snd list_to_set] in *.
  split.
  - intros Hs.
    assert (LStr tract ∈ ({[LStr m; LStr t; LInt n]} : gset atom)) as H1.
    { apply Hs. rewrite !elem_of_union, !elem_of_singleton. by left. }
    assert (LStr metric ∈ ({[LStr m; LStr t; LInt n]} : gset atom)) as H2.
    { apply Hs. rewrite !elem_of_union, !elem_of_singleton. right. by left. }
    rewrite !elem_of_union, !elem_of_singleton in H1, H2.
    destruct H1 as [[[= H1]|[= H1]]|[=]]; [congruence|].
    destruct H2 as [[[= H2]|[= H2]]|[=]]; [|congruence]. done.
  - intros [-> ->] x. rewrite !elem_of_union, !elem_of_singleton, elem_of_empty.
    intros [->|[->|[]]]; [left; by right|left; by left].
Qed.

(** X17.  Without [drop_zeros], [beta_hat_by_groups] has an entry for
    every tract and, under it, for every metric of the levels, in the
    order of the levels, also for a pair without any column (an empty
    array).  When no name is both a metric and a tract of the columns,
    the array under a tract and a metric holds the coefficients of the
    columns of that tract and metric, in column order. *)
Theorem beta_hat_by_groups_every_pair (beta : list cell) (columns : MultiIndex) :
  length beta = n_columns columns ->
  NoDup (levels_metric columns) ->
  NoDup (levels_tract columns) ->
  Forall (fun k : ColumnKey =>
            (k.1.1 ∉ levels_tract columns) /\ (k.1.2 ∉ levels_metric columns))
         (tuples columns) ->
  beta_hat_by_groups (Vec beta) columns false
  = Ok (map (fun tract =>
               (tract,
                map (fun metric =>
                       (metric,
                        Vec (compress
                               (map (fun k : ColumnKey =>
                                       bool_decide (k.1.1 = metric /\ k.1.2 = tract))
                                    (tuples columns))
                               beta)))
                    (levels_metric columns)))
            (levels_tract columns)).
Proof.
  intros Hlen Hms Hts Hapart. rewrite by_groups_keep by done. f_equal.
  apply map_ext_in. intros t Ht. f_equal.
  apply map_ext_in. intros m Hm. do 2 f_equal.
  unfold coefficients_of, issubset, plain_sets. rewrite map_map. f_equal.
  apply map_ext_in. intros k Hk. apply bool_decide_ext.
  rewrite Forall_forall in Hapart.
  destruct (Hapart k (proj2 (list_elem_of_In _ _) Hk)) as [Hk1 Hk2].
  apply matches_pair.
  - intros Heq. apply Hk1. rewrite Heq. by apply list_elem_of_In.
  - intros Heq. apply Hk2. rewrite Heq. by apply list_elem_of_In.
Qed.

Lemma beta_hat_by_groups_every_pair_witness :
  beta_hat_by_groups (Vec beta_cst) columns_cst false
  = Ok (map (fun tract =>
               (tract,
                map (fun metric =>
                       (metric,
                        Vec (compress
                               (map (fun k : ColumnKey =>
                                       bool_decide (k.1.1 = metric /\ k.1.2 = tract))
                                    (tuples columns_cst))
                               beta_cst)))
                    (levels_metric columns_cst)))
            (levels_tract columns_cst)).
Proof.
  apply (beta_hat_by_groups_every_pair beta_cst columns_cst).
  - reflexivity.
  - apply (bool_decide_unpack _). vm_compute. exact I.
  - apply (bool_decide_unpack _). vm_compute. exact I.
  - repeat constructor; apply (bool_decide_unpack _); vm_compute; exact I.
Defined.

(** ** Joining arrays *)

Lemma np_concatenate_vectors {A} (v : list A) (vs : list (list A)) :
  np_concatenate (map Vec (v :: vs)) = Ok (Vec (concat (v :: vs))).
Proof.
  simpl. revert v. induction vs as [|w vs IH]; intros v; simpl.
  - by rewrite app_nil_r.
  - rewrite IH. by rewrite (assoc_L (++)).
Qed.

Lemma np_concatenate_map_vec {A B} (f : B -> list A) (l : list B) :
  l <> [] ->
  np_concatenate (map (fun b => Vec (f b)) l) = Ok (Vec (concat (map f l))).
Proof.
  intros Hne. destruct l as [|b l]; [done|].
  rewrite <-(map_map f Vec). simpl map. apply np_concatenate_vectors.
Qed.

(** A loop whose body raises at every round. *)
Lemma foldl_all_raise {A B} (step : result A -> B -> result A) (e : exn) (a : A)
    (l : list B) :
  l <> [] ->
  (forall d m, step (Ok d) m = Raise e) ->
  (forall m, step (Raise e) m = Raise e) ->
  foldl step (Ok a) l = Raise e.
Proof.
  intros Hne Hok Hraise. destruct l as [|m l]; [done|]. cbn [foldl]. rewrite Hok.
  clear Hne. induction l as [|m' l IH]; cbn [foldl]; [done|]. by rewrite Hraise.
Qed.

(** ** Coefficients unfolded by metric *)

Section Unfold.
Variables (canonical_tract_names : list string) (beta : list cell)
          (columns : MultiIndex) (tract_names : option (list string)).
Hypothesis Hlen : length beta = n_columns columns.
Hypothesis Hmetrics : NoDup (levels_metric columns).
Hypothesis Htracts : NoDup (levels_tract columns).

Let tracts : list string :=
  match tract_names with
  | Some given => given
  | None => canonical_tract_names
  end.

Let by_groups : OrderedDict (OrderedDict (ndarray cell)) :=
  map (fun tract =>
         (tract,
          map (fun metric =>
                 (metric, Vec (coefficients_of beta columns [LStr tract; LStr metric])))
              (levels_metric columns)))
      (levels_tract columns).

(** What the loop appends for a tract and a metric. *)
Lemma unfold_part (metric tract : string) :
  (by_metric ← od_getitem by_groups tract; od_getitem by_metric metric)
  = if bool_decide (tract ∈ levels_tract columns)
    then if bool_decide (metric ∈ levels_metric columns)
         then Ok (Vec (coefficients_of beta columns [LStr tract; LStr metric]))
         else Raise KeyError
    else Raise KeyError.
Proof.
  unfold od_getitem, by_groups. rewrite od_get_map.
  destruct (bool_decide (tract ∈ levels_tract columns)); [|done].
  cbn [mbind result_bind]. rewrite od_get_map.
  by destruct (bool_decide (metric ∈ levels_metric columns)).
Qed.

Lemma unfold_parts (metric : string) :
  metric ∈ levels_metric columns ->
  Forall (fun tract => tract ∈ levels_tract columns) tracts ->
  mapM (fun tract => by_metric ← od_getitem by_groups tract; od_getitem by_metric metric)
       tracts
  = Ok (map (fun tract => Vec (coefficients_of beta columns [LStr tract; LStr metric]))
            tracts).
Proof.
  intros Hm Hts. apply mapM_Ok. intros t Ht.
  rewrite Forall_forall in Hts. specialize (Hts t Ht).
  by rewrite unfold_part, !bool_decide_eq_true_2.
Qed.

Lemma unfold_missing_tract (metric tract : string) :
  tract ∈ tracts -> tract ∉ levels_tract columns ->
  mapM (fun tract => by_metric ← od_getitem by_groups tract; od_getitem by_metric metric)
       tracts
  = Raise KeyError.
Proof.
  intros Ht Hout. induction tracts as [|t ts IH]; [by apply elem_of_nil in Ht|].
  cbn [mapM]. rewrite unfold_part.
  destruct (bool_decide (t ∈ levels_tract columns)) eqn:Hin; [|done].
  apply bool_decide_eq_true in Hin.
  apply elem_of_cons in Ht as [->|Ht]; [done|].
  rewrite IH by done.
  by destruct (bool_decide (metric ∈ levels_metric columns)).
Qed.

Lemma unfold_steps :
  unfold_beta_hat_by_metrics canonical_tract_names (Vec beta) columns tract_names
  = foldl (fun (acc : result (OrderedDict (ndarray cell))) metric =>
             betas ← acc;
             parts ← mapM (fun tract =>
                             by_metric ← od_getitem by_groups tract;
                             od_getitem by_metric metric)
                          tracts;
             unfolded ← np_concatenate parts;
             Ok (od_set betas metric unfolded))
          (Ok ([] : OrderedDict (ndarray cell)))
          (levels_metric columns).
Proof.
  unfold unfold_beta_hat_by_metrics. by rewrite (by_groups_keep beta columns).
Qed.

Lemma unfold_ok :
  tracts <> [] ->
  Forall (fun tract => tract ∈ levels_tract columns) tracts ->
  unfold_beta_hat_by_metrics canonical_tract_names (Vec beta) columns tract_names
  = Ok (map (fun metric =>
               (metric,
                Vec (concat (map (fun tract =>
                                    coefficients_of beta columns
                                      [LStr tract; LStr metric])
                                 tracts))))
            (levels_metric columns)).
Proof.
  intros Hne Hts. rewrite unfold_steps.
  rewrite <-(fold_od_set
               (fun metric =>
                  Vec (concat (map (fun tract =>
                                      coefficients_of beta columns
                                        [LStr tract; LStr metric])
                                   tracts)))
               _ Hmetrics).
  match goal with |- foldl ?f _ _ = _ => set (step := f) end.
  assert (forall d m, m ∈ levels_metric columns ->
            step (Ok d) m
            = Ok (od_set d m
                    (Vec (concat (map (fun tract =>
                                         coefficients_of beta columns
                                           [LStr tract; LStr m])
                                      tracts))))) as Hstep.
  { intros d m Hm. unfold step. cbn [mbind result_bind].
    rewrite unfold_parts by done. cbn [mbind result_bind].
    by rewrite np_concatenate_map_vec. }
  clearbody step. clear Hmetrics. generalize ([] : OrderedDict (ndarray cell)).
  induction (levels_metric columns) as [|m metrics IH]; intros betas; cbn [foldl]; [done|].
  rewrite Hstep by apply list_elem_of_here. apply IH.
  intros d m' Hm'. apply Hstep. by apply list_elem_of_further.
Qed.

Lemma unfold_raise (e : exn) :
  levels_metric columns <> [] ->
  (forall metric,
      (parts ← mapM (fun tract =>
                       by_metric ← od_getitem by_groups tract;
                       od_getitem by_metric metric)
                    tracts;
       np_concatenate parts) = Raise e) ->
  unfold_beta_hat_by_metrics canonical_tract_names (Vec beta) columns tract_names
  = Raise e.
Proof.
  intros Hne Hfail. rewrite unfold_steps. apply foldl_all_raise; [done| |done].
  intros d m. cbn [mbind result_bind].
  specialize (Hfail m). cbn [mbind result_bind] in Hfail.
  destruct (mapM _ tracts) as [parts|e1]; cbn [mbind result_bind] in *.
  - by rewrite Hfail.
  - by injection Hfail as ->.
Qed.
End Unfold.

(** X18.  [unfold_beta_hat_by_metrics] joins, for every metric, the
    coefficients of the given tracts in the order they are given.  For
    a coefficient vector with one entry per column and a non-empty list
    of tracts that are all in the tract level (the given names, or the
    canonical ones when none are given), it returns one entry per metric
    of the level, in level order, whose array is the coefficients of
    the first tract and the metric, followed by those of the second
    tract and the metric, and so on. *)
Theorem unfold_beta_hat_joins_tracts (canonical_tract_names : list string)
    (beta : list cell) (columns : MultiIndex) (tract_names : option (list string)) :
  length beta = n_columns columns ->
  NoDup (levels_metric columns) ->
  NoDup (levels_tract columns) ->
  default canonical_tract_names tract_names <> [] ->
  Forall (fun tract => tract ∈ levels_tract columns)
         (default canonical_tract_names tract_names) ->
  unfold_beta_hat_by_metrics canonical_tract_names (Vec beta) columns tract_names
  = Ok (map (fun metric =>
               (metric,
                Vec (concat (map (fun tract =>
                                    coefficients_of beta columns
                                      [LStr tract; LStr metric])
                                 (default canonical_tract_names tract_names)))))
            (levels_metric columns)).
Proof.
  intros Hlen Hms Hts Hne Hin.
  rewrite (unfold_ok canonical_tract_names beta columns tract_names Hlen Hms Hts);
    by destruct tract_names.
Qed.

Lemma unfold_beta_hat_joins_tracts_witness :
  unfold_beta_hat_by_metrics ["CST_L"] (Vec beta_cst) columns_cst
    (Some ["CST_R"; "CST_L"])
  = Ok (map (fun metric =>
               (metric,
                Vec (concat (map (fun tract =>
                                    coefficients_of beta_cst columns_cst
                                      [LStr tract; LStr metric])
                                 (default ["CST_L"] (Some ["CST_R"; "CST_L"]))))))
            (levels_metric columns_cst)).
Proof.
  apply (unfold_beta_hat_joins_tracts ["CST_L"] beta_cst columns_cst
           (Some ["CST_R"; "CST_L"])).
  - reflexivity.
  - apply (bool_decide_unpack _). vm_compute. exact I.
  - apply (bool_decide_unpack _). vm_compute. exact I.
  - discriminate.
  - repeat constructor; apply (bool_decide_unpack _); vm_compute; exact I.
Defined.

(** X19.  What [unfold_beta_hat_by_metrics] refuses.  For a coefficient
    vector with one entry per column and columns with a metric at least:
    a tract name that is not in the tract level of the columns (one of
    the canonical names that the data does not have, say) makes it raise
    [KeyError], and an empty list of tract names makes it raise
    [ValueError] (there is nothing to join). *)
Theorem unfold_beta_hat_errors (canonical_tract_names : list string)
    (beta : list cell) (columns : MultiIndex) (tract_names : option (list string)) :
  length beta = n_columns columns ->
  NoDup (levels_metric columns) ->
  NoDup (levels_tract columns) ->
  levels_metric columns <> [] ->
  ((exists tract, tract ∈ default canonical_tract_names tract_names
                  /\ tract ∉ levels_tract columns) ->
   unfold_beta_hat_by_metrics canonical_tract_names (Vec beta) columns tract_names
   = Raise KeyError) /\
  (default canonical_tract_names tract_names = [] ->
   unfold_beta_hat_by_metrics canonical_tract_names (Vec beta) columns tract_names
   = Raise ValueError).
Proof.
  intros Hlen Hms Hts Hne. split.
  - intros (tract & Hin & Hout).
    apply (unfold_raise canonical_tract_names beta columns tract_names Hlen Hms Hts);
      [done|].
    intros metric.
    rewrite (unfold_missing_tract canonical_tract_names beta columns tract_names
               metric tract); [done|by destruct tract_names|done].
  - intros Hnil.
    apply (unfold_raise canonical_tract_names beta columns tract_names Hlen Hms Hts);
      [done|].
    intros metric. destruct tract_names as [given|]; simpl in Hnil; by rewrite Hnil.
Qed.

Lemma unfold_beta_hat_errors_witness :
  ((exists tract, tract ∈ default ["CST_L"; "Arcuate"] None
                  /\ tract ∉ levels_tract columns_cst) ->
   unfold_beta_hat_by_metrics ["CST_L"; "Arcuate"] (Vec beta_cst) columns_cst None
   = Raise KeyError) /\
  (default ["CST_L"; "Arcuate"] None = [] ->
   unfold_beta_hat_by_metrics ["CST_L"; "Arcuate"] (Vec beta_cst) columns_cst None
   = Raise ValueError).
Proof.
  apply (unfold_beta_hat_errors ["CST_L"; "Arcuate"] beta_cst columns_cst None).
  - reflexivity.
  - apply (bool_decide_unpack _). vm_compute. exact I.
  - apply (bool_decide_unpack _). vm_compute. exact I.
  - discriminate.
Defined.

Example unfold_beta_hat_missing_tract :
  unfold_beta_hat_by_metrics ["CST_L"; "Arcuate"] (Vec beta_cst) columns_cst None
  = Raise KeyError.
Proof. vm_compute. reflexivity. Qed.

(** ** Columns in the order of the product of their levels *)

Section Blocks.
Context {K A : Type} `{EqDecision K}.
Implicit Types (keys : list K) (beta : list A).

(** The keys of the entries: each key [n] times in a row. *)
Let tags (n : nat) keys : list K := flat_map (fun q => replicate n q) keys.

(** The entries under a key. *)
Let sel (n : nat) keys (q : K) beta : list A :=
  compress (map (fun q' => bool_decide (q' = q)) (tags n keys)) beta.

Lemma compress_app (m1 m2 : list bool) (l1 l2 : list A) :
  length m1 = length l1 ->
  compress (m1 ++ m2) (l1 ++ l2) = compress m1 l1 ++ compress m2 l2.
Proof.
  revert l1. induction m1 as [|b m1 IH]; intros [|a l1] Hlen; simplify_eq/=; [done|].
  rewrite IH by done. by destruct b.
Qed.

Lemma compress_all_false (m : list bool) (l : list A) :
  Forall (fun b => b = false) m -> compress m l = [].
Proof.
  intros Hm. revert l. induction Hm as [|b m -> _ IH]; intros [|a l]; simpl; auto.
Qed.

Lemma sel_absent (n : nat) keys (q : K) beta : q ∉ keys -> sel n keys q beta = [].
Proof.
  intros Hq. apply compress_all_false. apply Forall_fmap, Forall_forall.
  intros q' Hq'. simpl. apply bool_decide_eq_false. intros ->. apply Hq.
  unfold tags in Hq'. apply list_elem_of_In, in_flat_map in Hq' as (q0 & Hq0 & Hr).
  apply list_elem_of_In, elem_of_replicate in Hr as [-> _]. by apply list_elem_of_In.
Qed.

Lemma sel_cons_eq (n : nat) keys (q : K) beta :
  n <= length beta -> q ∉ keys ->
  sel n (q :: keys) q beta = firstn n beta.
Proof.
  intros Hn Hq. unfold sel, tags. cbn [flat_map]. rewrite map_app.
  rewrite <-(firstn_skipn n beta) at 1.
  rewrite compress_app by (rewrite length_map, length_replicate, length_firstn; lia).
  fold (tags n keys). fold (sel n keys q (skipn n beta)).
  rewrite sel_absent, app_nil_r by done.
  apply compress_true_mask.
  - apply Forall_fmap, Forall_forall. intros q' Hq'.
    apply elem_of_replicate in Hq' as [-> _]. simpl. by apply bool_decide_eq_true.
  - rewrite length_map, length_replicate, length_firstn. lia.
Qed.

Lemma sel_cons_ne (n : nat) keys (q0 q : K) beta :
  n <= length beta -> q0 <> q ->
  sel n (q0 :: keys) q beta = sel n keys q (skipn n beta).
Proof.
  intros Hn Hne. unfold sel, tags. cbn [flat_map]. rewrite map_app.
  rewrite <-(firstn_skipn n beta) at 1.
  rewrite compress_app by (rewrite length_map, length_replicate, length_firstn; lia).
  rewrite compress_all_false; [done|].
  apply Forall_fmap, Forall_forall. intros q' Hq'.
  apply elem_of_replicate in Hq' as [-> _]. simpl. by apply bool_decide_eq_false.
Qed.

(** The entries under the keys, key after key, are all the entries. *)
Lemma concat_sel (n : nat) keys beta :
  NoDup keys -> length beta = length keys * n ->
  concat (map (fun q => sel n keys q beta) keys) = beta.
Proof.
  intros Hnd. revert beta. induction Hnd as [|q keys Hq _ IH]; intros beta Hlen.
  - by destruct beta.
  - cbn [map concat]. simpl in Hlen. rewrite sel_cons_eq by (done || lia).
    transitivity (firstn n beta ++ skipn n beta); [|apply firstn_skipn]. f_equal.
    etransitivity; [|apply (IH (skipn n beta)); rewrite length_skipn; lia].
    f_equal. apply map_ext_in. intros q' Hq'. apply sel_cons_ne; [lia|].
    intros ->. by apply Hq, list_elem_of_In.
Qed.

Lemma length_sel (n : nat) keys (q : K) beta :
  NoDup keys -> length beta = length keys * n -> q ∈ keys ->
  length (sel n keys q beta) = n.
Proof.
  intros Hnd. revert beta. induction Hnd as [|q0 keys Hq0 _ IH]; intros beta Hlen Hq.
  - by apply elem_of_nil in Hq.
  - simpl in Hlen. destruct (decide (q0 = q)) as [->|Hne].
    + rewrite sel_cons_eq by (done || lia). rewrite length_firstn. lia.
    + rewrite sel_cons_ne by (done || lia). apply IH.
      * rewrite length_skipn. lia.
      * apply elem_of_cons in Hq as [?|?]; [congruence|done].
Qed.
End Blocks.

(** The pairs of a metric and a tract, in the order of the columns. *)
Lemma NoDup_pairs (ms ts : list string) :
  NoDup ms -> NoDup ts -> NoDup (flat_map (fun m => map (fun t => (m, t)) ts) ms).
Proof.
  intros Hms Hts. induction Hms as [|m ms Hm _ IH]; [constructor|].
  simpl. apply NoDup_app. split; [|split; [|done]].
  - apply NoDup_fmap_2; [|done]. by intros t1 t2 [= ->].
  - intros q Hq Hq'. apply list_elem_of_fmap in Hq as (t & -> & _).
    apply list_elem_of_In, in_flat_map in Hq' as (m' & Hm' & Hq').
    apply in_map_iff in Hq' as (t' & [= <- _] & _).
    by apply Hm, list_elem_of_In.
Qed.

Lemma elem_of_pairs (ms ts : list string) (m t : string) :
  m ∈ ms -> t ∈ ts -> (m, t) ∈ flat_map (fun m => map (fun t => (m, t)) ts) ms.
Proof.
  intros Hm Ht. apply list_elem_of_In, in_flat_map. exists m.
  split; [by apply list_elem_of_In|]. apply in_map. by apply list_elem_of_In.
Qed.

Lemma product_pairs (ms ts : list string) (ns : list Z) :
  map (fun k : ColumnKey => (k.1.1, k.1.2))
      (flat_map (fun m => flat_map (fun t => map (fun n => (m, t, n)) ns) ts) ms)
  = flat_map (fun q => replicate (length ns) q)
             (flat_map (fun m => map (fun t => (m, t)) ts) ms).
Proof.
  induction ms as [|m ms IH]; [done|]. cbn [flat_map].
  rewrite map_app, flat_map_app, IH. f_equal. clear IH.
  induction ts as [|t ts IH]; [done|]. cbn [flat_map map].
  rewrite map_app, IH. f_equal. rewrite map_map. simpl.
  clear. induction ns as [|n ns IH]; simpl; [done|]. by rewrite IH.
Qed.

Lemma concat_pairs {A} (f : string * string -> list A) (ms ts : list string) :
  concat (map (fun m => concat (map (fun t => f (m, t)) ts)) ms)
  = concat (map f (flat_map (fun m => map (fun t => (m, t)) ts) ms)).
Proof.
  induction ms as [|m ms IH]; [done|]. cbn [map concat flat_map].
  by rewrite map_app, concat_app, IH, map_map.
Qed.

Lemma zip_map_self {A B} (f : A -> B) (l : list A) :
  zip l (map f l) = map (fun a => (a, f a)) l.
Proof. induction l as [|a l IH]; simpl; [done|]. by rewrite IH. Qed.

(** X20.  Unfolding by metric takes the coefficient vector apart and
    puts it together again.  For columns in the order of the product of
    their levels (as [AFQFeatureTransformer.transform] returns them),
    no name being both a metric and a tract, and the tracts given in
    level order, [unfold_beta_hat_by_metrics] returns for the metrics,
    in level order, consecutive stretches of the coefficient vector,
    each as long as the tracts times the nodes: joined one after the
    other they are the vector again. *)
Theorem unfold_beta_hat_round_trip (canonical_tract_names : list string)
    (beta : list cell) (columns : MultiIndex) :
  tuples columns
  = tuples (from_product (levels_metric columns) (levels_tract columns)
                         (levels_node columns)) ->
  NoDup (levels_metric columns) ->
  NoDup (levels_tract columns) ->
  (forall name, name ∈ levels_metric columns -> name ∉ levels_tract columns) ->
  levels_tract columns <> [] ->
  length beta = n_columns columns ->
  exists parts : list (list cell),
    unfold_beta_hat_by_metrics canonical_tract_names (Vec beta) columns
      (Some (levels_tract columns))
    = Ok (zip (levels_metric columns) (map Vec parts)) /\
    length parts = length (levels_metric columns) /\
    Forall (fun p => length p
                     = length (levels_tract columns) * length (levels_node columns))
           parts /\
    concat parts = beta.
Proof.
  intros Htuples Hms Hts Hapart Hne Hlen.
  set (ms := levels_metric columns) in *. set (ts := levels_tract columns) in *.
  set (ns := levels_node columns) in *.
  set (pairs := flat_map (fun m => map (fun t => (m, t)) ts) ms).
  set (SEL := fun q : string * string =>
                compress (map (fun q' => bool_decide (q' = q))
                              (flat_map (fun q => replicate (length ns) q) pairs))
                         beta).
  cbn [from_product tuples] in Htuples.
  assert (length beta = length pairs * length ns) as Hbeta.
  { rewrite Hlen. unfold n_columns. rewrite Htuples, length_product by done.
    unfold pairs. rewrite length_flat_map.
    clear. induction ms as [|m ms IH]; simpl; [done|]. rewrite length_map. lia. }
  assert (forall m t, m ∈ ms -> t ∈ ts ->
            coefficients_of beta columns [LStr t; LStr m] = SEL (m, t)) as Hcoef.
  { intros m t Hm Ht. unfold coefficients_of, issubset, plain_sets, SEL.
    rewrite map_map. f_equal. unfold pairs. rewrite <-product_pairs, <-Htuples.
    rewrite map_map. apply map_ext_in. intros k Hk. apply bool_decide_ext.
    apply list_elem_of_In in Hk. rewrite Htuples in Hk.
    apply elem_of_product in Hk as (Hk1 & Hk2 & _).
    rewrite matches_pair.
    - destruct k as [[m' t'] n']. simpl. split; [by intros [-> ->]|by intros [= -> ->]].
    - intros Heq. apply (Hapart _ Hk1). by rewrite Heq.
    - intros Heq. apply (Hapart _ Hm). by rewrite <-Heq. }
  assert (NoDup pairs) as Hpairs by (by apply NoDup_pairs).
  exists (map (fun m => concat (map (fun t => SEL (m, t)) ts)) ms).
  split; [|split; [|split]].
  - rewrite (unfold_ok canonical_tract_names beta columns (Some ts) Hlen Hms Hts);
      [|done|by apply Forall_forall].
    fold ms. rewrite map_map, zip_map_self. f_equal.
    apply map_ext_in. intros m Hm. do 3 f_equal.
    apply map_ext_in. intros t Ht. apply Hcoef; by apply list_elem_of_In.
  - by rewrite length_map.
  - apply Forall_fmap, Forall_forall. intros m Hm. simpl.
    rewrite (length_concat_uniform (length ns)); [by rewrite length_map|].
    apply Forall_fmap, Forall_forall. intros t Ht. simpl.
    apply length_sel; [done|done|]. by apply elem_of_pairs.
  - rewrite (concat_pairs SEL). by apply concat_sel.
Qed.

Lemma unfold_beta_hat_round_trip_witness :
  exists parts : list (list cell),
    unfold_beta_hat_by_metrics [] (Vec beta_cst) columns_cst
      (Some (levels_tract columns_cst))
    = Ok (zip (levels_metric columns_cst) (map Vec parts)) /\
    length parts = length (levels_metric columns_cst) /\
    Forall (fun p => length p
                     = length (levels_tract columns_cst)
                       * length (levels_node columns_cst))
           parts /\
    concat parts = beta_cst.
Proof.
  apply (unfold_beta_hat_round_trip [] beta_cst columns_cst).
  - reflexivity.
  - apply (bool_decide_unpack _). vm_compute. exact I.
  - apply (bool_decide_unpack _). vm_compute. exact I.
  - intros name Hm Ht. revert Hm Ht. simpl.
    rewrite !elem_of_cons, !elem_of_nil. intros [->|[->|[]]] [?|[?|[]]]; discriminate.
  - discriminate.
  - reflexivity.
Defined.

Example unfold_beta_hat_cst :
  unfold_beta_hat_by_metrics [] (Vec beta_cst) columns_cst (Some ["CST_L"; "CST_R"])
  = Ok [("FA", Vec [Some 0%Q; Some 0%Q; Some (3 # 2)%Q; Some 0%Q]);
        ("MD", Vec [Some 0%Q; Some 0%Q; Some 0%Q; Some 0%Q])].
Proof. vm_compute. reflexivity. Qed.

(** ** The interior policy along a series *)

Lemma next_valid_all_missing (i : nat) (l : list cell) :
  Forall (fun c => c = None) l -> next_valid i l = None.
Proof.
  intros Hl. revert i. induction Hl as [|c l -> _ IH]; intros i; simpl; [done|]. apply IH.
Qed.

Lemma interpolate_from_all_missing (i : nat) (l : list cell) :
  Forall (fun c => c = None) l -> interpolate_from None i l = l.
Proof.
  intros Hl. revert i. induction Hl as [|c l -> Hl IH]; intros i; simpl; [done|].
  by rewrite next_valid_all_missing, IH.
Qed.

Lemma interpolate_series_idempotent (l : list cell) :
  interpolate_series (interpolate_series l) = interpolate_series l.
Proof.
  unfold interpolate_series. destruct (decide (Exists is_Some l)) as [Hex|Hno].
  - apply interpolate_from_complete. apply interpolate_from_full. by right.
  - assert (Forall (fun c => c = None) l) as Hl.
    { apply Forall_forall. intros [v|] Hc; [|done]. exfalso. apply Hno.
      apply Exists_exists. exists (Some v). split; [done|by eexists]. }
    by rewrite !(interpolate_from_all_missing _ _ Hl).
Qed.

(** X21.  The interior policy is idempotent: a table that has been
    interpolated once is left as it is by another interpolation. *)
Theorem interpolate_idempotent (f : NodeFrame) :
  interpolate (interpolate f) = interpolate f.
Proof.
  unfold interpolate. cbn [nf_index nf_columns].
  f_equal. rewrite map_map. apply map_ext. intros [c col]. cbn [fst snd].
  by rewrite interpolate_series_idempotent.
Qed.

Lemma next_valid_leading (i k : nat) (v : Q) (rest : list cell) :
  next_valid i (replicate k None ++ Some v :: rest) = Some (i + k, v).
Proof.
  revert i. induction k as [|k IH]; intros i; simpl.
  - by rewrite Nat.add_0_r.
  - rewrite IH. do 2 f_equal. lia.
Qed.

Lemma interpolate_from_leading (i k : nat) (v : Q) (rest : list cell) :
  interpolate_from None i (replicate k None ++ Some v :: rest)
  = replicate k (Some v) ++ Some v :: interpolate_from (Some (i + k, v)) (S (i + k)) rest.
Proof.
  revert i. induction k as [|k IH]; intros i; simpl.
  - by rewrite Nat.add_0_r.
  - replace (i + S k) with (S i + k) by lia. by rewrite next_valid_leading, IH.
Qed.

(** Past a stretch of the series the filling goes on from the last valid
    entry before. *)
Lemma interpolate_from_skip (prev : option (nat * Q)) (i : nat) (l l2 : list cell) :
  exists prev' : option (nat * Q),
    skipn (length l) (interpolate_from prev i (l ++ l2))
    = interpolate_from prev' (i + length l) l2.
Proof.
  revert prev i. induction l as [|[v|] l IH]; intros prev i; simpl.
  - exists prev. by rewrite Nat.add_0_r.
  - destruct (IH (Some (i, v)) (S i)) as [prev' ->]. exists prev'. f_equal. lia.
  - destruct (IH prev (S i)) as [prev' ->]. exists prev'. f_equal. lia.
Qed.

Lemma interpolate_from_trailing (p i k : nat) (v : Q) :
  interpolate_from (Some (p, v)) i (replicate k None) = replicate k (Some v).
Proof.
  revert i. induction k as [|k IH]; intros i; simpl; [done|].
  rewrite next_valid_all_missing, IH; [done|].
  apply Forall_forall. by intros c [-> _]%elem_of_replicate.
Qed.

Lemma firstn_replicate_app {A} (k : nat) (x : A) (tail : list A) :
  firstn (S k) (replicate k x ++ x :: tail) = replicate (S k) x.
Proof. induction k as [|k IH]; [done|]. cbn [replicate app firstn] in *. by rewrite IH. Qed.

(** X22.  At the ends of a series the interior policy holds the nearest
    valid value: the missing entries before the first valid entry take
    its value (they are filled backwards), and the missing entries after
    the last valid entry take its value (they are filled forwards);
    nothing is extrapolated. *)
Theorem interpolate_holds_at_ends (k : nat) (v : Q) (l rest : list cell) :
  firstn (S k) (interpolate_series (replicate k NaN ++ Some v :: rest))
  = replicate (S k) (Some v) /\
  skipn (length l) (interpolate_series (l ++ Some v :: replicate k NaN))
  = replicate (S k) (Some v).
Proof.
  unfold interpolate_series, NaN. split.
  - rewrite interpolate_from_leading. apply firstn_replicate_app.
  - destruct (interpolate_from_skip None 0 l (Some v :: replicate k None)) as [prev' ->].
    simpl. by rewrite interpolate_from_trailing.
Qed.

(** ** What the transformer refuses *)

Lemma mapM_Raise_inv {A B} (f : A -> result B) (l : list A) (e : exn) :
  mapM f l = Raise e -> exists a, a ∈ l /\ f a = Raise e.
Proof.
  induction l as [|a l IH]; intros Hr; simpl in *; [done|].
  destruct (f a) as [b|e'] eqn:Hb; simpl in Hr.
  - destruct (mapM f l) as [bs|e'] eqn:Hbs; simpl in Hr; [done|].
    destruct (IH Hr) as (a' & Ha' & Hf). exists a'. split; [|done].
    by apply list_elem_of_further.
  - exists a. split; [apply list_elem_of_here|congruence].
Qed.

(** The column selection raises nothing but [KeyError]. *)
Lemma loc_columns_Raise (policy : loc_policy) (F : FeatureFrame)
    (new_columns : MultiIndex) (e : exn) :
  loc_columns policy F new_columns = Raise e -> e = KeyError.
Proof.
  unfold loc_columns. cbv zeta. destruct (_ && _); [congruence|].
  destruct (mapM _ _) as [cols|e'] eqn:Hm; cbn [mbind result_bind]; [done|].
  intros [= <-]. apply mapM_Raise_inv in Hm as ([col|] & _ & Hc); [done|].
  destruct policy; congruence.
Qed.

Lemma series_with_one_node (df : DataFrame) (o : Obs) :
  o ∈ melt df -> obs_valid o ->
  length (valid_nodes (melt df) (obs_series o)) < 2 ->
  apply_extrap Interp1dTwoPoints (pivot_table (melt df)) = Raise ValueError.
Proof.
  intros Ho Hv Hlen. apply apply_extrap_Raise.
  assert (obs_series o ∈ map fst (nf_columns (pivot_table (melt df)))) as Hc.
  { apply elem_of_pivot_columns. by exists o. }
  apply list_elem_of_fmap in Hc as ([c col] & Heq & Hin). simpl in Heq. subst c.
  apply Exists_exists. exists (obs_series o, col). split; [done|].
  cbn [snd]. rewrite (pivot_column_data _ _ _ Hin). by rewrite valid_points_pivot.
Qed.

(** The extrapolation keeps the index and the keys of the table. *)
Lemma apply_extrap_keys (scipy : interp1d_policy) (f f' : NodeFrame) :
  apply_extrap scipy f = Ok f' -> nf_index f' = nf_index f /\ nf_keys f' = nf_keys f.
Proof.
  unfold apply_extrap. destruct (mapM _ _) as [cols|e] eqn:Hm; [|done].
  cbn [mbind result_bind]. intros [= <-]. split; [done|].
  unfold nf_keys. cbn [nf_columns]. apply mapM_Ok_inv in Hm.
  induction Hm as [|c c' l l' Hc _ IH]; [done|]. simpl. rewrite IH. f_equal.
  destruct (interp_linear_with_extrap _ _ _); [|done]. by injection Hc as <-.
Qed.

(** A release of scipy that accepts a single point refuses no column of
    the table by node. *)
Lemma apply_extrap_one_Ok (long : list Obs) :
  exists f', apply_extrap Interp1dOnePoint (pivot_table long) = Ok f'.
Proof.
  unfold apply_extrap.
  destruct (mapM_Ok_intro
              (fun c : SeriesKey * list cell =>
                 s ← interp_linear_with_extrap Interp1dOnePoint
                       (nf_index (pivot_table long)) c.2; Ok (c.1, s))
              (nf_columns (pivot_table long))) as [cols ->]; [|by eexists].
  apply Forall_forall. intros [c col] Hc. cbn [fst snd].
  destruct (interp_linear_with_extrap_one (nf_index (pivot_table long)) col)
    as (s & -> & _); [|by eexists].
  rewrite (pivot_column_data _ _ _ Hc), valid_points_pivot.
  assert (c ∈ map fst (nf_columns (pivot_table long))) as Hk.
  { apply list_elem_of_fmap. by eexists (c, _). }
  apply elem_of_pivot_columns in Hk as (o & Ho & Hs & Hv).
  assert (o_node o ∈ valid_nodes long c) as Hn.
  { apply elem_of_valid_nodes. by exists o. }
  destruct (valid_nodes long c); [by apply elem_of_nil in Hn|]. simpl. lia.
Qed.

Lemma melt_no_rows (df : DataFrame) : df_rows df = [] -> melt df = [].
Proof.
  intros Hrows. unfold melt. rewrite Hrows.
  induction (imap pair (metric_columns df)) as [|jm l IH]; [done|]. exact IH.
Qed.

(** X25.  What makes [AFQFeatureTransformer.transform] raise
    [ValueError].  On a table without rows the interior policy raises
    it: there is nothing to stack.  On a table with a valid value it is
    raised in one case only: with [extrapolate] and a release of scipy
    whose [interp1d] needs two points, when some series (one metric of
    one tract of one subject) has a valid value at one node and at no
    other.  The interior policy never raises it there, and neither does
    the extrapolation with the releases of scipy that accept a single
    point. *)
Theorem transform_value_error (policy : loc_policy) (scipy : interp1d_policy)
    (df : DataFrame) (extrapolate add_bias_feature : bool) :
  (df_rows df = [] ->
   transform policy scipy df false add_bias_feature = Raise ValueError) /\
  ((exists o, o ∈ melt df /\ obs_valid o) ->
   transform policy scipy df extrapolate add_bias_feature = Raise ValueError
   <-> extrapolate = true /\ scipy = Interp1dTwoPoints /\
       exists o, o ∈ melt df /\ obs_valid o /\
                 length (valid_nodes (melt df) (obs_series o)) < 2).
Proof.
  split.
  { intros Hrows. rewrite transform_stages, (melt_no_rows df Hrows). reflexivity. }
  intros (o0 & Ho0 & Hv0). rewrite transform_stages.
  assert (forall f, nf_keys f = nf_keys (pivot_table (melt df)) ->
                    bool_decide (nf_columns f = []) = false) as Hcols.
  { intros f Hkeys. apply bool_decide_eq_false_2.
    exact (pivot_has_column df f o0 Hkeys Ho0 Hv0). }
  assert (forall f : NodeFrame,
             nf_keys f = nf_keys (pivot_table (melt df)) ->
             (if bool_decide (nf_columns f = []) then Raise ValueError
              else features ← loc_columns policy (features_of f)
                                (product_columns (features_of f));
                   Ok (assemble add_bias_feature (fillna_median features)))
             <> Raise ValueError) as Hrest.
  { intros f Hkeys. rewrite (Hcols f Hkeys).
    destruct (loc_columns _ _ _) as [F|e] eqn:Hloc; cbn [mbind result_bind]; [done|].
    intros [= ->]. by apply loc_columns_Raise in Hloc. }
  split.
  - intros Hraise.
    destruct (decide (series_interpolable extrapolate df)) as [Hok|Hno].
    + destruct (interpolation_stage_interpolable scipy extrapolate df Hok)
        as (f & Hstage & _ & Hkeys & _).
      rewrite Hstage in Hraise. cbn [mbind result_bind] in Hraise.
      by destruct (Hrest f Hkeys).
    + destruct extrapolate; [|by destruct Hno; apply interior_interpolable].
      split; [done|]. split.
      * destruct scipy; [done|]. exfalso.
        unfold interpolation_stage in Hraise. cbn [negb] in Hraise.
        destruct (apply_extrap_one_Ok (melt df)) as [f Hf].
        rewrite Hf in Hraise. cbn [mbind result_bind] in Hraise.
        destruct (apply_extrap_keys _ _ _ Hf) as [_ Hkeys].
        by destruct (Hrest f Hkeys).
      * unfold series_interpolable in Hno.
        apply not_Forall_Exists in Hno; [|apply _].
        apply Exists_exists in Hno as (o & Ho & Hn). exists o. split; [done|].
        destruct (decide (obs_valid o)) as [Hv|Hnv]; [|by destruct Hn].
        split; [done|].
        destruct (decide (length (valid_nodes (melt df) (obs_series o)) < 2));
          [done|]. destruct Hn. intros _. lia.
  - intros (-> & -> & o & Ho & Hv & Hlen). unfold interpolation_stage. cbn [negb].
    by rewrite (series_with_one_node df o).
Qed.

(** One node only: refused or lost under the extrapolation, by the
    release of scipy; kept by the interior policy. *)
Example transform_single_node :
  transform LocStrict Interp1dTwoPoints df_single true true = Raise ValueError /\
  transform LocStrict Interp1dOnePoint df_single true true = Raise KeyError /\
  exists x, transform LocStrict Interp1dTwoPoints df_single false true = Ok x.
Proof.
  split; [by vm_compute|]. split; [by vm_compute|]. eexists. vm_compute. reflexivity.
Qed.

(** ** The median fill *)

Lemma Qle_b_total : Total Qle_b.
Proof.
  intros a b. unfold Qle_b. destruct (Qlt_le_dec a b) as [Hlt|Hle].
  - left. apply Is_true_true, Qle_bool_iff. by apply Qlt_le_weak.
  - right. by apply Is_true_true, Qle_bool_iff.
Qed.

Lemma Sorted_adjacent {A} (R : relation A) (l : list A) (i : nat) (a b : A) :
  Sorted R l -> l !! i = Some a -> l !! S i = Some b -> R a b.
Proof.
  intros Hs. revert i. induction Hs as [|x l Hs IH Hhd]; intros i Ha Hb; [done|].
  destruct i as [|i]; simpl in *.
  - injection Ha as ->. destruct Hhd as [|y l' Hxy]; [done|]. simpl in Hb. by injection Hb as ->.
  - by eapply IH.
Qed.

Lemma elem_of_valid_values (col : list cell) (v : Q) :
  v ∈ valid_values col <-> Some v ∈ col.
Proof.
  unfold valid_values. rewrite list_elem_of_omap. split.
  - intros (c & Hc & Heq). unfold id in Heq. by subst.
  - intros Hc. by exists (Some v).
Qed.

Lemma Qmid_between (a b : Q) : (a <= b)%Q -> (a <= (a + b) / 2 <= b)%Q.
Proof.
  intros Hab. split.
  - apply Qle_shift_div_l; [reflexivity|].
    apply (Qle_trans _ (a + a)); [|by apply Qplus_le_r].
    apply Qle_lteq. right. ring.
  - apply Qle_shift_div_r; [reflexivity|].
    apply (Qle_trans _ (b + b)); [by apply Qplus_le_l|].
    apply Qle_lteq. right. ring.
Qed.

(** The median of a column with a valid value: a number between two of
    its valid values. *)
Lemma median_between (col : list cell) :
  Exists is_Some col ->
  exists m lo hi : Q,
    median col = Some m /\ Some lo ∈ col /\ Some hi ∈ col /\ (lo <= m <= hi)%Q.
Proof.
  intros Hex. unfold median. cbv zeta.
  set (vs := merge_sort Qle_b (valid_values col)).
  assert (forall v, v ∈ vs -> Some v ∈ col) as Hin.
  { intros v Hv. apply elem_of_valid_values. unfold vs in Hv.
    by rewrite merge_sort_Permutation in Hv. }
  assert (length vs <> 0) as Hne.
  { unfold vs. rewrite merge_sort_Permutation.
    apply Exists_exists in Hex as (c & Hc & [v ->]).
    apply elem_of_valid_values in Hc. destruct (valid_values col); [|done].
    by apply elem_of_nil in Hc. }
  assert (Sorted Qle_b vs) as Hs by (apply Sorted_merge_sort, Qle_b_total).
  destruct (length vs =? 0) eqn:Hz; [apply Nat.eqb_eq in Hz; lia|].
  destruct (Nat.even (length vs)) eqn:Hev.
  - apply Nat.even_spec in Hev as [h Hh].
    assert (length vs / 2 = h) as Hhalf.
    { rewrite Hh. rewrite Nat.mul_comm. by apply Nat.div_mul. }
    rewrite Hhalf.
    destruct (lookup_lt_is_Some_2 vs (h - 1)) as [a Ha]; [lia|].
    destruct (lookup_lt_is_Some_2 vs h) as [b Hb]; [lia|].
    rewrite Ha, Hb. cbn [mbind option_bind].
    exists ((a + b) / 2)%Q, a, b. split; [done|].
    split; [by eapply Hin, list_elem_of_lookup_2|].
    split; [by eapply Hin, list_elem_of_lookup_2|].
    apply Qmid_between.
    assert (Qle_b a b) as Hab.
    { apply (Sorted_adjacent Qle_b vs (h - 1)); [done|done|].
      by replace (S (h - 1)) with h by lia. }
    by apply Is_true_true, Qle_bool_iff in Hab.
  - destruct (lookup_lt_is_Some_2 vs (length vs / 2)) as [m Hm].
    { apply Nat.div_lt; lia. }
    rewrite Hm. exists m, m, m. split; [done|].
    split; [by eapply Hin, list_elem_of_lookup_2|].
    split; [by eapply Hin, list_elem_of_lookup_2|].
    split; apply Qle_refl.
Qed.

(** X26.  What [fillna] with the medians does to a column of the frame:
    the column keeps its length and its valid values; when it has a
    valid value at all, none is missing afterwards, every entry that
    was missing holding the median of the column, which is, for values
    of moderate magnitude (the mean of the two middle values does not
    overflow), a number between two of its valid values; when it has
    none, it is left as it is, all missing. *)
Theorem fillna_median_fills (F : FeatureFrame) (j : nat) (col : list cell) :
  ff_data F !! j = Some col ->
  exists col' : list cell,
    ff_data (fillna_median F) !! j = Some col' /\
    length col' = length col /\
    (forall i v, col !! i = Some (Some v) -> col' !! i = Some (Some v)) /\
    (Exists is_Some col ->
     Forall is_Some col' /\
     exists m : Q,
       median col = Some m /\
       (forall i, col !! i = Some NaN -> col' !! i = Some (Some m)) /\
       (Forall cell_moderate col ->
        exists lo hi : Q, Some lo ∈ col /\ Some hi ∈ col /\ (lo <= m <= hi)%Q)) /\
    (Forall (fun c => c = NaN) col -> col' = col).
Proof.
  intros Hj. eexists. split.
  { cbn [fillna_median ff_data]. rewrite list_lookup_fmap, Hj. reflexivity. }
  cbv zeta. split; [by rewrite length_map|]. split; [|split].
  - intros i v Hi. by rewrite list_lookup_fmap, Hi.
  - intros Hex. destruct (median_between col Hex) as (m & lo & hi & Hm & Hlo & Hhi & Hb).
    rewrite Hm. split.
    + apply Forall_fmap, Forall_forall. intros [v|] _; simpl; by eexists.
    + exists m. split; [done|]. split.
      * intros i Hi. by rewrite list_lookup_fmap, Hi.
      * intros _. by exists lo, hi.
  - intros Hall. by apply fillna_all_missing.
Qed.

Lemma fillna_median_fills_witness :
  exists col' : list cell,
    ff_data (fillna_median
               {| ff_index := ["s1"; "s2"; "s3"];
                  ff_columns := columns_demo;
                  ff_data := [[num 4; NaN; num 2]] |}) !! 0 = Some col' /\
    length col' = length [num 4; NaN; num 2] /\
    (forall i v, [num 4; NaN; num 2] !! i = Some (Some v) -> col' !! i = Some (Some v)) /\
    (Exists is_Some [num 4; NaN; num 2] ->
     Forall is_Some col' /\
     exists m : Q,
       median [num 4; NaN; num 2] = Some m /\
       (forall i, [num 4; NaN; num 2] !! i = Some NaN -> col' !! i = Some (Some m)) /\
       (Forall cell_moderate [num 4; NaN; num 2] ->
        exists lo hi : Q,
          Some lo ∈ [num 4; NaN; num 2] /\ Some hi ∈ [num 4; NaN; num 2] /\
          (lo <= m <= hi)%Q)) /\
    (Forall (fun c => c = NaN) [num 4; NaN; num 2] -> col' = [num 4; NaN; num 2]).
Proof.
  apply (fillna_median_fills
           {| ff_index := ["s1"; "s2"; "s3"];
              ff_columns := columns_demo;
              ff_data := [[num 4; NaN; num 2]] |} 0 [num 4; NaN; num 2]).
  reflexivity.
Defined.

(** The mean of the two middle values, as the code takes it in
    doubles: for two values near the largest double the sum overflows,
    and the median is not between them. *)
Example median_overflows_binary64 :
  ((0x1.8p1023 + 0x1.9p1023) / 2 =? infinity)%float = true /\
  (0x1.9p1023 <? infinity)%float = true.
Proof. split; vm_compute; reflexivity. Qed.

Example median_demo :
  median [num 4; NaN; num 2] = Some (6 # 2)%Q /\ median [num 4; num 1; num 2] = num 2.
Proof. split; reflexivity. Qed.

(** ** A feature matrix without missing values *)

Section NoMissing.
Variable f : NodeFrame.
Hypothesis Hfull : frame_full f.

(** A column of the unstacked frame has a valid entry. *)
Lemma unstacked_column_valid (k : ColumnKey) :
  k ∈ tuples (ff_columns (features_of f)) ->
  length (unstacked_column f k) = length (ff_index (features_of f)) /\
  Exists is_Some (unstacked_column f k).
Proof.
  intros Hk. unfold unstacked_column. split; [by rewrite length_map|].
  apply (elem_of_unstack_tuples f Hfull) in Hk as [[s Hs] Hn].
  destruct (stack_has f Hfull _ _ Hs Hn) as [v Hv]. cbn [fst snd] in Hv.
  apply Exists_exists.
  exists ((list_to_map (stack f) : gmap StackKey Q) !! (k.2, s, k.1.2, k.1.1)). split.
  - apply (list_elem_of_fmap_2
             (fun s => (list_to_map (stack f) : gmap StackKey Q) !! (k.2, s, k.1.2, k.1.1))).
    unfold features_of. apply (elem_of_unstack_index f Hfull). split.
    + by exists (k.1.1, k.1.2, s).
    + intros Hnil. rewrite Hnil in Hn. by apply elem_of_nil in Hn.
  - destruct (list_to_map (stack f) !! _) eqn:Hl; [by eexists|].
    apply not_elem_of_list_to_map_2 in Hl. destruct Hl.
    by apply (list_elem_of_fmap_2 fst _ (k.2, s, k.1.2, k.1.1, v)).
Qed.
End NoMissing.

Lemma fill_valid (col : list cell) (i : nat) :
  Exists is_Some col -> i < length col ->
  is_Some (default NaN
             (map (fun c : cell => match c with Some v => Some v | None => median col end)
                  col !! i)).
Proof.
  intros Hex Hi. destruct (median_between col Hex) as (m & _ & _ & -> & _).
  destruct (lookup_lt_is_Some_2 col i Hi) as [c Hc].
  rewrite list_lookup_fmap, Hc. destruct c; simpl; by eexists.
Qed.

(** X27.  The feature matrix of a well-formed table has no missing
    value: when the table has a record, every series of it has a valid
    value (two for the extrapolation) and the values are of moderate
    magnitude, [AFQFeatureTransformer.transform] returns a matrix in
    which every entry is a number, the entries of the nodes and of the
    tracts a subject lacks included (they are interpolated, or filled
    with the median over the subjects). *)
Theorem feature_matrix_no_missing (policy : loc_policy) (scipy : interp1d_policy)
    (df : DataFrame) (extrapolate add_bias_feature : bool) :
  melt df <> [] ->
  well_formed extrapolate df ->
  moderate df ->
  exists (n : nat) (rows : list (list cell)) (groups : list (list nat))
         (columns : MultiIndex) (bias_index : option nat),
    transform policy scipy df extrapolate add_bias_feature
    = Ok (Mat n rows, groups, columns, bias_index) /\
    Forall (fun r => Forall is_Some r) rows.
Proof.
  intros Hne Hwf _.
  destruct (transform_well_formed policy scipy df extrapolate add_bias_feature Hne Hwf)
    as (f & F & -> & HFi & HFc & HFd & Hidx & Hkeys & Hfull).
  assert (Forall (fun k => is_Some (ff_column (features_of f) k))
                 (tuples (product_columns (features_of f)))) as Hfound
    by (eapply product_all_found; eassumption).
  assert (Forall (fun r => Forall is_Some r) (ff_values (fillna_median F))) as Hvalues.
  { unfold ff_values. apply Forall_forall. intros r Hr.
    apply list_elem_of_lookup in Hr as [i Hi]. rewrite list_lookup_imap in Hi.
    destruct (ff_index (fillna_median F) !! i) as [s|] eqn:Hs; [|done].
    simpl in Hi. injection Hi as <-. apply lookup_lt_Some in Hs.
    cbn [fillna_median ff_index ff_data] in *. rewrite HFd. rewrite HFi in Hs.
    rewrite !Forall_fmap. apply Forall_forall. intros k Hk. cbn [compose].
    rewrite Forall_forall in Hfound. specialize (Hfound k Hk).
    unfold reindexed_column. rewrite ff_column_unstack in Hfound |- *.
    destruct (decide (k ∈ tuples (ff_columns (features_of f)))) as [Hin|];
      [|by destruct Hfound].
    destruct (unstacked_column_valid f Hfull k Hin) as [Hlen Hex].
    apply fill_valid; [done|]. by rewrite Hlen. }
  unfold assemble. destruct add_bias_feature.
  - eexists _, _, _, _, _. split; [reflexivity|].
    unfold hstack_ones. apply Forall_fmap. eapply Forall_impl; [exact Hvalues|].
    intros r Hr. simpl. apply Forall_app. split; [done|]. repeat constructor. by eexists.
  - eexists _, _, _, _, _. split; [reflexivity|done].
Qed.

Lemma feature_matrix_no_missing_witness :
  exists (n : nat) (rows : list (list cell)) (groups : list (list nat))
         (columns : MultiIndex) (bias_index : option nat),
    transform LocStrict Interp1dTwoPoints df_gap false true
    = Ok (Mat n rows, groups, columns, bias_index) /\
    Forall (fun r => Forall is_Some r) rows.
Proof.
  apply (feature_matrix_no_missing LocStrict Interp1dTwoPoints df_gap false true).
  - vm_compute. discriminate.
  - apply (bool_decide_unpack (well_formed false df_gap)). vm_compute. exact I.
  - apply (bool_decide_unpack (moderate df_gap)). vm_compute. exact I.
Defined.

(** ** Groups by label and groups by position *)

(** X28.  Selecting by label and the groups of the transformer agree.
    For columns in the order of the product of their levels (as
    [AFQFeatureTransformer.transform] returns them), no name being both
    a metric and a tract, the label of a tract and a metric selects,
    with the label sets of [multicol2sets] without [tract_symmetry],
    exactly the columns of one group of the group index: the group at
    position metric rank times number of tracts plus tract rank. *)
Theorem select_group_is_group {A} (x : ndarray A) (columns : MultiIndex)
    (metric tract : string) :
  tuples columns
  = tuples (from_product (levels_metric columns) (levels_tract columns)
                         (levels_node columns)) ->
  NoDup (levels_metric columns) ->
  NoDup (levels_tract columns) ->
  (forall name, name ∈ levels_metric columns -> name ∉ levels_tract columns) ->
  levels_node columns <> [] ->
  metric ∈ levels_metric columns ->
  tract ∈ levels_tract columns ->
  ndarray_wf x ->
  width x = Some (n_columns columns) ->
  exists (label_sets : list (gset atom)) (idx : list nat),
    multicol2sets columns false = Ok label_sets /\
    group_index columns
      !! (index_of metric (levels_metric columns) * length (levels_tract columns)
          + index_of tract (levels_tract columns)) = Some idx /\
    select_group x [LStr tract; LStr metric] label_sets = Ok (take_columns idx x).
Proof.
  intros Htuples Hms Hts Hapart Hns Hm Ht Hwf Hw.
  cbn [from_product tuples] in Htuples.
  set (g := index_of metric (levels_metric columns) * length (levels_tract columns)
            + index_of tract (levels_tract columns)).
  assert (length (levels_node columns) <> 0) as HN.
  { intros Hz. by apply length_zero_iff_nil in Hz. }
  assert (g < length (levels_metric columns) * length (levels_tract columns)) as Hg.
  { pose proof (index_of_lt _ _ Hm). pose proof (index_of_lt _ _ Ht). unfold g. nia. }
  destruct (lookup_lt_is_Some_2 (group_index columns) g) as [idx Hidx].
  { by rewrite (length_group_index columns Hms Hts Htuples HN). }
  destruct (group_index_lookup columns Hms Hts Htuples g idx Hidx) as (_ & _ & Hw' & _).
  exists (plain_sets columns), idx. split; [apply multicol2sets_plain|]. split; [done|].
  unfold select_group. rewrite (getitem_by_mask x (issubset [LStr tract; LStr metric]
                                                     (plain_sets columns)));
    [|done|by rewrite length_issubset; unfold plain_sets; rewrite length_map].
  do 2 f_equal. rewrite Hw'. unfold issubset, plain_sets. rewrite !map_map.
  f_equal. apply map_ext_in. intros k Hk. apply list_elem_of_In in Hk.
  apply eq_true_iff_eq. rewrite bool_decide_eq_true, Nat.eqb_eq.
  pose proof Hk as Hk'. rewrite Htuples in Hk'.
  apply elem_of_product in Hk' as (Hk1 & Hk2 & Hk3).
  rewrite matches_pair.
  - assert ((metric, tract, k.2) ∈ tuples columns) as Hmt.
    { rewrite Htuples. by apply elem_of_product. }
    pose proof (group_code_pair columns Htuples k (metric, tract, k.2) Hk Hmt) as Hp.
    change g with (group_code columns (metric, tract, k.2)). symmetry. exact Hp.
  - intros Heq. apply (Hapart _ Hk1). by rewrite Heq.
  - intros Heq. apply (Hapart _ Hm). by rewrite <-Heq.
Qed.

Lemma select_group_is_group_witness :
  exists (label_sets : list (gset atom)) (idx : list nat),
    multicol2sets columns_cst false = Ok label_sets /\
    group_index columns_cst
      !! (index_of "MD" (levels_metric columns_cst) * length (levels_tract columns_cst)
          + index_of "CST_L" (levels_tract columns_cst)) = Some idx /\
    select_group (Vec beta_cst) [LStr "CST_L"; LStr "MD"] label_sets
    = Ok (take_columns idx (Vec beta_cst)).
Proof.
  apply (select_group_is_group (Vec beta_cst) columns_cst "MD" "CST_L").
  - reflexivity.
  - apply (bool_decide_unpack _). vm_compute. exact I.
  - apply (bool_decide_unpack _). vm_compute. exact I.
  - intros name Hm Ht. revert Hm Ht. simpl.
    rewrite !elem_of_cons, !elem_of_nil. intros [->|[->|[]]] [?|[?|[]]]; discriminate.
  - discriminate.
  - apply (bool_decide_unpack _). vm_compute. exact I.
  - apply (bool_decide_unpack _). vm_compute. exact I.
  - exact I.
  - reflexivity.
Defined.

(** ** The values of the table in the feature matrix *)

Lemma NoDup_keys_functional {K V : Type} (l : list (K * V)) (k : K) (v v' : V) :
  NoDup (map fst l) -> (k, v) ∈ l -> (k, v') ∈ l -> v = v'.
Proof.
  induction l as [|[k0 v0] l IH]; intros Hnd Hv Hv'; [by apply elem_of_nil in Hv|].
  cbn [map fst] in Hnd. apply NoDup_cons in Hnd as [Hk0 Hnd].
  apply elem_of_cons in Hv as [Hv|Hv], Hv' as [Hv'|Hv'].
  - congruence.
  - injection Hv as -> ->. destruct Hk0. by apply (list_elem_of_fmap_2 fst _ (k0, v')).
  - injection Hv' as -> ->. destruct Hk0. by apply (list_elem_of_fmap_2 fst _ (k0, v)).
  - by apply IH.
Qed.

Section StackValues.
Variable f : NodeFrame.
Hypothesis Hkeys : NoDup (nf_keys f).
Hypothesis Hindex : NoDup (nf_index f).

Lemma elem_of_stack_inv (k : StackKey) (v : Q) :
  (k, v) ∈ stack f ->
  exists col i,
    ((k.2, k.1.2, k.1.1.2), col) ∈ nf_columns f /\
    nf_index f !! i = Some k.1.1.1 /\ col !! i = Some (Some v).
Proof.
  unfold stack. rewrite list_elem_of_In, in_flat_map.
  intros ([c col] & Hc & Hk). apply list_elem_of_In in Hc, Hk.
  apply list_elem_of_omap in Hk as ([n cl] & Hz & Hv). simpl in Hv.
  destruct cl as [w|]; [|done]. simpl in Hv. injection Hv as <- <-.
  apply list_elem_of_lookup in Hz as [i Hi].
  apply lookup_zip_with_Some in Hi as (n' & c' & [= <- <-] & Hn & Hcl).
  destruct c as [[m t] s]. by exists col, i.
Qed.

Lemma stack_intro (c : SeriesKey) (col : list cell) (i : nat) (n : Z) (v : Q) :
  (c, col) ∈ nf_columns f -> nf_index f !! i = Some n -> col !! i = Some (Some v) ->
  ((n, c.2, c.1.2, c.1.1), v) ∈ stack f.
Proof.
  intros Hc Hn Hv. unfold stack. apply list_elem_of_In, in_flat_map.
  exists (c, col). split; [by apply list_elem_of_In|].
  apply list_elem_of_In, list_elem_of_omap. exists (n, Some v). split; [|done].
  apply list_elem_of_lookup. exists i. apply lookup_zip_with_Some. by exists n, (Some v).
Qed.

(** The stacked series has one value per key. *)
Lemma stack_functional (k : StackKey) (v v' : Q) :
  (k, v) ∈ stack f -> (k, v') ∈ stack f -> v = v'.
Proof.
  intros (col & i & Hc & Hn & Hv)%elem_of_stack_inv
         (col' & i' & Hc' & Hn' & Hv')%elem_of_stack_inv.
  assert (col = col') as <-.
  { unfold nf_keys in Hkeys. by eapply NoDup_keys_functional. }
  assert (i = i') as <- by (by eapply NoDup_lookup).
  congruence.
Qed.

Lemma stack_lookup (k : StackKey) (v : Q) :
  (k, v) ∈ stack f -> (list_to_map (stack f) : gmap StackKey Q) !! k = Some v.
Proof.
  intros Hin. destruct (list_to_map (stack f) !! k) as [v'|] eqn:Hl.
  - apply elem_of_list_to_map_2 in Hl. f_equal. by eapply stack_functional.
  - apply not_elem_of_list_to_map_2 in Hl. destruct Hl.
    by apply (list_elem_of_fmap_2 fst _ (k, v)).
Qed.
End StackValues.

Lemma nf_cell_Some (f : NodeFrame) (c : SeriesKey) (n : Z) (q : Q) :
  nf_cell f c n = Some q ->
  exists col, (c, col) ∈ nf_columns f /\ col !! index_of n (nf_index f) = Some (Some q).
Proof.
  unfold nf_cell. destruct (List.find _ _) as [[c' col]|] eqn:Hfind; [|done].
  apply find_some in Hfind as [Hin Hc]. apply bool_decide_eq_true in Hc.
  simpl in Hc. subst c'. cbn [snd]. intros Hq. exists col.
  split; [by apply list_elem_of_In|].
  destruct (col !! _) as [cl|]; simpl in Hq; [by subst|done].
Qed.

Lemma sort_unique_strings_ext (l1 l2 : list string) :
  (forall s, s ∈ l1 <-> s ∈ l2) ->
  sort_unique String.le l1 = sort_unique String.le l2.
Proof.
  intros Hext. apply (Sorted_unique String.le).
  - apply Sorted_merge_sort. apply _.
  - apply Sorted_merge_sort. apply _.
  - apply NoDup_Permutation; [apply NoDup_sort_unique..|].
    intros s. by rewrite !elem_of_sort_unique.
Qed.

(** X29.  The valid values of the table are in the feature matrix.  For
    a table without two records of one subject, tract, node and
    metric, in which every series has a valid value, and under the
    interior policy, every valid value of the table stands in the matrix
    [AFQFeatureTransformer.transform] returns: in the row of its subject
    (the rows are the distinct subjects in ascending order) and in the
    column of its metric, tract and node.  Interpolation and median fill
    only the entries that are missing. *)
Theorem transform_keeps_values (policy : loc_policy) (scipy : interp1d_policy)
    (df : DataFrame) (add_bias_feature : bool) (o : Obs) (q : Q) :
  unique_keys (melt df) ->
  well_formed false df ->
  o ∈ melt df ->
  o_value o = Some q ->
  exists (n : nat) (rows : list (list cell)) (groups : list (list nat))
         (columns : MultiIndex) (bias_index : option nat)
         (i j : nat) (row : list cell),
    transform policy scipy df false add_bias_feature
    = Ok (Mat n rows, groups, columns, bias_index) /\
    sort_unique String.le (distinct_subjects df) !! i = Some (o_subject o) /\
    tuples columns !! j = Some (o_metric o, o_tract o, o_node o) /\
    rows !! i = Some row /\
    row !! j = Some (Some q).
Proof.
  intros Huniq Hwf Ho Hq.
  destruct (interpolation_stage_ok scipy false df Hwf)
    as (f & Hstage & Hidx & Hkeys & Hfull).
  assert (f = interpolate (pivot_table (melt df))) as Hf.
  { unfold interpolation_stage in Hstage. cbn [negb] in Hstage. congruence. }
  assert (Forall (fun k => is_Some (ff_column (features_of f) k))
                 (tuples (product_columns (features_of f)))) as Hfound
    by (eapply product_all_found; eassumption).
  pose proof (loc_columns_found (features_of f) (product_columns (features_of f))
                policy Hfound) as Hloc.
  set (F := {| ff_index := ff_index (features_of f);
               ff_columns := product_columns (features_of f);
               ff_data := map (reindexed_column (features_of f))
                              (tuples (product_columns (features_of f))) |}) in *.
  assert (transform policy scipy df false add_bias_feature
          = Ok (assemble add_bias_feature (fillna_median F))) as Htr.
  { rewrite transform_stages, Hstage. cbn [mbind result_bind].
    rewrite bool_decide_eq_false_2, Hloc; [reflexivity|].
    apply (pivot_has_column df f o Hkeys Ho). by eexists. }
  set (k := (o_metric o, o_tract o, o_node o) : ColumnKey).
  (* the value in the stacked series *)
  assert (NoDup (nf_keys f)) as Hnk by (rewrite Hkeys; apply pivot_columns_NoDup).
  assert (NoDup (nf_index f)) as Hni by (rewrite Hidx; apply pivot_index_NoDup).
  assert (o_node o ∈ nf_index f) as Hn.
  { rewrite Hidx. apply elem_of_pivot_index. exists o. split; [done|].
    split; [done|]. by eexists. }
  pose proof (input_values_kept df o q Huniq Ho Hq) as Hcell. rewrite <-Hf in Hcell.
  apply nf_cell_Some in Hcell as (col & Hcol & Hv).
  pose proof (stack_intro f (obs_series o) col _ (o_node o) q Hcol
                (index_of_elem _ _ Hn) Hv) as Hstack.
  cbn [obs_series fst snd] in Hstack.
  pose proof (stack_lookup f Hnk Hni _ _ Hstack) as Hlookup.
  (* the row of the subject *)
  assert (o_subject o ∈ ff_index (features_of f)) as Hs.
  { cbn [features_of unstack ff_index]. apply elem_of_sort_unique.
    by apply (list_elem_of_fmap_2 (fun kv : StackKey * Q => stack_subject kv.1) _
                ((o_node o, o_subject o, o_tract o, o_metric o), q)). }
  apply list_elem_of_lookup in Hs as [i Hi].
  assert (ff_index (features_of f) = sort_unique String.le (distinct_subjects df))
    as Hsubjects.
  { cbn [features_of unstack ff_index]. apply sort_unique_strings_ext. intros s.
    rewrite <-(elem_of_sort_unique String.le
                 (map (fun kv : StackKey * Q => stack_subject kv.1) (stack f)) s).
    by apply (elem_of_features_index df f Hidx Hkeys Hfull false Hwf). }
  (* the column of the key *)
  assert (k ∈ tuples (product_columns (features_of f))) as Hk.
  { apply (elem_of_product_tuples df f Hidx Hkeys false Hwf). cbn [k fst snd].
    split; [|split].
    - unfold distinct_metrics. apply elem_of_remove_dups. by apply list_elem_of_fmap_2.
    - unfold distinct_tracts. apply elem_of_remove_dups. by apply list_elem_of_fmap_2.
    - unfold distinct_valid_nodes. apply elem_of_remove_dups, list_elem_of_fmap_2.
      apply list_elem_of_In, filter_In. split; [by apply list_elem_of_In|].
      apply bool_decide_eq_true. unfold obs_valid. by eexists. }
  apply list_elem_of_lookup in Hk as [j Hj].
  assert (reindexed_column (features_of f) k !! i = Some (Some q)) as Hentry.
  { rewrite Forall_forall in Hfound.
    pose proof (Hfound k (list_elem_of_lookup_2 _ _ _ Hj)) as Hfk.
    unfold reindexed_column. rewrite ff_column_unstack in Hfk |- *.
    destruct (decide (k ∈ tuples (ff_columns (features_of f)))); [|by destruct Hfk].
    unfold unstacked_column. rewrite list_lookup_fmap, Hi. cbn [fmap option_fmap option_map].
    f_equal. exact Hlookup. }
  set (row := map (fun col : list cell => default NaN (col !! i))
                  (ff_data (fillna_median F))).
  assert (ff_values (fillna_median F) !! i = Some row) as Hrow.
  { unfold ff_values. rewrite list_lookup_imap. cbn [fillna_median ff_index F].
    by rewrite Hi. }
  assert (row !! j = Some (Some q)) as Hrj.
  { unfold row. cbn [fillna_median ff_data F]. rewrite !list_lookup_fmap, Hj.
    cbn [fmap option_fmap option_map]. by rewrite list_lookup_fmap, Hentry. }
  rewrite Htr. unfold assemble. rewrite <-Hsubjects.
  destruct add_bias_feature.
  - exists (n_columns (ff_columns (fillna_median F)) + 1),
           (hstack_ones (ff_values (fillna_median F))),
           (group_index (ff_columns (fillna_median F))),
           (ff_columns (fillna_median F)),
           (Some (n_columns (ff_columns (fillna_median F)))), i, j, (row ++ [Some 1%Q]).
    split; [done|]. split; [done|]. split; [done|]. split.
    + unfold hstack_ones. by rewrite list_lookup_fmap, Hrow.
    + by apply lookup_app_l_Some.
  - by exists (n_columns (ff_columns (fillna_median F))),
              (ff_values (fillna_median F)),
              (group_index (ff_columns (fillna_median F))),
              (ff_columns (fillna_median F)), None, i, j, row.
Qed.

Lemma transform_keeps_values_witness :
  exists (n : nat) (rows : list (list cell)) (groups : list (list nat))
         (columns : MultiIndex) (bias_index : option nat)
         (i j : nat) (row : list cell),
    transform LocStrict Interp1dTwoPoints df_gap false true
    = Ok (Mat n rows, groups, columns, bias_index) /\
    sort_unique String.le (distinct_subjects df_gap) !! i = Some "s1" /\
    tuples columns !! j = Some ("FA", "A", 2%Z) /\
    rows !! i = Some row /\
    row !! j = Some (Some (inject_Z 5)).
Proof.
  apply (transform_keeps_values LocStrict Interp1dTwoPoints df_gap true
           {| o_subject := "s1"; o_tract := "A"; o_node := 2; o_metric := "FA";
              o_value := num 5 |} (inject_Z 5)).
  - apply (bool_decide_unpack _). vm_compute. exact I.
  - apply (bool_decide_unpack (well_formed false df_gap)). vm_compute. exact I.
  - apply list_elem_of_In. vm_compute. do 2 right. left. reflexivity.
  - reflexivity.
Defined.
